(** * AliceVision: the Debevec response calibration and the popsift KD-tree index

    A shallow embedding of
    - [src/aliceVision/hdr/DebevecCalibrate.cpp] (module [Debevec]), and
    - [src/openMVG/localization/KDTree.h] (module [kdtree]),
    followed by the properties established about them. *)

From Stdlib Require Import ZArith NArith Lia List Permutation.
From stdpp Require Import base tactics option numbers list.

Local Open Scope nat_scope.

(** ** Outcomes of C++ calls

    A call returns a value, throws, or runs into undefined behaviour (an
    unchecked access past the end of a [std::vector]).  [OutOfFuel] is not an
    outcome of the code: it marks a modelled loop whose step budget was too
    small, and is shown not to occur where a result is claimed. *)

Inductive exn : Type :=
  | KDAssertion   (* std::logic_error thrown by [assert_fail] *)
  | VectorAt      (* std::out_of_range thrown by [std::vector::at] *)
  | VectorGrow.   (* std::length_error or std::bad_alloc thrown by
                     [std::vector::push_back] on a vector that cannot grow *)

Inductive outcome (A : Type) : Type :=
  | Ret (a : A)
  | Throw (e : exn)
  | Undefined
  | OutOfFuel.      (* the step budget of a modelled loop ran out *)

Arguments Ret {A} a.
Arguments Throw {A} e.
Arguments Undefined {A}.
Arguments OutOfFuel {A}.

Definition bind {A B} (m : outcome A) (k : A -> outcome B) : outcome B :=
  match m with
  | Ret a => k a
  | Throw e => Throw e
  | Undefined => Undefined
  | OutOfFuel => OutOfFuel
  end.

Declare Scope outcome_scope.
Delimit Scope outcome_scope with outcome.
Notation "'do' x <- m ; k" := (bind m (fun x => k))
  (at level 10, x pattern, m at level 100, k at level 200) : outcome_scope.
Local Open Scope outcome_scope.

(** Monadic left fold: the body of a [for] loop over a container. *)
Fixpoint foldM {A S} (f : S -> A -> outcome S) (l : list A) (s : S) : outcome S :=
  match l with
  | [] => Ret s
  | a :: l' => do s' <- f s a; foldM f l' s'
  end.

(** [std::size_t] is 64 bits wide; arithmetic on it wraps around. *)
Definition wrap64 (z : Z) : N := Z.to_N (z mod 2 ^ 64).

(** Narrowing to Eigen's [StorageIndex] ([int], 32 bits, two's complement). *)
Definition to_int (n : N) : Z :=
  let r := (Z.of_N n mod 2 ^ 32)%Z in
  if (r <? 2 ^ 31)%Z then r else (r - 2 ^ 32)%Z.

(** Conversion to [int] of [std::floor(n)], a [double], for a [size_t] [n]:
    the value itself when it is in the range of [int].  Outside the range
    the conversion is undefined in C++; the conversion instruction of x86-64
    (cvttsd2si) then yields INT_MIN, which is what is modelled. *)
Definition floor_to_int (n : N) : Z :=
  if (Z.of_N n <? 2 ^ 31)%Z then Z.of_N n else (- 2 ^ 31)%Z.

(** * DebevecCalibrate.cpp *)

Module Debevec.

Section Process.

(** The numeric types of the source and the operations on them that the
    routine uses; their rounding is not looked into. *)
Variables float double : Type.
Variable f2d : float -> double.            (* float to double conversion *)
Variable d2f : double -> float.            (* double to float conversion *)
Variable fmul : float -> float -> float.
Variable fneg : float -> float.
Variable flog : float -> float.            (* std::log *)
Variable fone ftwo : float.                (* 1.f, 2.f *)
Variable fresh : float.                    (* what rgbCurve(size) fills a curve with *)
Variable dzero : double.
Variable uninit : double.                  (* a coefficient never written *)
(* std::round(sample * (channelQuantization - 1)), as a size_t; the second
   argument is the value of channelQuantization - 1 *)
Variable round_index : float -> N -> N.

(** image::Rgb<float>: one value per channel. *)
Record Rgb := { chan0 : float; chan1 : float; chan2 : float }.

Definition chan (c : Rgb) (channel : nat) : float :=
  match channel with
  | 0 => chan0 c
  | 1 => chan1 c
  | _ => chan2 c
  end.

(** struct ImageSamples of sampling.hpp, by the two members that the
    routine reads: the colours sampled in one bracket and its exposure. *)
Record ImageSamples := { colors : list Rgb; exposure : float }.

(** Modelled from the spec: class rgbCurve, whose header is not among the
    sources; "a per-channel response curve", one array of [float] per
    channel.  [rgbCurve(size)] has [channelsCount] arrays of [size] values
    [fresh]; [setValue] writes one position, [getValue] reads one. *)
Definition rgbCurve := list (list float).

Definition channelsCount : nat := 3.

Definition rgbCurve_new (size : N) : rgbCurve :=
  replicate channelsCount (replicate (N.to_nat size) fresh).

Definition setValue (k : N) (channel : nat) (v : float) (c : rgbCurve) : rgbCurve :=
  alter (fun a => <[N.to_nat k := v]> a) channel (c : list (list float)).

Definition getValue (c : rgbCurve) (k : N) (channel : nat) : option float :=
  a ← (c : list (list float)) !! channel; a !! N.to_nat k.

(* weight(sample, channel): the weight curve evaluated at a sample *)
Variable weight_at : rgbCurve -> float -> nat -> float.
(* weight.getValue(k, channel) *)
Variable weight_getValue : rgbCurve -> N -> nat -> float.

(** Eigen::Triplet<double>, Vec and sMat. *)
Record T := { row : Z; col : Z; value : double }.

Definition mkT (i j : N) (v : double) : T :=
  {| row := to_int i; col := to_int j; value := v |}.

Definition Vec := list double.

Record sMat := { rows : N; cols : N; entries : list T }.

(** Eigen::SparseQR, an opaque service: [compute] factorises, [solve]
    returns a solution and the solver in its new state, [info] reads the
    status of the last operation ([true] for Eigen::Success). *)
Variable SparseQR : Type.
Variable qr_compute : sMat -> SparseQR.
Variable qr_info : SparseQR -> bool.
Variable qr_solve : SparseQR -> Vec -> (N -> double) * SparseQR.

(** ** Counting the extracted points (lines 46 to 60) *)

Definition group_count (group : list ImageSamples) : N :=
  match group with
  | [] => 0%N
  | g0 :: _ => N.of_nat (length (colors g0))
  end.

Definition countPointPerGroup (samples : list (list ImageSamples)) : list N :=
  map group_count samples.

Definition countPoints (samples : list (list ImageSamples)) : N :=
  fold_left (fun acc group => wrap64 (Z.of_N acc + Z.of_N (group_count group)))
            samples 0%N.

Definition countMeasures (samples : list (list ImageSamples)) : N :=
  fold_left (fun acc group =>
               wrap64 (Z.of_N acc +
                       Z.of_N (wrap64 (Z.of_N (group_count group) * Z.of_nat (length group)))))
            samples 0%N.

(** ** The intermediate buffers (lines 65 to 78) *)

Record buffers := {
  count : N;
  previousSamplesCount : N;
  tripletList_array : list (list T);
  b_array : list Vec
}.

Definition push_back (channel : nat) (t : T) (s : buffers) : buffers :=
  {| count := count s;
     previousSamplesCount := previousSamplesCount s;
     tripletList_array := alter (fun l => l ++ [t]) channel (tripletList_array s);
     b_array := b_array s |}.

(** [b_array[channel][i] = v]: Eigen does not check the index. *)
Definition write_b (channel : nat) (i : N) (v : double) (s : buffers) : outcome buffers :=
  match b_array s !! channel with
  | Some b =>
      if decide (N.to_nat i < length b) then
        Ret {| count := count s;
               previousSamplesCount := previousSamplesCount s;
               tripletList_array := tripletList_array s;
               b_array := <[channel := <[N.to_nat i := v]> b]> (b_array s) |}
      else Undefined
  | None => Undefined
  end.

Definition set_count (n : N) (s : buffers) : buffers :=
  {| count := n;
     previousSamplesCount := previousSamplesCount s;
     tripletList_array := tripletList_array s;
     b_array := b_array s |}.

Definition set_previous (n : N) (s : buffers) : buffers :=
  {| count := count s;
     previousSamplesCount := n;
     tripletList_array := tripletList_array s;
     b_array := b_array s |}.

Definition channels : list nat := seq 0 channelsCount.

Definition init_buffers (channelQuantization : N) (samples : list (list ImageSamples)) : buffers :=
  let n := wrap64 (Z.of_N (countMeasures samples) + Z.of_N channelQuantization + 1) in
  {| count := 0%N;
     previousSamplesCount := 0%N;
     tripletList_array := replicate channelsCount [];
     b_array := replicate channelsCount (replicate (N.to_nat n) dzero) |}.

(** ** Assembling the measurements (lines 79 to 106) *)

Section Assembly.
Variable channelQuantization : N.
Variable weight : rgbCurve.

(* the body of the loop over the channels, lines 90 to 98 *)
Definition measure_channel (bracket_cur : ImageSamples) (color : Rgb) (sampleId : N)
           (s : buffers) (channel : nat) : outcome buffers :=
  let sample := chan color channel in
  let w_ij := weight_at weight sample channel in
  let time := flog (exposure bracket_cur) in
  let index := round_index sample (wrap64 (Z.of_N channelQuantization - 1)) in
  let s1 := push_back channel (mkT (count s) index (f2d w_ij)) s in
  let s2 := push_back channel
              (mkT (count s)
                   (wrap64 (Z.of_N channelQuantization
                            + Z.of_N (previousSamplesCount s) + Z.of_N sampleId))
                   (f2d (fneg w_ij))) s1 in
  write_b channel (count s) (f2d (fmul w_ij time)) s2.

(* the loop over sampleId, lines 87 to 102; [rest] is what is left of
   bracket_cur.colors from position sampleId on *)
Fixpoint sample_loop (bracket_cur : ImageSamples) (rest : list Rgb) (sampleId : N)
         (s : buffers) : outcome buffers :=
  match rest with
  | [] => Ret s
  | color :: rest' =>
      do s1 <- foldM (measure_channel bracket_cur color sampleId) channels s;
      sample_loop bracket_cur rest' (wrap64 (Z.of_N sampleId + 1))
                  (set_count (wrap64 (Z.of_N (count s1) + 1)) s1)
  end.

Definition measure_bracket (s : buffers) (bracket_cur : ImageSamples) : outcome buffers :=
  sample_loop bracket_cur (colors bracket_cur) 0%N s.

(* the loop over bracketId, lines 83 to 103, entered with the bound
   group.size() - 1 already computed; [rest] is what is left of [group]
   from position bracketId on, so that group[bracketId] is its head and
   an empty [rest] is an access past the end of the vector *)
Fixpoint bracket_loop (rest : list ImageSamples) (bracketId bound : N)
         (s : buffers) : outcome buffers :=
  if (bracketId <? bound)%N then
    match rest with
    | [] => Undefined
    | bracket_cur :: rest' =>
        do s1 <- measure_bracket s bracket_cur;
        bracket_loop rest' (wrap64 (Z.of_N bracketId + 1)) bound s1
    end
  else Ret s.

Definition bracket_bound (group : list ImageSamples) : N :=
  wrap64 (Z.of_nat (length group) - 1).

(* one turn of the loop over groupId, lines 81 to 105 *)
Definition measure_group (s : buffers) (group : list ImageSamples) : outcome buffers :=
  do s1 <- bracket_loop group 0%N (bracket_bound group) s;
  Ret (set_previous (wrap64 (Z.of_N (previousSamplesCount s1) + Z.of_N (group_count group))) s1).

Definition measure_groups (samples : list (list ImageSamples)) (s : buffers) : outcome buffers :=
  foldM measure_group samples s.

(** ** Scale and smoothness rows (lines 108 to 136) *)

Variable lambda : float.

(* T(count, std::floor(channelQuantization/2), 1.f): the row is a size_t and
   the column a double, both converted to int *)
Definition scale_T (i : N) : T :=
  {| row := to_int i; col := floor_to_int (channelQuantization / 2); value := f2d fone |}.

Definition fix_scale (s : buffers) : buffers :=
  let s1 := fold_left (fun acc channel => push_back channel (scale_T (count acc)) acc)
                      channels s in
  set_count (wrap64 (Z.of_N (count s1) + 1)) s1.

Definition smooth_channel (k : N) (s : buffers) (channel : nat) : buffers :=
  let w := weight_getValue weight (wrap64 (Z.of_N k + 1)) channel in
  let s1 := push_back channel (mkT (count s) k (f2d (fmul lambda w))) s in
  let s2 := push_back channel
              (mkT (count s) (wrap64 (Z.of_N k + 1))
                   (f2d (fmul (fmul (fneg ftwo) lambda) w))) s1 in
  push_back channel (mkT (count s) (wrap64 (Z.of_N k + 2)) (f2d (fmul lambda w))) s2.

Definition smooth_row (s : buffers) (k : N) : buffers :=
  let s1 := fold_left (smooth_channel k) channels s in
  set_count (wrap64 (Z.of_N (count s1) + 1)) s1.

Definition smooth_bound : N := wrap64 (Z.of_N channelQuantization - 2).

(* the turns of the loop over k *)
Definition smooth_loop (s : buffers) : buffers :=
  fold_left smooth_row (map N.of_nat (seq 0 (N.to_nat smooth_bound))) s.

(* the loop of lines 120 to 136.  Its bound is computed on size_t: with
   channelQuantization below 2 it wraps to 2^64 - 2 + channelQuantization,
   and three triplets per channel for each of that many turns are more than
   a std::vector holds, whose size is a size_t: push_back throws before the
   loop ends *)
Definition smoothness (s : buffers) : outcome buffers :=
  if (channelQuantization <? 2)%N then Throw VectorGrow else Ret (smooth_loop s).

Definition assemble (samples : list (list ImageSamples)) : outcome buffers :=
  do s <- measure_groups samples (init_buffers channelQuantization samples);
  smoothness (fix_scale s).

(** ** Solving, channel by channel (lines 139 to 172) *)

Definition conservativeResize (n : N) (b : Vec) : Vec :=
  take (N.to_nat n) b ++ replicate (N.to_nat n - length b) uninit.

(* the copy loop, lines 166 to 169 *)
Definition copy_result (channel : nat) (x : N -> double) (response : rgbCurve) : rgbCurve :=
  fold_left (fun r k => setValue k channel (d2f (x k)) r)
            (map N.of_nat (seq 0 (N.to_nat channelQuantization))) response.

Definition system (samples : list (list ImageSamples)) (s : buffers) (channel : nat) : sMat * Vec :=
  ({| rows := count s;
      cols := wrap64 (Z.of_N channelQuantization + Z.of_N (countPoints samples));
      entries := default [] (tripletList_array s !! channel) |},
   conservativeResize (count s) (default [] (b_array s !! channel))).

(* the loop over the channels; [false] is the early [return false] *)
Fixpoint solve_channels (samples : list (list ImageSamples)) (s : buffers)
         (chs : list nat) (response : rgbCurve) : bool * rgbCurve :=
  match chs with
  | [] => (true, response)
  | channel :: chs' =>
      let '(A, b) := system samples s channel in
      let solver := qr_compute A in
      if negb (qr_info solver) then (false, response)
      else
        let '(x, solver') := qr_solve solver b in
        if negb (qr_info solver') then (false, response)
        else solve_channels samples s chs' (copy_result channel x response)
  end.

(** DebevecCalibrate::process, from the samples that extractSamples
    delivers; the result pairs the returned [bool] with the value left
    in the reference parameter [response]. *)
Definition process (samples : list (list ImageSamples)) (response : rgbCurve)
  : outcome (bool * rgbCurve) :=
  let response := rgbCurve_new channelQuantization in
  do s <- assemble samples;
  Ret (solve_channels samples s channels response).

(** ** Notions for the statements about the solve loop *)

(** One channel of the solve loop: the status after [compute] and after
    [solve], and the solution copied on success. *)
Definition channel_ok (samples : list (list ImageSamples)) (s : buffers) (channel : nat) : bool :=
  let '(A, b) := system samples s channel in
  qr_info (qr_compute A) && qr_info (snd (qr_solve (qr_compute A) b)).

Definition solution (samples : list (list ImageSamples)) (s : buffers) (channel : nat) : N -> double :=
  let '(A, b) := system samples s channel in fst (qr_solve (qr_compute A) b).

(* the positions that the copy loop writes *)
Definition copy_keys : list N := map N.of_nat (seq 0 (N.to_nat channelQuantization)).

(** The curve after the solve loop has run over [chs], started on [r]:
    the channels before the first failing one hold their solution. *)
Fixpoint solved (samples : list (list ImageSamples)) (s : buffers) (chs : list nat) : list nat :=
  match chs with
  | [] => []
  | channel :: chs' =>
      if channel_ok samples s channel then channel :: solved samples s chs' else []
  end.

(** ** Notions for the statements about the assembled system *)

(* the counts of the source as plain numbers, without wrap-around *)
Definition group_points (group : list ImageSamples) : nat := N.to_nat (group_count group).

Definition points (samples : list (list ImageSamples)) : nat :=
  sum_list_with group_points samples.

Definition measures (samples : list (list ImageSamples)) : nat :=
  sum_list_with (fun group => group_points group * length group) samples.

(* the samples of a run of brackets, and those of all brackets but the last
   of every group: the measurement rows *)
Definition bracket_rows (brackets : list ImageSamples) : nat :=
  sum_list_with (fun bracket => length (colors bracket)) brackets.

Definition measured_rows (samples : list (list ImageSamples)) : nat :=
  sum_list_with (fun group => bracket_rows (removelast group)) samples.

(* every bracket of the group has as many colours as the first *)
Definition uniform (group : list ImageSamples) : Prop :=
  Forall (fun bracket => length (colors bracket) = group_points group) group.

(* the histogram column of every sample satisfies [Q] *)
Definition rounded (Q : N -> Prop) (bracket : ImageSamples) : Prop :=
  Forall (fun color => forall channel,
              Q (round_index (chan color channel) (wrap64 (Z.of_N channelQuantization - 1))))
         (colors bracket).

Definition triplets (s : buffers) (channel : nat) : list T :=
  default [] (tripletList_array s !! channel).

(* a triplet built from a row below [R] and a column that satisfies [Q] *)
Definition placed (R : N) (Q : N -> Prop) (t : T) : Prop :=
  exists i j v, t = mkT i j v /\ (i < R)%N /\ Q j.

(* a right-hand side of [Lb] coefficients that are zero from position [R] on *)
Definition zero_from (Lb R : nat) (b : Vec) : Prop :=
  length b = Lb /\ forall i, R <= i -> i < Lb -> b !! i = Some dzero.

(* the buffers after [R] rows: [T] triplets in every channel, all placed,
   and right-hand sides of [Lb] coefficients, not written from [R] on *)
Record assembled_upto (Q : N -> Prop) (Lb : nat) (s : buffers) (R P T : nat) : Prop := {
  up_count : count s = N.of_nat R;
  up_previous : previousSamplesCount s = N.of_nat P;
  up_channels : length (tripletList_array s) = channelsCount;
  up_triplets : Forall (fun l => length l = T /\ Forall (placed (N.of_nat R) Q) l)
                       (tripletList_array s);
  up_b : length (b_array s) = channelsCount;
  up_b_length : Forall (zero_from Lb R) (b_array s)
}.

(* the buffers inside row [R]: channel [c] holds [len c] triplets *)
Definition in_row (Q : N -> Prop) (Lb : nat) (R P : nat) (len : nat -> nat) (s : buffers) : Prop :=
  count s = N.of_nat R
  /\ previousSamplesCount s = N.of_nat P
  /\ length (tripletList_array s) = channelsCount
  /\ length (b_array s) = channelsCount
  /\ Forall (zero_from Lb (R + 1)) (b_array s)
  /\ forall channel l,
      tripletList_array s !! channel = Some l ->
      length l = len channel /\ Forall (placed (N.of_nat (R + 1)) Q) l.

(* inside a row that adds [added] triplets to a channel, once the channels
   below [k] are done *)
Definition row_upto (Q : N -> Prop) (Lb : nat) (R P T added k : nat) (s : buffers) : Prop :=
  in_row Q Lb R P (fun channel => if decide (channel < k) then T + added else T) s.

(* the columns that the rows of one bracket use, in a group that starts at
   point [P] *)
Definition bracket_cols (Q : N -> Prop) (P : nat) (bracket : ImageSamples) : Prop :=
  rounded Q bracket
  /\ forall i, i < length (colors bracket) ->
       Q (wrap64 (Z.of_N channelQuantization + Z.of_nat P + Z.of_nat i)).

Fixpoint columns_ok (Q : N -> Prop) (P : nat) (samples : list (list ImageSamples)) : Prop :=
  match samples with
  | [] => True
  | group :: samples' =>
      Forall (bracket_cols Q P) (removelast group)
      /\ columns_ok Q (P + group_points group) samples'
  end.

(* a group whose rows match the allocation: at least one bracket, and as many
   samples in every bracket as in the first *)
Definition regular (group : list ImageSamples) : Prop :=
  group <> [] /\ (Z.of_nat (length group) < 2 ^ 64)%Z /\ uniform group.

(* the coefficient of the scale row, in row [r]: 1 at the middle position of
   the curve *)
Definition scale_triplet (r : N) : T :=
  {| row := to_int r; col := Z.of_N (channelQuantization / 2); value := f2d fone |}.

(* the coefficients of the smoothness row of position [k], in row [r] and in
   one channel: f(k) - 2 f(k + 1) + f(k + 2), weighted *)
Definition smooth_triplets (r : N) (channel : nat) (k : N) : list T :=
  let w := weight_getValue weight (wrap64 (Z.of_N k + 1)) channel in
  [ mkT r k (f2d (fmul lambda w));
    mkT r (wrap64 (Z.of_N k + 1)) (f2d (fmul (fmul (fneg ftwo) lambda) w));
    mkT r (wrap64 (Z.of_N k + 2)) (f2d (fmul lambda w)) ].

(* the smoothness rows of one channel, when the first is row [r0] *)
Definition smooth_rows (r0 : N) (channel : nat) (n : nat) : list T :=
  flat_map (fun j => smooth_triplets (wrap64 (Z.of_N r0 + Z.of_nat j)) channel (N.of_nat j))
           (seq 0 n).

(* buffers with the row counter at [R] and right-hand sides of [Lb]
   coefficients *)
Definition sized (Lb R : nat) (s : buffers) : Prop :=
  count s = N.of_nat R /\ R <= Lb
  /\ length (b_array s) = channelsCount
  /\ Forall (fun b : list double => length b = Lb) (b_array s).

(* a measurement row: the bracket and the sample it stands for, and the
   point offset of the group *)
Record entry := {
  e_bracket : ImageSamples;
  e_previous : N;
  e_sampleId : N;
  e_color : Rgb
}.

(* the two coefficients of measurement row [r], in one channel: w at the
   position of the curve that the sample rounds to, - w at the column of
   the point *)
Definition entry_triplets (channel : nat) (r : nat) (e : entry) : list T :=
  let sample := chan (e_color e) channel in
  let w_ij := weight_at weight sample channel in
  [ mkT (N.of_nat r) (round_index sample (wrap64 (Z.of_N channelQuantization - 1))) (f2d w_ij);
    mkT (N.of_nat r)
        (wrap64 (Z.of_N channelQuantization + Z.of_N (e_previous e) + Z.of_N (e_sampleId e)))
        (f2d (fneg w_ij)) ].

(* its right-hand side: w times the logarithm of the exposure *)
Definition entry_rhs (channel : nat) (e : entry) : double :=
  let w_ij := weight_at weight (chan (e_color e) channel) channel in
  f2d (fmul w_ij (flog (exposure (e_bracket e)))).

Definition measured_triplets (channel : nat) (es : list entry) : list T :=
  concat (imap (entry_triplets channel) es).

(* the buffers that hold the rows [es], with right-hand sides of [Lb]
   coefficients *)
Definition measured (Lb : nat) (es : list entry) (P : N) : buffers :=
  {| count := N.of_nat (length es);
     previousSamplesCount := P;
     tripletList_array := map (fun channel => measured_triplets channel es) channels;
     b_array := map (fun channel => map (entry_rhs channel) es
                                    ++ replicate (Lb - length es) dzero) channels |}.

(* the rows of a bracket from sample [i] on, of a run of brackets, and of the
   samples: every bracket but the last of each group, in order *)
Definition colors_entries (bracket : ImageSamples) (P i : nat) (rest : list Rgb) : list entry :=
  imap (fun j color => {| e_bracket := bracket; e_previous := N.of_nat P;
                          e_sampleId := N.of_nat (i + j); e_color := color |}) rest.

Definition bracket_entries (P : nat) (bracket : ImageSamples) : list entry :=
  colors_entries bracket P 0 (colors bracket).

Fixpoint sample_entries (P : nat) (samples : list (list ImageSamples)) : list entry :=
  match samples with
  | [] => []
  | group :: samples' =>
      flat_map (bracket_entries P) (removelast group)
      ++ sample_entries (P + group_points group) samples'
  end.

(** ** Properties of the assembly and of the solve loop *)

Lemma wrap64_small (z : Z) : (0 <= z < 2 ^ 64)%Z -> wrap64 z = Z.to_N z.
Proof. intros H. unfold wrap64. now rewrite Z.mod_small. Qed.

Lemma bracket_bound_nil : bracket_bound [] = 18446744073709551615%N.
Proof. reflexivity. Qed.

Lemma bracket_loop_cons cur rest bracketId bound s :
  bracket_loop (cur :: rest) bracketId bound s
  = if (bracketId <? bound)%N
    then do s1 <- measure_bracket s cur;
         bracket_loop rest (wrap64 (Z.of_N bracketId + 1)) bound s1
    else Ret s.
Proof. reflexivity. Qed.

Lemma bracket_loop_all_but_last (rest : list ImageSamples) :
  forall (bracketId : N) (s : buffers),
    rest <> [] ->
    (Z.of_N bracketId + Z.of_nat (length rest) < 2 ^ 64)%Z ->
    bracket_loop rest bracketId
      (Z.to_N (Z.of_N bracketId + Z.of_nat (length rest) - 1)) s
    = foldM measure_bracket (removelast rest) s.
Proof.
  induction rest as [|cur rest IH]; intros bracketId s Hne Hlen; [congruence|].
  rewrite bracket_loop_cons.
  assert (Hl : length (cur :: rest) = S (length rest)) by reflexivity.
  rewrite Hl in *. clear Hl.
  destruct rest as [|nxt rest].
  - cbn [length removelast foldM].
    destruct (N.ltb_spec bracketId (Z.to_N (Z.of_N bracketId + Z.of_nat 1 - 1)));
      [lia|reflexivity].
  - assert (Hl' : length (nxt :: rest) = S (length rest)) by reflexivity.
    destruct (N.ltb_spec bracketId
                (Z.to_N (Z.of_N bracketId + Z.of_nat (S (length (nxt :: rest))) - 1)))
      as [_|Hge]; [|lia].
    change (removelast (cur :: nxt :: rest)) with (cur :: removelast (nxt :: rest)).
    cbn [foldM]. destruct (measure_bracket s cur) as [s1| | |]; cbn [bind]; trivial.
    rewrite wrap64_small by lia.
    rewrite <- (IH (Z.to_N (Z.of_N bracketId + 1)) s1); [|congruence|lia].
    f_equal; lia.
Qed.

Lemma foldM_not_ret {A S} (f : S -> A -> outcome S) (l : list A) (x : A) :
  x ∈ l -> (forall s, f s x = Undefined) ->
  forall s r, foldM f l s <> Ret r.
Proof.
  intros Hin Hf. induction l as [|a l IH]; intros s r; [inversion Hin|].
  cbn [foldM]. apply elem_of_cons in Hin as [<-|Hin].
  - now rewrite Hf.
  - destruct (f s a); cbn [bind]; try discriminate. now apply IH.
Qed.

Lemma measure_group_nil (s : buffers) : measure_group s [] = Undefined.
Proof. reflexivity. Qed.

(** X4.  [process] never returns on a group without brackets: whenever it
    returns, every group of the samples has at least one bracket (on an
    empty group the loop over the brackets reads group[0], past the end). *)
Theorem process_returns_nonempty (samples : list (list ImageSamples)) (response : rgbCurve) r :
  process samples response = Ret r -> Forall (fun group => group <> []) samples.
Proof.
  intros Hp. apply Forall_forall. intros group Hin ->.
  unfold process, assemble, measure_groups in Hp.
  destruct (foldM measure_group samples (init_buffers channelQuantization samples))
    as [s| | |] eqn:E; cbn [bind] in Hp; try discriminate.
  revert E. apply foldM_not_ret with (x := []); [exact Hin|apply measure_group_nil].
Qed.

Lemma solve_channels_cons samples s channel chs response :
  solve_channels samples s (channel :: chs) response
  = if channel_ok samples s channel
    then solve_channels samples s chs
           (copy_result channel (solution samples s channel) response)
    else (false, response).
Proof.
  cbn [solve_channels]. unfold channel_ok, solution.
  destruct (system samples s channel) as [A b].
  destruct (qr_info (qr_compute A)); cbn [negb andb]; [|reflexivity].
  destruct (qr_solve (qr_compute A) b) as [x solver']. cbn [fst snd].
  now destruct (qr_info solver').
Qed.

Lemma solve_channels_false samples s chs response :
  fst (solve_channels samples s chs response) = false
  <-> exists channel, channel ∈ chs /\ channel_ok samples s channel = false.
Proof.
  revert response. induction chs as [|c chs IH]; intros response.
  - cbn. split; [discriminate|]. intros (c & Hc & _). inversion Hc.
  - rewrite solve_channels_cons. destruct (channel_ok samples s c) eqn:E.
    + rewrite IH. split; intros (c' & Hin & Hc').
      * exists c'. split; [now apply elem_of_cons; right|trivial].
      * apply elem_of_cons in Hin as [->|Hin]; [congruence|]. now exists c'.
    + cbn [fst]. split; [|trivial]. intros _. exists c. split; [apply elem_of_cons; now left|trivial].
Qed.

(** What [copy_result] leaves in the curve. *)
Lemma getValue_setValue (c : list (list float)) k channel v k' channel' :
  getValue (setValue k channel v c) k' channel'
  = if decide (channel = channel' /\ k = k' /\ is_Some (getValue c k channel))
    then Some v else getValue c k' channel'.
Proof.
  unfold getValue, setValue.
  destruct (decide (channel = channel')) as [<-|Hne].
  - rewrite list_lookup_alter_eq. destruct (c !! channel) as [a|] eqn:Ea; cbn.
    + destruct (decide (k = k')) as [<-|Hk].
      * destruct (a !! N.to_nat k) as [y|] eqn:Ek.
        -- rewrite list_lookup_insert_eq by (now apply lookup_lt_Some in Ek).
           rewrite decide_True; [reflexivity|]. repeat split; eauto.
        -- rewrite list_insert_ge by (now apply lookup_ge_None).
           rewrite Ek. rewrite decide_False; [reflexivity|].
           intros (_ & _ & [y Hy]). discriminate.
      * rewrite list_lookup_insert_ne by lia.
        rewrite decide_False; [reflexivity|]. intros (_ & ? & _). congruence.
    + rewrite decide_False; [reflexivity|]. intros (_ & _ & [y Hy]). discriminate.
  - rewrite list_lookup_alter_ne by trivial.
    rewrite decide_False; [reflexivity|]. intros (? & _). congruence.
Qed.

Lemma is_Some_getValue_setValue (c : list (list float)) k channel v k' channel' :
  is_Some (getValue (setValue k channel v c) k' channel') <-> is_Some (getValue c k' channel').
Proof.
  rewrite getValue_setValue. case_decide as H; [|reflexivity].
  destruct H as (<- & <- & H). split; eauto.
Qed.

Lemma elem_of_copy_keys (k : N) : k ∈ copy_keys <-> (k < channelQuantization)%N.
Proof.
  unfold copy_keys. rewrite list_elem_of_fmap. split.
  - intros (i & -> & Hi). apply elem_of_seq in Hi. lia.
  - intros Hk. exists (N.to_nat k). split; [lia|]. apply elem_of_seq. lia.
Qed.

Lemma getValue_copy_keys (x : N -> double) channel (ks : list N) :
  forall (r : list (list float)) k' channel',
    getValue (fold_left (fun r k => setValue k channel (d2f (x k)) r) ks r) k' channel'
    = if decide (channel = channel' /\ k' ∈ ks /\ is_Some (getValue r k' channel))
      then Some (d2f (x k')) else getValue r k' channel'.
Proof.
  induction ks as [|k ks IH]; intros r k' channel'; cbn [fold_left].
  - rewrite decide_False; [reflexivity|]. intros (_ & H & _). inversion H.
  - rewrite IH, !getValue_setValue.
    pose proof (is_Some_getValue_setValue r k channel (d2f (x k)) k' channel) as HS.
    pose proof (elem_of_cons ks k' k) as HE.
    repeat case_decide; destruct_and?; subst; try reflexivity; exfalso; try tauto.
    match goal with Hin : _ ∈ _ :: _ |- _ => apply HE in Hin as [->|?]; tauto end.
Qed.

Lemma getValue_copy_result (x : N -> double) channel (r : list (list float)) k' channel' :
  getValue (copy_result channel x r) k' channel'
  = if decide (channel = channel' /\ (k' < channelQuantization)%N
               /\ is_Some (getValue r k' channel))
    then Some (d2f (x k')) else getValue r k' channel'.
Proof.
  unfold copy_result. fold copy_keys. rewrite getValue_copy_keys.
  destruct (decide (channel = channel' /\ k' ∈ copy_keys /\ is_Some (getValue r k' channel)))
    as [(? & Hin & ?)|Hn].
  - rewrite decide_True; [reflexivity|]. repeat split; trivial. now apply elem_of_copy_keys.
  - rewrite decide_False; [reflexivity|]. intros (? & Hk & ?). apply Hn.
    repeat split; trivial. now apply elem_of_copy_keys.
Qed.

Lemma getValue_rgbCurve_new k channel :
  channel < channelsCount -> (k < channelQuantization)%N ->
  getValue (rgbCurve_new channelQuantization) k channel = Some fresh.
Proof.
  intros Hc Hk. unfold getValue, rgbCurve_new.
  rewrite lookup_replicate_2 by trivial. cbn.
  apply lookup_replicate_2. lia.
Qed.

Lemma getValue_solve_channels samples s (chs : list nat) :
  forall (r : list (list float)) k channel,
    NoDup chs ->
    (forall c, c ∈ chs -> is_Some (getValue r k c)) ->
    getValue (snd (solve_channels samples s chs r)) k channel
    = if decide (channel ∈ solved samples s chs /\ (k < channelQuantization)%N)
      then Some (d2f (solution samples s channel k)) else getValue r k channel.
Proof.
  induction chs as [|c chs IH]; intros r k channel Hnd Hsome.
  - cbn. rewrite decide_False; [reflexivity|]. intros [H _]. inversion H.
  - rewrite solve_channels_cons. cbn [solved].
    apply NoDup_cons in Hnd as [Hc Hnd].
    destruct (channel_ok samples s c) eqn:E.
    + rewrite IH; trivial.
      2:{ intros c' Hc'. rewrite getValue_copy_result. case_decide; [eauto|].
          apply Hsome. now apply elem_of_cons; right. }
      assert (Hsub : forall c', c' ∈ solved samples s chs -> c' ∈ chs).
      { clear. induction chs as [|a chs IH]; cbn [solved]; [trivial|].
        intros c'. destruct (channel_ok samples s a); [|inversion 1].
        intros [->|H]%elem_of_cons; apply elem_of_cons; [now left|right; now apply IH]. }
      destruct (decide (channel ∈ solved samples s chs /\ (k < channelQuantization)%N))
        as [[Hin Hk]|Hn].
      * rewrite decide_True; [reflexivity|]. split; [now apply elem_of_cons; right|trivial].
      * rewrite getValue_copy_result.
        destruct (decide (c = channel /\ (k < channelQuantization)%N
                          /\ is_Some (getValue r k c))) as [(<- & Hk & _)|Hn'].
        -- rewrite decide_True; [reflexivity|]. split; [apply elem_of_cons; now left|trivial].
        -- rewrite decide_False; [reflexivity|]. intros [Hin Hk].
           apply elem_of_cons in Hin as [->|Hin]; [|now apply Hn].
           apply Hn'. repeat split; trivial. apply Hsome. apply elem_of_cons; now left.
    + cbn [snd]. rewrite decide_False; [reflexivity|]. intros [H _]. inversion H.
Qed.

Lemma solved_all samples s (chs : list nat) :
  (forall c, c ∈ chs -> channel_ok samples s c = true) -> solved samples s chs = chs.
Proof.
  induction chs as [|c chs IH]; intros H; cbn [solved]; [reflexivity|].
  rewrite H by (apply elem_of_cons; now left). f_equal. apply IH.
  intros c' Hc'. apply H. now apply elem_of_cons; right.
Qed.

Lemma elem_of_channels c : c ∈ channels <-> c < channelsCount.
Proof. unfold channels. rewrite elem_of_seq. lia. Qed.

Lemma solved_ok samples s (chs : list nat) c :
  c ∈ solved samples s chs -> channel_ok samples s c = true.
Proof.
  induction chs as [|a chs IH]; cbn [solved]; [inversion 1|].
  destruct (channel_ok samples s a) eqn:E; [|inversion 1].
  intros [->|H]%elem_of_cons; auto.
Qed.

Lemma solved_seq samples s (n : nat) :
  forall a, exists j, j <= n /\ solved samples s (seq a n) = seq a j
                      /\ (j < n -> channel_ok samples s (a + j) = false).
Proof.
  induction n as [|n IH]; intros a; cbn [seq solved].
  - exists 0. split; [lia|]. split; [reflexivity|lia].
  - destruct (channel_ok samples s a) eqn:E.
    + destruct (IH (S a)) as (j & Hj & Hs & Hf). exists (S j).
      split; [lia|]. split.
      * cbn [seq]. now rewrite Hs.
      * intros Hlt. replace (a + S j) with (S a + j) by lia. apply Hf. lia.
    + exists 0. split; [lia|]. split; [reflexivity|].
      intros _. now rewrite Nat.add_0_r.
Qed.

Lemma channel_ok_false samples s channel :
  channel_ok samples s channel = false
  <-> qr_info (qr_compute (fst (system samples s channel))) = false
      \/ qr_info (snd (qr_solve (qr_compute (fst (system samples s channel)))
                                (snd (system samples s channel)))) = false.
Proof.
  unfold channel_ok. destruct (system samples s channel) as [A b]. cbn [fst snd].
  apply andb_false_iff.
Qed.

Lemma solution_eq samples s channel :
  solution samples s channel
  = fst (qr_solve (qr_compute (fst (system samples s channel)))
                  (snd (system samples s channel))).
Proof. unfold solution. now destruct (system samples s channel). Qed.

Lemma process_eq samples response s :
  assemble samples = Ret s ->
  process samples response
  = Ret (solve_channels samples s channels (rgbCurve_new channelQuantization)).
Proof. intros H. unfold process. now rewrite H. Qed.

Lemma NoDup_channels : NoDup channels.
Proof. apply NoDup_seq. Qed.

(** C8.  Once the system is assembled, [process] returns [false] exactly
    when the sparse QR solver reports a failure, after [compute] or after
    [solve], for one of the three channels; when it returns [true], every
    channel of the response holds the solution of its system. *)
Theorem process_false_iff_solver_fails samples response s :
  assemble samples = Ret s ->
  exists ok resp,
    process samples response = Ret (ok, resp)
    /\ (ok = false <->
        exists channel, channel < channelsCount /\
          (qr_info (qr_compute (fst (system samples s channel))) = false
           \/ qr_info (snd (qr_solve (qr_compute (fst (system samples s channel)))
                                     (snd (system samples s channel)))) = false))
    /\ (ok = true ->
        forall channel k, channel < channelsCount -> (k < channelQuantization)%N ->
          getValue resp k channel
          = Some (d2f (fst (qr_solve (qr_compute (fst (system samples s channel)))
                                     (snd (system samples s channel))) k))).
Proof.
  intros Ha. rewrite (process_eq _ _ _ Ha).
  destruct (solve_channels samples s channels (rgbCurve_new channelQuantization))
    as [ok resp] eqn:E.
  exists ok, resp. split; [reflexivity|].
  assert (Hok : ok = fst (solve_channels samples s channels
                            (rgbCurve_new channelQuantization))) by now rewrite E.
  assert (Hresp : resp = snd (solve_channels samples s channels
                                (rgbCurve_new channelQuantization))) by now rewrite E.
  split.
  - rewrite Hok, solve_channels_false. split; intros (c & Hc & Hf); exists c.
    + split; [now apply elem_of_channels|now apply channel_ok_false].
    + split; [now apply elem_of_channels|now apply channel_ok_false].
  - intros Ht channel k Hc Hk. rewrite Hresp, getValue_solve_channels.
    + rewrite solved_all, <- solution_eq.
      * rewrite decide_True; [reflexivity|]. split; [now apply elem_of_channels|trivial].
      * intros c Hin. destruct (channel_ok samples s c) eqn:Ec; [reflexivity|].
        assert (ok = false); [|congruence].
        rewrite Hok. apply solve_channels_false. eauto.
    + apply NoDup_channels.
    + intros c Hin. rewrite getValue_rgbCurve_new; eauto. now apply elem_of_channels.
Qed.

(** C9.  The value left in [response] does not depend on what the caller
    passed in: it is a fresh [rgbCurve(channelQuantization)] that the
    solve loop then writes to.  When [process] returns [false], the
    channels before the failing one already hold their solution and the
    others still hold the values of the fresh curve. *)
Theorem process_overwrites_response samples response :
  (forall response', process samples response' = process samples response)
  /\ (forall s resp,
        assemble samples = Ret s ->
        process samples response = Ret (false, resp) ->
        exists failing,
          failing < channelsCount
          /\ channel_ok samples s failing = false
          /\ forall channel k, channel < channelsCount -> (k < channelQuantization)%N ->
               getValue resp k channel
               = if decide (channel < failing)
                 then Some (d2f (solution samples s channel k))
                 else Some fresh).
Proof.
  split; [reflexivity|]. intros s resp Ha Hp.
  rewrite (process_eq _ _ _ Ha) in Hp.
  assert (Hp' : solve_channels samples s channels (rgbCurve_new channelQuantization)
                = (false, resp)) by congruence.
  clear Hp. rename Hp' into Hp.
  destruct (solved_seq samples s channelsCount 0) as (j & Hj & Hs & Hf).
  fold channels in Hs. cbn [Nat.add] in Hf.
  assert (Hlt : j < channelsCount).
  { destruct (decide (j < channelsCount)) as [|Hge]; [trivial|exfalso].
    assert (j = channelsCount) as -> by lia.
    assert (Hfalse : fst (solve_channels samples s channels
                            (rgbCurve_new channelQuantization)) = false) by now rewrite Hp.
    apply solve_channels_false in Hfalse as (c & Hin & Hc).
    rewrite (solved_ok samples s channels c) in Hc; [discriminate|].
    rewrite Hs. exact Hin. }
  exists j. repeat split; [trivial|auto|].
  intros channel k Hc Hk.
  assert (Hresp : resp = snd (solve_channels samples s channels
                                (rgbCurve_new channelQuantization))) by now rewrite Hp.
  rewrite Hresp, getValue_solve_channels.
  - rewrite Hs, getValue_rgbCurve_new by trivial.
    destruct (decide (channel < j)) as [Hcj|Hcj].
    + rewrite decide_True; [reflexivity|]. split; [apply elem_of_seq; lia|trivial].
    + rewrite decide_False; [reflexivity|]. intros [Hin _]. apply elem_of_seq in Hin. lia.
  - apply NoDup_channels.
  - intros c Hin. rewrite getValue_rgbCurve_new; eauto. now apply elem_of_channels.
Qed.

(** C10.  For a group with at least one bracket, the loop over bracketId,
    run with the bound group.size() - 1, is the loop over all brackets of
    the group but the last: the last bracket adds no row.  For an empty
    group the unsigned bound is 2^64 - 1 and the first access group[0] is
    past the end of the vector. *)
Theorem bracket_loop_skips_last_bracket (group : list ImageSamples) (s : buffers) :
  (Z.of_nat (length group) < 2 ^ 64)%Z ->
  match group with
  | [] => bracket_bound group = 18446744073709551615%N
          /\ bracket_loop group 0%N (bracket_bound group) s = Undefined
  | _ :: _ => bracket_bound group = N.of_nat (length group - 1)
              /\ bracket_loop group 0%N (bracket_bound group) s
                 = foldM measure_bracket (removelast group) s
  end.
Proof.
  intros Hlen. destruct group as [|cur rest]; [split; reflexivity|].
  assert (Hb : bracket_bound (cur :: rest)
               = Z.to_N (Z.of_N 0 + Z.of_nat (length (cur :: rest)) - 1)).
  { unfold bracket_bound. rewrite wrap64_small; [f_equal; lia|].
    cbn [length] in *. lia. }
  split.
  - rewrite Hb. cbn [length]. lia.
  - rewrite Hb. apply bracket_loop_all_but_last; [congruence|lia].
Qed.

(** ** The assembled system *)

Lemma group_count_points (group : list ImageSamples) :
  group_count group = N.of_nat (group_points group).
Proof. unfold group_points. now rewrite N2Nat.id. Qed.

Lemma countPoints_from (samples : list (list ImageSamples)) :
  forall acc : nat,
    (Z.of_nat (acc + points samples) < 2 ^ 64)%Z ->
    fold_left (fun acc group => wrap64 (Z.of_N acc + Z.of_N (group_count group)))
              samples (N.of_nat acc)
    = N.of_nat (acc + points samples).
Proof.
  unfold points.
  induction samples as [|group samples IH]; intros acc Hlt; cbn [fold_left sum_list_with] in *.
  - f_equal. lia.
  - rewrite group_count_points.
    replace (wrap64 (Z.of_N (N.of_nat acc) + Z.of_N (N.of_nat (group_points group))))
      with (N.of_nat (acc + group_points group)) by (rewrite wrap64_small; lia).
    rewrite IH by lia. f_equal. lia.
Qed.

Lemma countPoints_plain (samples : list (list ImageSamples)) :
  (Z.of_nat (points samples) < 2 ^ 64)%Z -> countPoints samples = N.of_nat (points samples).
Proof. intros H. apply (countPoints_from samples 0). exact H. Qed.

Lemma countMeasures_from (samples : list (list ImageSamples)) :
  forall acc : nat,
    (Z.of_nat (acc + measures samples) < 2 ^ 64)%Z ->
    fold_left (fun acc group =>
                 wrap64 (Z.of_N acc +
                         Z.of_N (wrap64 (Z.of_N (group_count group)
                                         * Z.of_nat (length group)))))
              samples (N.of_nat acc)
    = N.of_nat (acc + measures samples).
Proof.
  unfold measures.
  induction samples as [|group samples IH]; intros acc Hlt; cbn [fold_left sum_list_with] in *.
  - f_equal. lia.
  - rewrite group_count_points.
    replace (wrap64 (Z.of_N (N.of_nat (group_points group)) * Z.of_nat (length group)))
      with (N.of_nat (group_points group * length group)) by (rewrite wrap64_small; lia).
    replace (wrap64 (Z.of_N (N.of_nat acc)
                     + Z.of_N (N.of_nat (group_points group * length group))))
      with (N.of_nat (acc + group_points group * length group))
      by (rewrite wrap64_small; lia).
    rewrite IH by lia. f_equal. lia.
Qed.

Lemma countMeasures_plain (samples : list (list ImageSamples)) :
  (Z.of_nat (measures samples) < 2 ^ 64)%Z ->
  countMeasures samples = N.of_nat (measures samples).
Proof. intros H. apply (countMeasures_from samples 0). exact H. Qed.

Lemma placed_mono (R R' : N) (Q : N -> Prop) t : placed R Q t -> (R <= R')%N -> placed R' Q t.
Proof. intros (i & j & v & -> & Hi & Hj) Hle. exists i, j, v. repeat split; trivial. lia. Qed.

Lemma assembled_init (Q : N -> Prop) (samples : list (list ImageSamples)) :
  (Z.of_nat (measures samples) + Z.of_N channelQuantization + 1 < 2 ^ 64)%Z ->
  assembled_upto Q (measures samples + N.to_nat channelQuantization + 1)
                 (init_buffers channelQuantization samples) 0 0 0.
Proof.
  intros Hlt. unfold init_buffers. rewrite countMeasures_plain by lia.
  rewrite wrap64_small by lia.
  split; cbn; trivial.
  - repeat constructor.
  - repeat constructor; try (rewrite length_replicate; lia);
      intros i _ Hi; apply lookup_replicate_2; lia.
Qed.

Lemma foldM_seq {St} (f : St -> nat -> outcome St) (I : nat -> St -> Prop) (n : nat) :
  forall k s,
    (forall j s, k <= j < k + n -> I j s -> exists s', f s j = Ret s' /\ I (S j) s') ->
    I k s ->
    exists s', foldM f (seq k n) s = Ret s' /\ I (k + n) s'.
Proof.
  induction n as [|n IH]; intros k s Hstep Hk; cbn [seq foldM].
  - exists s. now rewrite Nat.add_0_r.
  - destruct (Hstep k s) as (s1 & -> & H1); [lia|trivial|]. cbn [bind].
    destruct (IH (S k) s1) as (s' & Hs' & HI); [|trivial|].
    + intros j s2 Hj. apply Hstep. lia.
    + exists s'. split; [exact Hs'|]. now replace (k + S n) with (S k + n) by lia.
Qed.

Lemma fold_left_seq {St} (f : St -> nat -> St) (I : nat -> St -> Prop) (n : nat) :
  forall k s,
    (forall j s, k <= j < k + n -> I j s -> I (S j) (f s j)) ->
    I k s -> I (k + n) (fold_left f (seq k n) s).
Proof.
  induction n as [|n IH]; intros k s Hstep Hk; cbn [seq fold_left].
  - now rewrite Nat.add_0_r.
  - replace (k + S n) with (S k + n) by lia. apply IH.
    + intros j s2 Hj. apply Hstep. lia.
    + apply Hstep; [lia|trivial].
Qed.

Lemma push_back_lookup channel t s channel' :
  tripletList_array (push_back channel t s) !! channel'
  = if decide (channel = channel')
    then (fun l => l ++ [t]) <$> tripletList_array s !! channel
    else tripletList_array s !! channel'.
Proof. unfold push_back. cbn [tripletList_array]. apply list_lookup_alter. Qed.

Lemma row_begin (Q : N -> Prop) Lb s R P T added :
  assembled_upto Q Lb s R P T -> row_upto Q Lb R P T added 0 s.
Proof.
  intros [Hc Hp Hch Ht Hb Hbl]. unfold row_upto, in_row.
  split; [trivial|]. split; [trivial|]. split; [trivial|]. split; [trivial|]. split.
  { eapply Forall_impl; [exact Hbl|]. intros b [Hl Hz]. split; [trivial|].
    intros i Hi. apply Hz. lia. }
  intros channel l H. split.
  - rewrite Forall_lookup in Ht. destruct (Ht _ _ H) as [Hl _].
    rewrite decide_False by lia. exact Hl.
  - rewrite Forall_lookup in Ht. destruct (Ht _ _ H) as [_ Hf].
    eapply Forall_impl; [exact Hf|]. intros t Hpl. eapply placed_mono; [exact Hpl|lia].
Qed.

Lemma row_end (Q : N -> Prop) Lb s R P T added :
  row_upto Q Lb R P T added channelsCount s ->
  (Z.of_nat R + 1 < 2 ^ 64)%Z ->
  assembled_upto Q Lb (set_count (wrap64 (Z.of_N (count s) + 1)) s) (R + 1) P (T + added).
Proof.
  intros (Hc & Hp & Hch & Hb & Hbl & Ht) Hfit.
  split; cbn [set_count count previousSamplesCount tripletList_array b_array]; trivial.
  - rewrite Hc, wrap64_small by lia. lia.
  - apply Forall_lookup. intros channel l Hl. destruct (Ht _ _ Hl) as [Hlen Hpl].
    split; [|exact Hpl]. rewrite Hlen, decide_True; [reflexivity|].
    apply lookup_lt_Some in Hl. lia.
Qed.

Lemma in_row_ext (Q : N -> Prop) Lb R P len len' s :
  (forall channel, channel < channelsCount -> len channel = len' channel) ->
  in_row Q Lb R P len s -> in_row Q Lb R P len' s.
Proof.
  intros Hext (Hc & Hp & Hch & Hb & Hbl & Ht). repeat split; trivial.
  - destruct (Ht _ _ H) as [Hlen _]. rewrite Hlen. apply Hext.
    apply lookup_lt_Some in H. lia.
  - now destruct (Ht _ _ H).
Qed.

(* one push in channel [k], inside a row *)
Lemma in_row_push (Q : N -> Prop) Lb R P len k j v s :
  in_row Q Lb R P len s -> Q j ->
  in_row Q Lb R P (fun channel => if decide (channel = k) then S (len channel) else len channel)
         (push_back k (mkT (count s) j v) s).
Proof.
  intros (Hc & Hp & Hch & Hb & Hbl & Ht) HQ.
  repeat split; trivial.
  - unfold push_back. cbn [tripletList_array]. now rewrite length_alter.
  - rewrite push_back_lookup in H. case_decide as Hk.
    + subst channel. destruct (tripletList_array s !! k) as [l0|] eqn:E; [|discriminate].
      cbn in H. injection H as <-. destruct (Ht _ _ E) as [Hlen _].
      rewrite decide_True by trivial. rewrite length_app. cbn. lia.
    + destruct (Ht _ _ H) as [Hlen _]. rewrite decide_False by congruence. exact Hlen.
  - rewrite push_back_lookup in H. case_decide as Hk.
    + subst channel. destruct (tripletList_array s !! k) as [l0|] eqn:E; [|discriminate].
      cbn in H. injection H as <-. destruct (Ht _ _ E) as [_ Hpl].
      apply Forall_app. split; [exact Hpl|]. constructor; [|constructor].
      exists (count s), j, v. repeat split; trivial. lia.
    + now destruct (Ht _ _ H).
Qed.

(* the write to the right-hand side, inside a row *)
Lemma in_row_write (Q : N -> Prop) Lb R P len k v s :
  in_row Q Lb R P len s -> k < channelsCount -> R < Lb ->
  exists s', write_b k (count s) v s = Ret s' /\ in_row Q Lb R P len s'.
Proof.
  intros (Hc & Hp & Hch & Hb & Hbl & Ht) Hk HR. unfold write_b.
  destruct (b_array s !! k) as [b|] eqn:E.
  2:{ exfalso. apply lookup_ge_None in E. unfold channelsCount, Vec in *. lia. }
  assert (Hlb : zero_from Lb (R + 1) b) by (rewrite Forall_lookup in Hbl; eauto).
  destruct Hlb as [Hlb Hz].
  rewrite decide_True by lia. eexists. split; [reflexivity|].
  repeat split; cbn [count previousSamplesCount tripletList_array b_array]; trivial.
  - now rewrite length_insert.
  - apply Forall_lookup. intros c b' Hb'.
    destruct (decide (k = c)) as [<-|Hne].
    + rewrite list_lookup_insert_eq in Hb' by (apply lookup_lt_Some in E; exact E).
      injection Hb' as <-. split; [now rewrite length_insert|].
      intros i Hi HiLb. unfold Vec in *.
      rewrite list_lookup_insert_ne by (rewrite Hc; lia). now apply Hz.
    + rewrite list_lookup_insert_ne in Hb' by trivial.
      rewrite Forall_lookup in Hbl; eauto.
  - now destruct (Ht _ _ H).
  - now destruct (Ht _ _ H).
Qed.

(* one turn of the loop over the channels, lines 90 to 98 *)
Lemma measure_channel_step (Q : N -> Prop) Lb R P T k bracket_cur color sampleId s :
  row_upto Q Lb R P T 2 k s -> k < channelsCount -> R < Lb ->
  Q (round_index (chan color k) (wrap64 (Z.of_N channelQuantization - 1))) ->
  Q (wrap64 (Z.of_N channelQuantization + Z.of_nat P + Z.of_N sampleId)) ->
  exists s', measure_channel bracket_cur color sampleId s k = Ret s'
             /\ row_upto Q Lb R P T 2 (S k) s'.
Proof.
  intros Hrow Hk HR Hq1 Hq2. unfold measure_channel.
  pose proof Hrow as (_ & Hp & _). rewrite Hp, nat_N_Z.
  pose proof (in_row_push Q Lb R P _ k _ (f2d (weight_at weight (chan color k) k)) s Hrow Hq1)
    as H1.
  pose proof (in_row_push Q Lb R P _ k _
                (f2d (fneg (weight_at weight (chan color k) k))) _ H1 Hq2) as H2.
  destruct (in_row_write Q Lb R P _ k
              (f2d (fmul (weight_at weight (chan color k) k) (flog (exposure bracket_cur))))
              _ H2 Hk HR) as (s' & Hs' & H3).
  exists s'. split; [exact Hs'|].
  eapply in_row_ext; [|exact H3]. intros c _. cbn beta.
  repeat case_decide; lia.
Qed.

(* lines 89 to 101: one row of the measurements *)
Lemma measure_row (Q : N -> Prop) Lb R P T bracket_cur color sampleId s :
  assembled_upto Q Lb s R P T -> R < Lb -> (Z.of_nat R + 1 < 2 ^ 64)%Z ->
  (forall channel,
      Q (round_index (chan color channel) (wrap64 (Z.of_N channelQuantization - 1)))) ->
  Q (wrap64 (Z.of_N channelQuantization + Z.of_nat P + Z.of_N sampleId)) ->
  exists s1, foldM (measure_channel bracket_cur color sampleId) channels s = Ret s1
             /\ assembled_upto Q Lb (set_count (wrap64 (Z.of_N (count s1) + 1)) s1)
                               (R + 1) P (T + 2).
Proof.
  intros Hs HR Hfit Hq1 Hq2.
  destruct (foldM_seq (measure_channel bracket_cur color sampleId)
              (fun k s => row_upto Q Lb R P T 2 k s) channelsCount 0 s)
    as (s1 & Hs1 & Hrow).
  - intros j s2 Hj Hrow. apply measure_channel_step; trivial. lia.
  - now apply row_begin.
  - exists s1. split; [exact Hs1|]. apply row_end; trivial.
Qed.

(* the loop over sampleId, lines 87 to 102 *)
Lemma sample_loop_rows (Q : N -> Prop) Lb P bracket_cur (rest : list Rgb) :
  forall (sampleId : nat) s R T,
    assembled_upto Q Lb s R P T ->
    R + length rest <= Lb -> (Z.of_nat Lb < 2 ^ 64)%Z ->
    (Z.of_nat (sampleId + length rest) < 2 ^ 64)%Z ->
    Forall (fun color => forall channel,
                Q (round_index (chan color channel) (wrap64 (Z.of_N channelQuantization - 1))))
           rest ->
    (forall i, i < length rest ->
               Q (wrap64 (Z.of_N channelQuantization + Z.of_nat P + Z.of_nat (sampleId + i)))) ->
    exists s', sample_loop bracket_cur rest (N.of_nat sampleId) s = Ret s'
               /\ assembled_upto Q Lb s' (R + length rest) P (T + 2 * length rest).
Proof.
  induction rest as [|color rest IH]; intros sampleId s R T Hs HR HLb Hid Hq1 Hq2;
    cbn [sample_loop length] in *.
  - exists s. split; [reflexivity|].
    replace (R + 0) with R by lia. now replace (T + 2 * 0) with T by lia.
  - apply Forall_cons in Hq1 as [Hq Hq1].
    destruct (measure_row Q Lb R P T bracket_cur color (N.of_nat sampleId) s)
      as (s1 & -> & Hs1); trivial; [lia|lia| |].
    { rewrite nat_N_Z. specialize (Hq2 0). rewrite Nat.add_0_r in Hq2. apply Hq2. lia. }
    cbn [bind].
    replace (wrap64 (Z.of_N (N.of_nat sampleId) + 1)) with (N.of_nat (S sampleId))
      by (rewrite wrap64_small; lia).
    destruct (IH (S sampleId) _ (R + 1) (T + 2) Hs1) as (s' & Hs' & Hup); trivial; [lia|lia| |].
    { intros i Hi. replace (S sampleId + i) with (sampleId + S i) by lia. apply Hq2. lia. }
    exists s'. split; [exact Hs'|].
    replace (R + S (length rest)) with (R + 1 + length rest) by lia.
    now replace (T + 2 * S (length rest)) with (T + 2 + 2 * length rest) by lia.
Qed.

Lemma measure_bracket_rows (Q : N -> Prop) Lb P bracket s R T :
  assembled_upto Q Lb s R P T ->
  R + length (colors bracket) <= Lb -> (Z.of_nat Lb < 2 ^ 64)%Z ->
  bracket_cols Q P bracket ->
  exists s', measure_bracket s bracket = Ret s'
             /\ assembled_upto Q Lb s' (R + length (colors bracket)) P
                               (T + 2 * length (colors bracket)).
Proof.
  intros Hs HR HLb [Hr Hc]. unfold measure_bracket.
  apply (sample_loop_rows Q Lb P bracket (colors bracket) 0); trivial.
  cbn [Nat.add]. lia.
Qed.

Lemma measure_brackets_rows (Q : N -> Prop) Lb P (brackets : list ImageSamples) :
  forall s R T,
    assembled_upto Q Lb s R P T ->
    R + bracket_rows brackets <= Lb -> (Z.of_nat Lb < 2 ^ 64)%Z ->
    Forall (bracket_cols Q P) brackets ->
    exists s', foldM measure_bracket brackets s = Ret s'
               /\ assembled_upto Q Lb s' (R + bracket_rows brackets) P
                                 (T + 2 * bracket_rows brackets).
Proof.
  unfold bracket_rows.
  induction brackets as [|bracket brackets IH]; intros s R T Hs HR HLb Hcols;
    cbn [foldM sum_list_with] in *.
  - exists s. split; [reflexivity|].
    replace (R + 0) with R by lia. now replace (T + 2 * 0) with T by lia.
  - apply Forall_cons in Hcols as [Hcol Hcols].
    destruct (measure_bracket_rows Q Lb P bracket s R T) as (s1 & -> & Hs1); trivial; [lia|].
    cbn [bind].
    destruct (IH s1 _ _ Hs1) as (s' & Hs' & Hup); trivial; [lia|].
    exists s'. split; [exact Hs'|].
    now rewrite !Nat.mul_add_distr_l, !Nat.add_assoc.
Qed.

(* one turn of the loop over groupId, lines 81 to 105 *)
Lemma measure_group_rows (Q : N -> Prop) Lb group s R P T :
  assembled_upto Q Lb s R P T ->
  group <> [] -> (Z.of_nat (length group) < 2 ^ 64)%Z ->
  R + bracket_rows (removelast group) <= Lb -> (Z.of_nat Lb < 2 ^ 64)%Z ->
  (Z.of_nat (P + group_points group) < 2 ^ 64)%Z ->
  Forall (bracket_cols Q P) (removelast group) ->
  exists s', measure_group s group = Ret s'
             /\ assembled_upto Q Lb s' (R + bracket_rows (removelast group))
                               (P + group_points group)
                               (T + 2 * bracket_rows (removelast group)).
Proof.
  intros Hs Hne Hlen HR HLb HP Hcols. unfold measure_group.
  assert (Hb : bracket_bound group = Z.to_N (Z.of_N 0 + Z.of_nat (length group) - 1)).
  { unfold bracket_bound. rewrite wrap64_small; [f_equal; lia|].
    destruct group; [congruence|cbn [length] in *; lia]. }
  rewrite Hb, bracket_loop_all_but_last by (trivial; lia).
  destruct (measure_brackets_rows Q Lb P (removelast group) s R T) as (s1 & -> & Hs1); trivial.
  cbn [bind]. eexists. split; [reflexivity|].
  destruct Hs1 as [Hc Hp Hch Ht Hbb Hbl].
  split; cbn [set_previous count previousSamplesCount tripletList_array b_array]; trivial.
  rewrite Hp, group_count_points, wrap64_small; lia.
Qed.

(* the loop over groupId, lines 79 to 106 *)
Lemma measure_groups_rows (Q : N -> Prop) Lb (samples : list (list ImageSamples)) :
  forall s R P T,
    assembled_upto Q Lb s R P T ->
    Forall (fun group => group <> [] /\ (Z.of_nat (length group) < 2 ^ 64)%Z) samples ->
    R + measured_rows samples <= Lb -> (Z.of_nat Lb < 2 ^ 64)%Z ->
    (Z.of_nat (P + points samples) < 2 ^ 64)%Z ->
    columns_ok Q P samples ->
    exists s', measure_groups samples s = Ret s'
               /\ assembled_upto Q Lb s' (R + measured_rows samples) (P + points samples)
                                 (T + 2 * measured_rows samples).
Proof.
  unfold measure_groups, measured_rows, points.
  induction samples as [|group samples IH]; intros s R P T Hs Hreg HR HLb HP Hcols;
    cbn [foldM sum_list_with columns_ok] in *.
  - exists s. split; [reflexivity|].
    replace (R + 0) with R by lia. replace (P + 0) with P by lia.
    now replace (T + 2 * 0) with T by lia.
  - apply Forall_cons in Hreg as [[Hne Hlen] Hreg]. destruct Hcols as [Hcol Hcols].
    destruct (measure_group_rows Q Lb group s R P T) as (s1 & -> & Hs1); trivial; [lia|lia|].
    cbn [bind].
    destruct (IH s1 _ _ _ Hs1) as (s' & Hs' & Hup); trivial; [lia|lia|].
    exists s'. split; [exact Hs'|].
    now rewrite !Nat.mul_add_distr_l, !Nat.add_assoc.
Qed.

(* the scale row, lines 112 to 116 *)
Lemma floor_to_int_small (n : N) : (Z.of_N n < 2 ^ 31)%Z -> floor_to_int n = Z.of_N n.
Proof. intros H. unfold floor_to_int. destruct (Z.ltb_spec (Z.of_N n) (2 ^ 31)); lia. Qed.

Lemma to_int_small (n : N) : (Z.of_N n < 2 ^ 31)%Z -> to_int n = Z.of_N n.
Proof.
  intros H. unfold to_int. cbv zeta. rewrite Z.mod_small by lia.
  destruct (Z.ltb_spec (Z.of_N n) (2 ^ 31)); [reflexivity|lia].
Qed.

(* whatever the conversion of the scale column yields is an int *)
Lemma floor_to_int_narrow (n : N) : exists j, floor_to_int n = to_int j.
Proof.
  unfold floor_to_int. destruct (Z.ltb_spec (Z.of_N n) (2 ^ 31)).
  - exists n. now rewrite to_int_small.
  - exists 2147483648%N. reflexivity.
Qed.

Lemma fix_scale_row (Q : N -> Prop) Lb s R P T :
  assembled_upto Q Lb s R P T -> (Z.of_nat R + 1 < 2 ^ 64)%Z ->
  (exists j, floor_to_int (channelQuantization / 2) = to_int j /\ Q j) ->
  assembled_upto Q Lb (fix_scale s) (R + 1) P (T + 1).
Proof.
  intros Hs Hfit (j0 & Hj0 & HQ). unfold fix_scale, scale_T. rewrite Hj0.
  apply row_end; trivial.
  apply (fold_left_seq
           (fun acc channel => push_back channel (mkT (count acc) j0 (f2d fone)) acc)
           (fun k s => row_upto Q Lb R P T 1 k s) channelsCount 0 s).
  - intros j s2 Hj Hrow. eapply in_row_ext; [|apply in_row_push; [exact Hrow|exact HQ]].
    intros c _. cbn beta. repeat case_decide; lia.
  - now apply row_begin.
Qed.

(* one smoothness row, lines 122 to 135 *)
Lemma smooth_row_row (Q : N -> Prop) Lb s R P T k :
  assembled_upto Q Lb s R P T -> (Z.of_nat R + 1 < 2 ^ 64)%Z ->
  Q k -> Q (wrap64 (Z.of_N k + 1)) -> Q (wrap64 (Z.of_N k + 2)) ->
  assembled_upto Q Lb (smooth_row s k) (R + 1) P (T + 3).
Proof.
  intros Hs Hfit HQ0 HQ1 HQ2. unfold smooth_row. apply row_end; trivial.
  apply (fold_left_seq (smooth_channel k)
           (fun c s => row_upto Q Lb R P T 3 c s) channelsCount 0 s).
  - intros j s2 Hj Hrow. unfold smooth_channel.
    set (w := weight_getValue weight (wrap64 (Z.of_N k + 1)) j).
    pose proof (in_row_push Q Lb R P _ j _ (f2d (fmul lambda w)) s2 Hrow HQ0) as H1.
    pose proof (in_row_push Q Lb R P _ j _ (f2d (fmul (fmul (fneg ftwo) lambda) w)) _ H1 HQ1)
      as H2.
    pose proof (in_row_push Q Lb R P _ j _ (f2d (fmul lambda w)) _ H2 HQ2) as H3.
    eapply in_row_ext; [|exact H3].
    intros c _. cbn beta. repeat case_decide; lia.
  - now apply row_begin.
Qed.

Lemma fold_left_fmap {St A B} (f : St -> B -> St) (g : A -> B) (l : list A) :
  forall s, fold_left f (map g l) s = fold_left (fun s x => f s (g x)) l s.
Proof. induction l as [|x l IH]; intros s; cbn [map fold_left]; [reflexivity|apply IH]. Qed.

(* the smoothness rows, lines 120 to 136 *)
Lemma smoothness_rows (Q : N -> Prop) Lb s R P T :
  assembled_upto Q Lb s R P T ->
  (Z.of_nat (R + N.to_nat smooth_bound) < 2 ^ 64)%Z ->
  (forall k, (k < smooth_bound)%N ->
             Q k /\ Q (wrap64 (Z.of_N k + 1)) /\ Q (wrap64 (Z.of_N k + 2))) ->
  assembled_upto Q Lb (smooth_loop s) (R + N.to_nat smooth_bound) P
                 (T + 3 * N.to_nat smooth_bound).
Proof.
  intros Hs Hfit HQ. unfold smooth_loop. rewrite fold_left_fmap.
  apply (fold_left_seq (fun s x => smooth_row s (N.of_nat x))
           (fun j s => assembled_upto Q Lb s (R + j) P (T + 3 * j))
           (N.to_nat smooth_bound) 0 s).
  - intros j s2 Hj Hup. destruct (HQ (N.of_nat j)) as (H0 & H1 & H2); [lia|].
    replace (R + S j) with (R + j + 1) by lia.
    replace (T + 3 * S j) with (T + 3 * j + 3) by lia.
    apply smooth_row_row; trivial. lia.
  - replace (R + 0) with R by lia. now replace (T + 3 * 0) with T by lia.
Qed.

Lemma points_le_measures (samples : list (list ImageSamples)) :
  Forall (fun group => group <> []) samples -> points samples <= measures samples.
Proof.
  unfold points, measures. induction 1 as [|group samples Hne _ IH]; cbn [sum_list_with]; [lia|].
  destruct group as [|g0 group]; [congruence|]. cbn [length]. nia.
Qed.

Lemma bracket_rows_uniform (c : nat) (brackets : list ImageSamples) :
  Forall (fun bracket => length (colors bracket) = c) brackets ->
  bracket_rows brackets = c * length brackets.
Proof.
  unfold bracket_rows. induction 1 as [|bracket brackets Hb _ IH]; cbn [sum_list_with length]; lia.
Qed.

Lemma Forall_removelast {A} (P : A -> Prop) (l : list A) : Forall P l -> Forall P (removelast l).
Proof.
  induction 1 as [|x l Hx Hl IH]; [constructor|].
  destruct l as [|y l]; [constructor|]. change (Forall P (x :: removelast (y :: l))).
  now constructor.
Qed.

Lemma length_removelast {A} (l : list A) : length (removelast l) = length l - 1.
Proof.
  induction l as [|x l IH]; [reflexivity|].
  destruct l as [|y l]; [reflexivity|]. change (length (x :: removelast (y :: l)) = S (length (y :: l)) - 1).
  cbn [length] in *. lia.
Qed.

Lemma measured_rows_le_measures (samples : list (list ImageSamples)) :
  Forall uniform samples -> measured_rows samples <= measures samples.
Proof.
  unfold measured_rows, measures.
  induction 1 as [|group samples Hu _ IH]; cbn [sum_list_with]; [lia|].
  rewrite (bracket_rows_uniform (group_points group)) by now apply Forall_removelast.
  rewrite length_removelast. nia.
Qed.

Lemma measures_split (samples : list (list ImageSamples)) :
  Forall regular samples -> measures samples = measured_rows samples + points samples.
Proof.
  unfold measured_rows, measures, points.
  induction 1 as [|group samples (Hne & _ & Hu) _ IH]; cbn [sum_list_with]; [lia|].
  rewrite (bracket_rows_uniform (group_points group)) by now apply Forall_removelast.
  rewrite length_removelast. destruct group as [|g0 group]; [congruence|].
  cbn [length]. nia.
Qed.

Lemma smooth_bound_plain :
  (2 <= channelQuantization)%N -> (Z.of_N channelQuantization < 2 ^ 64)%Z ->
  N.to_nat smooth_bound = N.to_nat channelQuantization - 2.
Proof. intros H Hlt. unfold smooth_bound. rewrite wrap64_small by lia. lia. Qed.

Lemma smoothness_Ret (s : buffers) :
  (2 <= channelQuantization)%N -> smoothness s = Ret (smooth_loop s).
Proof.
  intros H. unfold smoothness. destruct (N.ltb_spec channelQuantization 2); [lia|reflexivity].
Qed.

Lemma assemble_eq (samples : list (list ImageSamples)) s1 :
  (2 <= channelQuantization)%N ->
  measure_groups samples (init_buffers channelQuantization samples) = Ret s1 ->
  assemble samples = Ret (smooth_loop (fix_scale s1)).
Proof. intros Hcq H. unfold assemble. rewrite H. cbn [bind]. now apply smoothness_Ret. Qed.

(* lines 65 to 136: the buffers [s1] after the measurement rows, and after
   the scale and smoothness rows *)
Lemma assemble_upto (Q : N -> Prop) (samples : list (list ImageSamples)) :
  Forall (fun group => group <> [] /\ (Z.of_nat (length group) < 2 ^ 64)%Z) samples ->
  measured_rows samples <= measures samples ->
  (Z.of_nat (measures samples) + Z.of_N channelQuantization + 1 < 2 ^ 64)%Z ->
  (2 <= channelQuantization)%N ->
  columns_ok Q 0 samples ->
  (exists j, floor_to_int (channelQuantization / 2) = to_int j /\ Q j) ->
  (forall k, (k + 2 < channelQuantization)%N -> Q k /\ Q (k + 1)%N /\ Q (k + 2)%N) ->
  exists s1,
    measure_groups samples (init_buffers channelQuantization samples) = Ret s1
    /\ assembled_upto Q (measures samples + N.to_nat channelQuantization + 1) s1
                      (measured_rows samples) (points samples) (2 * measured_rows samples)
    /\ assembled_upto Q (measures samples + N.to_nat channelQuantization + 1)
                      (smooth_loop (fix_scale s1))
                      (measured_rows samples + 1 + (N.to_nat channelQuantization - 2))
                      (points samples)
                      (2 * measured_rows samples + 1 + 3 * (N.to_nat channelQuantization - 2)).
Proof.
  intros Hne Hrows Hfit Hcq Hcols Hmid Hsmooth.
  assert (Hpts : points samples <= measures samples).
  { apply points_le_measures. eapply Forall_impl; [exact Hne|]. now intros g [? _]. }
  destruct (measure_groups_rows Q (measures samples + N.to_nat channelQuantization + 1)
              samples (init_buffers channelQuantization samples) 0 0 0)
    as (s1 & Hs1 & Hup1); trivial; [now apply assembled_init|lia|lia|lia|].
  cbn [Nat.add] in *. exists s1. split; [exact Hs1|]. split; [exact Hup1|].
  pose proof (smooth_bound_plain Hcq ltac:(lia)) as Hsb.
  rewrite <- Hsb. apply smoothness_rows.
  - apply fix_scale_row; trivial. lia.
  - lia.
  - intros k Hk. assert (Hk2 : (k + 2 < channelQuantization)%N) by lia.
    destruct (Hsmooth k Hk2) as (H0 & H1 & H2).
    rewrite !wrap64_small by lia.
    replace (Z.to_N (Z.of_N k + 1)) with (k + 1)%N by lia.
    now replace (Z.to_N (Z.of_N k + 2)) with (k + 2)%N by lia.
Qed.

Lemma rounded_mono (Q Q' : N -> Prop) bracket :
  (forall j, Q j -> Q' j) -> rounded Q bracket -> rounded Q' bracket.
Proof.
  intros HQ Hr. unfold rounded. eapply Forall_impl; [exact Hr|].
  intros color H channel. apply HQ, H.
Qed.

Lemma columns_ok_True (samples : list (list ImageSamples)) :
  forall P, columns_ok (fun _ => True) P samples.
Proof.
  induction samples as [|group samples IH]; intros P; cbn [columns_ok]; [trivial|].
  split; [|apply IH]. apply Forall_forall. intros bracket _. split; [|trivial].
  apply Forall_forall. intros color _ channel. trivial.
Qed.

(* with samples that round to a position of the curve, every column used is
   a column of the matrix *)
Lemma columns_ok_in_range (total : nat) (samples : list (list ImageSamples)) :
  forall P,
    Forall uniform samples ->
    Forall (Forall (rounded (fun j => (j < channelQuantization)%N))) samples ->
    P + points samples <= total ->
    (Z.of_N channelQuantization + Z.of_nat total < 2 ^ 64)%Z ->
    columns_ok (fun j => (j < channelQuantization + N.of_nat total)%N) P samples.
Proof.
  unfold points.
  induction samples as [|group samples IH]; intros P Hu Hr Hle Hfit;
    cbn [columns_ok sum_list_with] in *; [trivial|].
  apply Forall_cons in Hu as [Hu Hus]. apply Forall_cons in Hr as [Hr Hrs].
  split; [|apply IH; trivial; lia].
  apply Forall_removelast. apply Forall_forall. intros bracket Hin.
  unfold uniform in Hu. rewrite Forall_forall in Hu. rewrite Forall_forall in Hr. split.
  - eapply rounded_mono; [|apply Hr, Hin]. cbn beta. intros j Hj. lia.
  - intros i Hi. rewrite (Hu _ Hin) in Hi. rewrite wrap64_small by lia. lia.
Qed.

Lemma regular_nonempty (samples : list (list ImageSamples)) :
  Forall regular samples ->
  Forall (fun group => group <> [] /\ (Z.of_nat (length group) < 2 ^ 64)%Z) samples.
Proof. intros H. eapply Forall_impl; [exact H|]. intros g (? & ? & _). now split. Qed.

Lemma regular_uniform (samples : list (list ImageSamples)) :
  Forall regular samples -> Forall uniform samples.
Proof. intros H. eapply Forall_impl; [exact H|]. now intros g (_ & _ & ?). Qed.

(* the scale and smoothness rows leave the right-hand sides alone *)
Lemma b_array_fold_left {A} (f : buffers -> A -> buffers) (l : list A) :
  (forall s x, b_array (f s x) = b_array s) ->
  forall s, b_array (fold_left f l s) = b_array s.
Proof.
  intros Hf. induction l as [|x l IH]; intros s; cbn [fold_left]; [reflexivity|].
  now rewrite IH, Hf.
Qed.

Lemma b_array_regularisation s : b_array (smooth_loop (fix_scale s)) = b_array s.
Proof.
  unfold smooth_loop. rewrite b_array_fold_left.
  - unfold fix_scale. cbn [set_count b_array]. now apply b_array_fold_left.
  - intros s2 k. unfold smooth_row. cbn [set_count b_array]. now apply b_array_fold_left.
Qed.

Lemma triplets_lookup s channel :
  length (tripletList_array s) = channelsCount -> channel < channelsCount ->
  tripletList_array s !! channel = Some (triplets s channel).
Proof.
  intros Hl Hc. unfold triplets.
  destruct (tripletList_array s !! channel) as [l|] eqn:E; [reflexivity|].
  apply lookup_ge_None in E. lia.
Qed.

(** X1.  The size of the assembled system.  When every group has at least
    one bracket and the same number of samples in each of its brackets,
    the sizes do not overflow a size_t and the curve has at least two
    positions, the assembly returns: the row counter ends at the number of
    samples of all brackets but the last of each group, plus one scale row,
    plus channelQuantization - 2 smoothness rows; the point offset ends at
    countPoints, the number of point columns of the matrix; and every
    channel holds two triplets per measurement row, one for the scale row and
    three per smoothness row. *)
Theorem assemble_counts (samples : list (list ImageSamples)) :
  Forall regular samples ->
  (Z.of_nat (measures samples) + Z.of_N channelQuantization + 1 < 2 ^ 64)%Z ->
  (2 <= channelQuantization)%N ->
  exists s,
    assemble samples = Ret s
    /\ count s = N.of_nat (measured_rows samples + 1 + (N.to_nat channelQuantization - 2))
    /\ previousSamplesCount s = countPoints samples
    /\ forall channel, channel < channelsCount ->
         length (triplets s channel)
         = 2 * measured_rows samples + 1 + 3 * (N.to_nat channelQuantization - 2).
Proof.
  intros Hreg Hfit Hcq.
  destruct (assemble_upto (fun _ => True) samples) as (s1 & Hs1 & _ & Hup); trivial.
  - now apply regular_nonempty.
  - now apply measured_rows_le_measures, regular_uniform.
  - apply columns_ok_True.
  - destruct (floor_to_int_narrow (channelQuantization / 2)) as [j Hj]. now exists j.
  - intros k _. repeat split.
  - exists (smooth_loop (fix_scale s1)). split; [now apply assemble_eq|].
    destruct Hup as [Hc Hp Hch Ht _ _]. split; [exact Hc|]. split.
    + rewrite Hp, countPoints_plain; [reflexivity|].
      pose proof (measures_split samples Hreg). lia.
    + intros channel Hchan. rewrite Forall_lookup in Ht.
      now destruct (Ht _ _ (triplets_lookup _ _ Hch Hchan)).
Qed.

(** X2.  The right-hand sides.  Under the same conditions, each of the
    three vectors was allocated with countPoints + 2 more coefficients than
    the system has rows, so that conservativeResize(count) only cuts it and
    never appends a coefficient that was not written; and the coefficients of
    the scale row and of the smoothness rows are the zeros of Vec::Zero. *)
Theorem right_hand_side_is_cut (samples : list (list ImageSamples)) :
  Forall regular samples ->
  (Z.of_nat (measures samples) + Z.of_N channelQuantization + 1 < 2 ^ 64)%Z ->
  (2 <= channelQuantization)%N ->
  exists s,
    assemble samples = Ret s
    /\ forall channel, channel < channelsCount ->
         exists b : list double,
           b_array s !! channel = Some b
           /\ length b = N.to_nat (count s) + points samples + 2
           /\ snd (system samples s channel) = take (N.to_nat (count s)) b
           /\ forall i, measured_rows samples <= i -> i < N.to_nat (count s) ->
                        snd (system samples s channel) !! i = Some dzero.
Proof.
  intros Hreg Hfit Hcq.
  destruct (assemble_upto (fun _ => True) samples) as (s1 & Hs1 & Hup1 & Hup); trivial.
  - now apply regular_nonempty.
  - now apply measured_rows_le_measures, regular_uniform.
  - apply columns_ok_True.
  - destruct (floor_to_int_narrow (channelQuantization / 2)) as [j Hj]. now exists j.
  - intros k _. repeat split.
  - exists (smooth_loop (fix_scale s1)). split; [now apply assemble_eq|].
    intros channel Hchan.
    destruct Hup as [Hc _ _ _ Hb Hbl]. destruct Hup1 as [_ _ _ _ _ Hbl1].
    rewrite b_array_regularisation in *.
    destruct (b_array s1 !! channel) as [b|] eqn:E.
    2:{ exfalso. apply lookup_ge_None in E. unfold Vec in *. lia. }
    exists b. split; [reflexivity|].
    rewrite Forall_lookup in Hbl1. destruct (Hbl1 _ _ E) as [Hlen Hz].
    pose proof (measures_split samples Hreg) as Hsplit.
    assert (Hcount : N.to_nat (count (smooth_loop (fix_scale s1)))
                     = measured_rows samples + 1 + (N.to_nat channelQuantization - 2))
      by (rewrite Hc; lia).
    assert (Hcut : snd (system samples (smooth_loop (fix_scale s1)) channel)
                   = take (N.to_nat (count (smooth_loop (fix_scale s1)))) b).
    { unfold system. cbn [snd]. rewrite b_array_regularisation, E.
      change (default [] (Some b)) with b.
      unfold conservativeResize.
      replace (N.to_nat (count (smooth_loop (fix_scale s1))) - length b) with 0 by lia.
      cbn [replicate]. apply app_nil_r. }
    split; [lia|]. split; [exact Hcut|].
    intros i Hi Hlt. rewrite Hcut. unfold Vec. rewrite lookup_take_lt by lia. apply Hz; lia.
Qed.

(** X3.  Every coefficient lies inside the matrix.  When, moreover, every
    sample rounds to a position of the curve (std::round(sample *
    (channelQuantization - 1)) < channelQuantization) and the numbers of
    rows and of columns fit Eigen's int index, every triplet handed to
    setFromTriplets has its row below the row count of A and its column
    below channelQuantization + countPoints, the column count of A. *)
Theorem triplets_inside_matrix (samples : list (list ImageSamples)) :
  Forall regular samples ->
  Forall (Forall (rounded (fun j => (j < channelQuantization)%N))) samples ->
  (2 <= channelQuantization)%N ->
  (Z.of_nat (measured_rows samples) + Z.of_N channelQuantization - 1 < 2 ^ 31)%Z ->
  (Z.of_N channelQuantization + Z.of_nat (points samples) < 2 ^ 31)%Z ->
  exists s,
    assemble samples = Ret s
    /\ forall channel t,
         t ∈ entries (fst (system samples s channel)) ->
         (0 <= row t < Z.of_N (rows (fst (system samples s channel))))%Z
         /\ (0 <= col t < Z.of_N (cols (fst (system samples s channel))))%Z.
Proof.
  intros Hreg Hround Hcq Hrows Hcols.
  pose proof (measures_split samples Hreg) as Hsplit.
  destruct (assemble_upto (fun j => (j < channelQuantization + N.of_nat (points samples))%N)
              samples) as (s1 & Hs1 & _ & Hup); trivial.
  - now apply regular_nonempty.
  - lia.
  - lia.
  - apply columns_ok_in_range; trivial; [now apply regular_uniform|lia].
  - assert (channelQuantization / 2 < channelQuantization)%N by (apply N.div_lt; lia).
    exists (channelQuantization / 2)%N. cbn beta.
    rewrite floor_to_int_small, to_int_small by lia. split; [reflexivity|lia].
  - intros k Hk. cbn beta. lia.
  - exists (smooth_loop (fix_scale s1)). split; [now apply assemble_eq|].
    intros channel t Hin. unfold system in *. cbn [fst rows cols entries] in *.
    destruct Hup as [Hc _ Hch Ht _ _].
    destruct (tripletList_array (smooth_loop (fix_scale s1)) !! channel) as [l|] eqn:E;
      [change (default [] (Some l)) with l in Hin|inversion Hin].
    rewrite Forall_lookup in Ht. destruct (Ht _ _ E) as [_ Hpl].
    rewrite Forall_forall in Hpl. destruct (Hpl _ Hin) as (i & j & v & -> & Hi & Hj).
    cbn [mkT row col]. rewrite Hc, countPoints_plain, wrap64_small by lia.
    rewrite !to_int_small by lia. lia.
Qed.

(** *** The scale and smoothness rows, channel by channel *)

Lemma wrap64_idemp (x y : Z) : wrap64 (Z.of_N (wrap64 x) + y) = wrap64 (x + y).
Proof.
  unfold wrap64. rewrite Z2N.id by (apply Z.mod_pos_bound; lia).
  now rewrite Zplus_mod_idemp_l.
Qed.

Lemma three_channels (s : buffers) :
  length (tripletList_array s) = channelsCount ->
  exists l0 l1 l2, tripletList_array s = [l0; l1; l2].
Proof.
  intros H. destruct (tripletList_array s) as [|l0 [|l1 [|l2 [|l3 l]]]]; try discriminate.
  now exists l0, l1, l2.
Qed.

Lemma fix_scale_eq (s : buffers) l0 l1 l2 :
  (Z.of_N (channelQuantization / 2) < 2 ^ 31)%Z ->
  tripletList_array s = [l0; l1; l2] ->
  fix_scale s
  = {| count := wrap64 (Z.of_N (count s) + 1);
       previousSamplesCount := previousSamplesCount s;
       tripletList_array := [l0 ++ [scale_triplet (count s)];
                             l1 ++ [scale_triplet (count s)];
                             l2 ++ [scale_triplet (count s)]];
       b_array := b_array s |}.
Proof.
  intros Hmid H. unfold fix_scale, channels, channelsCount, scale_T. cbn [seq fold_left].
  rewrite (floor_to_int_small _ Hmid).
  unfold push_back, set_count. cbn [count previousSamplesCount tripletList_array b_array].
  rewrite H. reflexivity.
Qed.

Lemma smooth_row_eq (s : buffers) (k : N) l0 l1 l2 :
  tripletList_array s = [l0; l1; l2] ->
  smooth_row s k
  = {| count := wrap64 (Z.of_N (count s) + 1);
       previousSamplesCount := previousSamplesCount s;
       tripletList_array := [l0 ++ smooth_triplets (count s) 0 k;
                             l1 ++ smooth_triplets (count s) 1 k;
                             l2 ++ smooth_triplets (count s) 2 k];
       b_array := b_array s |}.
Proof.
  intros H. unfold smooth_row, channels, channelsCount. cbn [seq fold_left].
  unfold smooth_channel, push_back, set_count.
  cbn [count previousSamplesCount tripletList_array b_array].
  rewrite H. cbn [alter list_alter]. unfold smooth_triplets.
  now rewrite <- !app_assoc.
Qed.

Lemma triplets_three (s : buffers) l0 l1 l2 channel :
  tripletList_array s = [l0; l1; l2] -> channel < channelsCount ->
  triplets s channel = match channel with 0 => l0 | 1 => l1 | _ => l2 end.
Proof.
  intros H Hc. unfold triplets. rewrite H.
  destruct channel as [|[|[|c]]]; try reflexivity. unfold channelsCount in Hc. lia.
Qed.

Lemma smooth_rows_S r0 channel n :
  smooth_rows r0 channel (S n)
  = smooth_rows r0 channel n
    ++ smooth_triplets (wrap64 (Z.of_N r0 + Z.of_nat n)) channel (N.of_nat n).
Proof.
  unfold smooth_rows. rewrite seq_S, flat_map_app. cbn [flat_map Nat.add].
  now rewrite app_nil_r.
Qed.

(* the loop of lines 120 to 136 after [n] turns *)
Lemma smooth_rows_eq (s : buffers) (n : nat) :
  length (tripletList_array s) = channelsCount ->
  (Z.of_N (count s) < 2 ^ 64)%Z ->
  let s' := fold_left (fun s x => smooth_row s (N.of_nat x)) (seq 0 n) s in
  length (tripletList_array s') = channelsCount
  /\ count s' = wrap64 (Z.of_N (count s) + Z.of_nat n)
  /\ b_array s' = b_array s
  /\ forall channel, channel < channelsCount ->
       triplets s' channel = triplets s channel ++ smooth_rows (count s) channel n.
Proof.
  intros Hlen Hc. cbv zeta. induction n as [|n (IHl & IHc & IHb & IHt)].
  - cbn [seq fold_left]. repeat split; trivial.
    + rewrite wrap64_small by lia. lia.
    + intros channel _. unfold smooth_rows. cbn [seq flat_map]. now rewrite app_nil_r.
  - rewrite seq_S, fold_left_app. cbn [fold_left Nat.add].
    set (sn := fold_left (fun s x => smooth_row s (N.of_nat x)) (seq 0 n) s) in *.
    destruct (three_channels sn IHl) as (l0 & l1 & l2 & Hl).
    rewrite (smooth_row_eq sn (N.of_nat n) l0 l1 l2 Hl).
    cbn [count tripletList_array b_array]. repeat split; trivial.
    + rewrite IHc, wrap64_idemp. f_equal. lia.
    + intros channel Hchan. rewrite smooth_rows_S, app_assoc, <- (IHt channel Hchan).
      rewrite (triplets_three sn l0 l1 l2 channel Hl Hchan), IHc.
      unfold triplets. cbn [tripletList_array].
      destruct channel as [|[|[|c]]]; try reflexivity. unfold channelsCount in Hchan. lia.
Qed.

Lemma regularisation_eq (s : buffers) (channel : nat) :
  length (tripletList_array s) = channelsCount -> channel < channelsCount ->
  (2 <= channelQuantization)%N -> (Z.of_N (channelQuantization / 2) < 2 ^ 31)%Z ->
  smoothness (fix_scale s) = Ret (smooth_loop (fix_scale s))
  /\ count (smooth_loop (fix_scale s))
     = wrap64 (Z.of_N (count s) + 1 + (Z.of_N channelQuantization - 2))
  /\ triplets (smooth_loop (fix_scale s)) channel
     = triplets s channel
       ++ scale_triplet (count s)
       :: smooth_rows (wrap64 (Z.of_N (count s) + 1)) channel
                      (N.to_nat channelQuantization - 2).
Proof.
  intros Hlen Hchan Hcq Hmid. destruct (three_channels s Hlen) as (l0 & l1 & l2 & Hl).
  split; [now apply smoothness_Ret|].
  assert (Hlt : (Z.of_N channelQuantization < 2 ^ 32)%Z).
  { pose proof (N.Div0.div_mod channelQuantization 2).
    pose proof (N.mod_upper_bound channelQuantization 2). lia. }
  pose proof (smooth_bound_plain Hcq ltac:(lia)) as Hsb.
  unfold smooth_loop. rewrite fold_left_fmap, Hsb.
  assert (Hfl : length (tripletList_array (fix_scale s)) = channelsCount)
    by now rewrite (fix_scale_eq s l0 l1 l2 Hmid Hl).
  assert (Hfc : count (fix_scale s) = wrap64 (Z.of_N (count s) + 1))
    by now rewrite (fix_scale_eq s l0 l1 l2 Hmid Hl).
  destruct (smooth_rows_eq (fix_scale s) (N.to_nat channelQuantization - 2) Hfl)
    as (_ & Hc & _ & Ht).
  { rewrite Hfc. unfold wrap64. rewrite Z2N.id; apply Z.mod_pos_bound; lia. }
  split.
  - rewrite Hc, Hfc, wrap64_idemp. f_equal. lia.
  - rewrite (Ht channel Hchan), Hfc.
    replace (triplets (fix_scale s) channel)
      with (triplets s channel ++ [scale_triplet (count s)]); [now rewrite <- app_assoc|].
    rewrite (triplets_three s l0 l1 l2 channel Hl Hchan).
    rewrite (fix_scale_eq s l0 l1 l2 Hmid Hl). unfold triplets. cbn [tripletList_array].
    destruct channel as [|[|[|c]]]; try reflexivity. unfold channelsCount in Hchan. lia.
Qed.

(** X5.  The scale and smoothness rows, channel by channel.  With a curve
    of at least two positions whose middle position channelQuantization / 2
    is in the range of int, lines 112 to 136 return and append to the list
    of every channel one coefficient 1 at column channelQuantization / 2 in
    the row of the counter, and then, for k = 0, 1, ... below
    channelQuantization - 2, the three coefficients lambda w, -2 lambda w,
    lambda w at columns k, k + 1 and k + 2 of the next row each, with w =
    weight.getValue(k + 1, channel) of that channel; the counter advances by
    one per row.  The right-hand sides are not written. *)
Theorem regularisation_rows (s : buffers) (channel : nat) :
  length (tripletList_array s) = channelsCount -> channel < channelsCount ->
  (2 <= channelQuantization)%N -> (Z.of_N (channelQuantization / 2) < 2 ^ 31)%Z ->
  exists s',
    smoothness (fix_scale s) = Ret s'
    /\ count s' = wrap64 (Z.of_N (count s) + 1 + (Z.of_N channelQuantization - 2))
    /\ b_array s' = b_array s
    /\ triplets s' channel
       = triplets s channel
         ++ scale_triplet (count s)
         :: smooth_rows (wrap64 (Z.of_N (count s) + 1)) channel
                        (N.to_nat channelQuantization - 2).
Proof.
  intros Hlen Hchan Hcq Hmid.
  destruct (regularisation_eq s channel Hlen Hchan Hcq Hmid) as (Hr & Hc & Ht).
  exists (smooth_loop (fix_scale s)).
  split; [exact Hr|]. split; [exact Hc|]. split; [apply b_array_regularisation|exact Ht].
Qed.

(** *** What a returning assembly has written *)

Lemma write_b_sized Lb R k v s s' :
  sized Lb R s -> k < channelsCount -> write_b k (count s) v s = Ret s' ->
  R < Lb /\ sized Lb R s'.
Proof.
  intros (Hc & HR & Hb & Hbl) Hk. unfold write_b.
  destruct (b_array s !! k) as [b|] eqn:E; [|discriminate].
  assert (Hlb : length b = Lb) by (rewrite Forall_lookup in Hbl; eauto).
  case_decide as Hlt; [|discriminate]. intros [= <-].
  split; [lia|]. repeat split; cbn [count b_array]; trivial.
  - unfold Vec in *. now rewrite length_insert.
  - apply Forall_lookup. intros c b' Hb'. unfold Vec in *.
    destruct (decide (k = c)) as [<-|Hne].
    + rewrite list_lookup_insert_eq in Hb' by (apply lookup_lt_Some in E; exact E).
      injection Hb' as <-. now rewrite length_insert.
    + rewrite list_lookup_insert_ne in Hb' by trivial.
      rewrite Forall_lookup in Hbl; eauto.
Qed.

Lemma measure_channel_sized Lb R k bracket_cur color sampleId s s' :
  sized Lb R s -> k < channelsCount ->
  measure_channel bracket_cur color sampleId s k = Ret s' ->
  R < Lb /\ sized Lb R s'.
Proof.
  intros Hs Hk H. unfold measure_channel in H.
  match type of H with
  | write_b _ _ ?v ?s2 = _ =>
      apply (write_b_sized Lb R k v s2 s'); [exact Hs|exact Hk|exact H]
  end.
Qed.

Lemma measure_row_sized Lb R bracket_cur color sampleId s s1 :
  sized Lb R s ->
  foldM (measure_channel bracket_cur color sampleId) channels s = Ret s1 ->
  R < Lb /\ sized Lb R s1.
Proof.
  intros Hs. unfold channels, channelsCount. cbn [seq foldM].
  destruct (measure_channel bracket_cur color sampleId s 0) as [s0| | |] eqn:E0;
    cbn [bind]; try discriminate.
  apply measure_channel_sized with (Lb := Lb) (R := R) in E0 as [HR H0];
    [|trivial|unfold channelsCount; lia].
  destruct (measure_channel bracket_cur color sampleId s0 1) as [s1'| | |] eqn:E1;
    cbn [bind]; try discriminate.
  apply measure_channel_sized with (Lb := Lb) (R := R) in E1 as [_ H1];
    [|trivial|unfold channelsCount; lia].
  destruct (measure_channel bracket_cur color sampleId s1' 2) as [s2| | |] eqn:E2;
    cbn [bind]; try discriminate.
  apply measure_channel_sized with (Lb := Lb) (R := R) in E2 as [_ H2];
    [|trivial|unfold channelsCount; lia].
  intros [= <-]. now split.
Qed.

Lemma sample_loop_sized Lb bracket_cur (rest : list Rgb) :
  forall sampleId s R s',
    sized Lb R s -> (Z.of_nat Lb < 2 ^ 64)%Z ->
    sample_loop bracket_cur rest sampleId s = Ret s' ->
    sized Lb (R + length rest) s'.
Proof.
  induction rest as [|color rest IH]; intros sampleId s R s' Hs HLb;
    cbn [sample_loop length].
  - intros [= <-]. now rewrite Nat.add_0_r.
  - destruct (foldM (measure_channel bracket_cur color sampleId) channels s)
      as [s1| | |] eqn:E; cbn [bind]; try discriminate.
    apply measure_row_sized with (Lb := Lb) (R := R) in E as [HR (Hc & _ & Hb & Hbl)];
      [|exact Hs].
    intros H. apply IH with (R := R + 1) in H; trivial.
    + now replace (R + S (length rest)) with (R + 1 + length rest) by lia.
    + repeat split; cbn [set_count count b_array]; trivial; [|lia].
      rewrite Hc, wrap64_small by lia. lia.
Qed.

Lemma measure_brackets_sized Lb (brackets : list ImageSamples) :
  forall s R s',
    sized Lb R s -> (Z.of_nat Lb < 2 ^ 64)%Z ->
    foldM measure_bracket brackets s = Ret s' ->
    sized Lb (R + bracket_rows brackets) s'.
Proof.
  unfold bracket_rows.
  induction brackets as [|bracket brackets IH]; intros s R s' Hs HLb;
    cbn [foldM sum_list_with].
  - intros [= <-]. now rewrite Nat.add_0_r.
  - destruct (measure_bracket s bracket) as [s1| | |] eqn:E; cbn [bind]; try discriminate.
    apply sample_loop_sized with (Lb := Lb) (R := R) in E; trivial.
    intros H. apply IH with (R := R + length (colors bracket)) in H; trivial.
    now rewrite Nat.add_assoc.
Qed.

Lemma measure_group_sized Lb group s R s' :
  sized Lb R s -> (Z.of_nat Lb < 2 ^ 64)%Z -> (Z.of_nat (length group) < 2 ^ 64)%Z ->
  measure_group s group = Ret s' ->
  sized Lb (R + bracket_rows (removelast group)) s'.
Proof.
  intros Hs HLb Hlen. destruct group as [|cur rest]; [discriminate|].
  unfold measure_group.
  assert (Hb : bracket_bound (cur :: rest)
               = Z.to_N (Z.of_N 0 + Z.of_nat (length (cur :: rest)) - 1)).
  { unfold bracket_bound. rewrite wrap64_small; [f_equal; lia|]. cbn [length] in *. lia. }
  rewrite Hb, bracket_loop_all_but_last by first [discriminate|lia].
  destruct (foldM measure_bracket (removelast (cur :: rest)) s) as [s1| | |] eqn:E;
    cbn [bind]; try discriminate.
  apply measure_brackets_sized with (Lb := Lb) (R := R) in E; trivial.
  intros [= <-]. exact E.
Qed.

Lemma measure_groups_sized Lb (samples : list (list ImageSamples)) :
  forall s R s',
    sized Lb R s -> (Z.of_nat Lb < 2 ^ 64)%Z ->
    Forall (fun group => (Z.of_nat (length group) < 2 ^ 64)%Z) samples ->
    measure_groups samples s = Ret s' ->
    sized Lb (R + measured_rows samples) s'.
Proof.
  unfold measure_groups, measured_rows.
  induction samples as [|group samples IH]; intros s R s' Hs HLb Hlen;
    cbn [foldM sum_list_with].
  - intros [= <-]. now rewrite Nat.add_0_r.
  - apply Forall_cons in Hlen as [Hl Hlen].
    destruct (measure_group s group) as [s1| | |] eqn:E; cbn [bind]; try discriminate.
    apply measure_group_sized with (Lb := Lb) (R := R) in E; trivial.
    intros H. apply IH with (R := R + bracket_rows (removelast group)) in H; trivial.
    now rewrite Nat.add_assoc.
Qed.

(** X7.  A returning assembly stayed inside the right-hand sides.  The
    vectors b are allocated from the number of samples of the first bracket
    of each group (countMeasures + channelQuantization + 1 coefficients),
    while one coefficient is written for every sample of every bracket but
    the last.  Whenever the assembly returns, the rows written were no more
    than the coefficients allocated: with brackets that hold more samples
    than the allocation provides for, a write b_array[channel][count] is out
    of range and nothing is returned. *)
Theorem assemble_within_allocation (samples : list (list ImageSamples)) (s : buffers) :
  assemble samples = Ret s ->
  Forall (fun group => (Z.of_nat (length group) < 2 ^ 64)%Z) samples ->
  (Z.of_nat (measures samples) + Z.of_N channelQuantization + 1 < 2 ^ 64)%Z ->
  measured_rows samples <= measures samples + N.to_nat channelQuantization + 1.
Proof.
  intros Ha Hlen Hfit. unfold assemble in Ha.
  destruct (measure_groups samples (init_buffers channelQuantization samples))
    as [s1| | |] eqn:E; cbn [bind] in Ha; try discriminate.
  assert (H0 : sized (measures samples + N.to_nat channelQuantization + 1) 0
                     (init_buffers channelQuantization samples)).
  { destruct (assembled_init (fun _ => True) samples Hfit) as [Hc _ _ _ Hb Hbl].
    repeat split; trivial; [lia|].
    eapply Forall_impl; [exact Hbl|]. now intros b [? _]. }
  destruct (measure_groups_sized _ samples _ 0 s1 H0 ltac:(lia) Hlen E) as (_ & H & _).
  exact H.
Qed.

(** *** The measurement rows, in closed form *)

Lemma measured_triplets_snoc channel es e :
  measured_triplets channel (es ++ [e])
  = measured_triplets channel es ++ entry_triplets channel (length es) e.
Proof.
  unfold measured_triplets. rewrite imap_app, concat_app. cbn [imap concat].
  now rewrite Nat.add_0_r, app_nil_r.
Qed.

Lemma rhs_snoc Lb channel es e :
  length es < Lb ->
  <[length es := entry_rhs channel e]>
    (map (entry_rhs channel) es ++ replicate (Lb - length es) dzero)
  = map (entry_rhs channel) (es ++ [e]) ++ replicate (Lb - length (es ++ [e])) dzero.
Proof.
  intros Hlt. rewrite length_app. cbn [length].
  replace (Lb - length es) with (S (Lb - (length es + 1))) by lia.
  cbn [replicate]. rewrite map_app. cbn [map]. rewrite <- app_assoc. cbn [app].
  rewrite insert_app_r_alt by (rewrite length_map; lia).
  rewrite length_map, Nat.sub_diag. reflexivity.
Qed.

Lemma init_measured (samples : list (list ImageSamples)) :
  init_buffers channelQuantization samples
  = measured (N.to_nat (wrap64 (Z.of_N (countMeasures samples)
                                + Z.of_N channelQuantization + 1))) [] 0.
Proof.
  unfold init_buffers, measured. cbn [length map imap]. rewrite Nat.sub_0_r. reflexivity.
Qed.

Lemma measure_row_measured Lb es P bracket_cur color sampleId :
  length es < Lb -> (Z.of_nat Lb < 2 ^ 64)%Z ->
  exists s1,
    foldM (measure_channel bracket_cur color sampleId) channels (measured Lb es P) = Ret s1
    /\ set_count (wrap64 (Z.of_N (count s1) + 1)) s1
       = measured Lb (es ++ [{| e_bracket := bracket_cur; e_previous := P;
                                e_sampleId := sampleId; e_color := color |}]) P.
Proof.
  intros Hlt HLb.
  assert (Hdec : forall channel,
             N.to_nat (N.of_nat (length es))
             < length (map (entry_rhs channel) es ++ replicate (Lb - length es) dzero)).
  { intros channel. rewrite length_app, length_map, length_replicate. lia. }
  unfold measured, channels, channelsCount. cbn [seq map foldM].
  unfold measure_channel, push_back, write_b.
  cbn [count previousSamplesCount tripletList_array b_array alter list_alter lookup list_lookup
       bind].
  rewrite !decide_True by apply Hdec.
  cbn [count previousSamplesCount tripletList_array b_array alter list_alter lookup list_lookup
       bind insert list_insert].
  rewrite !decide_True by apply Hdec.
  cbn [count previousSamplesCount tripletList_array b_array alter list_alter lookup list_lookup
       bind insert list_insert].
  rewrite !decide_True by apply Hdec.
  cbn [bind].
  eexists. split; [reflexivity|].
  unfold set_count. cbn [count previousSamplesCount tripletList_array b_array].
  set (e := {| e_bracket := bracket_cur; e_previous := P;
               e_sampleId := sampleId; e_color := color |}).
  rewrite !measured_triplets_snoc, <- !(rhs_snoc Lb _ es e Hlt), Nat2N.id.
  f_equal.
  - rewrite length_app. cbn [length]. rewrite wrap64_small by lia. lia.
  - unfold entry_triplets. cbn [e_color e_previous e_sampleId e]. now rewrite <- !app_assoc.
Qed.

(* the loop over sampleId, lines 87 to 102 *)
Lemma sample_loop_measured Lb P bracket_cur (rest : list Rgb) :
  forall (i : nat) es,
    length es + length rest <= Lb -> (Z.of_nat Lb < 2 ^ 64)%Z ->
    (Z.of_nat (i + length rest) < 2 ^ 64)%Z ->
    sample_loop bracket_cur rest (N.of_nat i) (measured Lb es (N.of_nat P))
    = Ret (measured Lb (es ++ colors_entries bracket_cur P i rest) (N.of_nat P)).
Proof.
  induction rest as [|color rest IH]; intros i es Hle HLb Hi; cbn [sample_loop length] in *.
  - unfold colors_entries. cbn [imap]. now rewrite app_nil_r.
  - destruct (measure_row_measured Lb es (N.of_nat P) bracket_cur color (N.of_nat i))
      as (s1 & -> & Hs1); [lia|trivial|].
    cbn [bind]. rewrite Hs1.
    replace (wrap64 (Z.of_N (N.of_nat i) + 1)) with (N.of_nat (S i))
      by (rewrite wrap64_small; lia).
    rewrite IH; [|rewrite length_app; cbn [length]; lia|trivial|lia].
    rewrite <- app_assoc. unfold colors_entries. cbn [imap app].
    rewrite Nat.add_0_r. do 4 f_equal.
    apply imap_ext. intros j color' _. cbn. do 2 f_equal. lia.
Qed.

Lemma colors_entries_length bracket P i rest :
  length (colors_entries bracket P i rest) = length rest.
Proof. unfold colors_entries. apply length_imap. Qed.

Lemma bracket_entries_length P (brackets : list ImageSamples) :
  length (flat_map (bracket_entries P) brackets) = bracket_rows brackets.
Proof.
  unfold bracket_rows. induction brackets as [|bracket brackets IH]; [reflexivity|].
  cbn [flat_map sum_list_with]. rewrite length_app, IH.
  unfold bracket_entries. now rewrite colors_entries_length.
Qed.

Lemma measure_brackets_measured Lb P (brackets : list ImageSamples) :
  forall es,
    length es + bracket_rows brackets <= Lb -> (Z.of_nat Lb < 2 ^ 64)%Z ->
    foldM measure_bracket brackets (measured Lb es (N.of_nat P))
    = Ret (measured Lb (es ++ flat_map (bracket_entries P) brackets) (N.of_nat P)).
Proof.
  unfold bracket_rows.
  induction brackets as [|bracket brackets IH]; intros es Hle HLb;
    cbn [foldM flat_map sum_list_with] in *.
  - now rewrite app_nil_r.
  - unfold measure_bracket at 1.
    rewrite (sample_loop_measured Lb P bracket (colors bracket) 0) by (cbn [Nat.add]; lia).
    cbn [bind]. rewrite IH; [|rewrite length_app, colors_entries_length; lia|trivial].
    now rewrite <- app_assoc.
Qed.

Lemma sample_entries_length P (samples : list (list ImageSamples)) :
  length (sample_entries P samples) = measured_rows samples.
Proof.
  unfold measured_rows. revert P.
  induction samples as [|group samples IH]; intros P; [reflexivity|].
  cbn [sample_entries sum_list_with]. now rewrite length_app, IH, bracket_entries_length.
Qed.

Lemma set_previous_measured Lb es P n :
  set_previous n (measured Lb es P) = measured Lb es n.
Proof. reflexivity. Qed.

(* the loop over groupId, lines 79 to 106 *)
Lemma measure_groups_measured Lb (samples : list (list ImageSamples)) :
  forall P es,
    Forall (fun group => group <> [] /\ (Z.of_nat (length group) < 2 ^ 64)%Z) samples ->
    length es + measured_rows samples <= Lb -> (Z.of_nat Lb < 2 ^ 64)%Z ->
    (Z.of_nat (P + points samples) < 2 ^ 64)%Z ->
    measure_groups samples (measured Lb es (N.of_nat P))
    = Ret (measured Lb (es ++ sample_entries P samples) (N.of_nat (P + points samples))).
Proof.
  unfold measure_groups, measured_rows, points.
  induction samples as [|group samples IH]; intros P es Hreg Hle HLb HP;
    cbn [foldM sum_list_with sample_entries] in *.
  - now rewrite app_nil_r, Nat.add_0_r.
  - apply Forall_cons in Hreg as [[Hne Hlen] Hreg].
    unfold measure_group at 1.
    assert (Hb : bracket_bound group = Z.to_N (Z.of_N 0 + Z.of_nat (length group) - 1)).
    { unfold bracket_bound. rewrite wrap64_small; [f_equal; lia|].
      destruct group; [congruence|cbn [length] in *; lia]. }
    rewrite Hb, bracket_loop_all_but_last by (trivial; lia).
    rewrite measure_brackets_measured by (trivial; lia).
    cbn [bind]. rewrite set_previous_measured. cbn [measured previousSamplesCount].
    rewrite group_count_points.
    replace (wrap64 (Z.of_N (N.of_nat P) + Z.of_N (N.of_nat (group_points group))))
      with (N.of_nat (P + group_points group)) by (rewrite wrap64_small; lia).
    rewrite IH; trivial.
    + now rewrite <- app_assoc, Nat.add_assoc.
    + rewrite length_app, bracket_entries_length. lia.
    + lia.
Qed.


Lemma measured_lookup Lb es P channel :
  channel < channelsCount ->
  tripletList_array (measured Lb es P) !! channel = Some (measured_triplets channel es)
  /\ b_array (measured Lb es P) !! channel
     = Some (map (entry_rhs channel) es ++ replicate (Lb - length es) dzero).
Proof.
  intros Hc. unfold channelsCount in Hc.
  destruct channel as [|[|[|c]]]; [split; reflexivity..|lia].
Qed.

(** X11.  The system handed to the solver.  On regular samples, without
    overflow and with a curve of at least two positions whose middle position
    channelQuantization / 2 is in the range of int, the matrix A and the
    right-hand side b of every channel are those of Debevec's least-squares
    system: one row for every sample of every bracket but the last of each
    group, in the order of the groups, brackets and samples, with w at the
    curve position of the sample, - w at the column of its point
    (channelQuantization + the number of points of the groups before + the
    sample position) and w log(exposure) on the right; then the scale row,
    with 1 at column channelQuantization / 2, and the channelQuantization - 2
    smoothness rows, with zero on the right. *)
Theorem assembled_system (samples : list (list ImageSamples)) :
  Forall regular samples ->
  (Z.of_nat (measures samples) + Z.of_N channelQuantization + 1 < 2 ^ 64)%Z ->
  (2 <= channelQuantization)%N ->
  (Z.of_N (channelQuantization / 2) < 2 ^ 31)%Z ->
  exists s,
    assemble samples = Ret s
    /\ forall channel, channel < channelsCount ->
         system samples s channel
         = ({| rows := N.of_nat (measured_rows samples) + channelQuantization - 1;
               cols := channelQuantization + N.of_nat (points samples);
               entries := measured_triplets channel (sample_entries 0 samples)
                          ++ scale_triplet (N.of_nat (measured_rows samples))
                          :: smooth_rows (N.of_nat (measured_rows samples) + 1) channel
                                         (N.to_nat channelQuantization - 2) |},
            map (entry_rhs channel) (sample_entries 0 samples)
            ++ replicate (N.to_nat channelQuantization - 1) dzero).
Proof.
  intros Hreg Hfit Hcq Hmid.
  pose proof (measures_split samples Hreg) as Hsplit.
  set (Lb := measures samples + N.to_nat channelQuantization + 1).
  set (es := sample_entries 0 samples).
  assert (Hes : length es = measured_rows samples) by apply sample_entries_length.
  assert (Hs1 : measure_groups samples (init_buffers channelQuantization samples)
                = Ret (measured Lb es (N.of_nat (points samples)))).
  { rewrite init_measured, countMeasures_plain by lia.
    replace (N.to_nat (wrap64 (Z.of_N (N.of_nat (measures samples))
                               + Z.of_N channelQuantization + 1))) with Lb
      by (rewrite wrap64_small; subst Lb; lia).
    apply (measure_groups_measured Lb samples 0 []).
    - now apply regular_nonempty.
    - cbn [length]. subst Lb. lia.
    - subst Lb. lia.
    - cbn [Nat.add]. lia. }
  set (s1 := measured Lb es (N.of_nat (points samples))) in *.
  exists (smooth_loop (fix_scale s1)). split; [now apply assemble_eq|].
  intros channel Hchan.
  destruct (measured_lookup Lb es (N.of_nat (points samples)) channel Hchan) as [Ht Hb].
  fold s1 in Ht, Hb.
  destruct (regularisation_eq s1 channel eq_refl Hchan Hcq Hmid) as (_ & Hc & Htr).
  assert (Hcount : count (smooth_loop (fix_scale s1))
                   = (N.of_nat (measured_rows samples) + channelQuantization - 1)%N).
  { rewrite Hc. cbn [s1 measured count]. rewrite Hes, wrap64_small by lia. lia. }
  unfold system. f_equal.
  - fold (triplets (smooth_loop (fix_scale s1)) channel). rewrite Htr, Hcount.
    unfold triplets at 1. rewrite Ht. change (default [] (Some ?l)) with l.
    rewrite countPoints_plain, wrap64_small by lia.
    cbn [s1 measured count]. rewrite Hes.
    rewrite (wrap64_small (_ + 1)) by lia.
    f_equal; [lia|]. do 3 f_equal. lia.
  - rewrite b_array_regularisation, Hb, Hcount.
    change (default [] (Some ?l)) with l. unfold conservativeResize.
    rewrite take_app_ge by (rewrite length_map; lia).
    rewrite take_replicate, length_map, length_app, length_map, length_replicate.
    replace (N.to_nat (N.of_nat (measured_rows samples) + channelQuantization - 1)
             - (length es + (Lb - length es))) with 0 by (subst Lb; lia).
    cbn [replicate]. rewrite app_nil_r. do 2 f_equal. subst Lb. lia.
Qed.

End Assembly.

End Process.

End Debevec.

(** ** A concrete run of the calibration

    Numbers are integers, the weight curve is constant on samples and equal
    to the channel number on curve positions, and the stand-in solver rejects
    a system that holds a coefficient equal to -2, so that with lambda = 1 the
    system of channel 0 is accepted and the one of channel 1 is rejected. *)

Module DebevecExample.
Import Debevec.

Definition weight_at (w : rgbCurve Z) (sample : Z) (channel : nat) : Z := 1%Z.
Definition weight_getValue (w : rgbCurve Z) (k : N) (channel : nat) : Z := Z.of_nat channel.
Definition round_index (sample : Z) (n : N) : N := Z.to_N sample.
Definition qr_compute (A : sMat Z) : sMat Z := A.
Definition qr_info (A : sMat Z) : bool :=
  forallb (fun t => negb (value Z t =? -2)%Z) (entries Z A).
Definition qr_info_any (A : sMat Z) : bool := true.
Definition qr_solve (A : sMat Z) (b : Vec Z) : (N -> Z) * sMat Z :=
  (fun k => (5 + Z.of_N k)%Z, A).

Definition px (v : Z) : Rgb Z := {| chan0 := v; chan1 := v; chan2 := v |}.

(* one group of two brackets with one sample each *)
Definition bracket0 : ImageSamples Z := {| colors := [px 1]; exposure := 2%Z |}.
Definition bracket1 : ImageSamples Z := {| colors := [px 2]; exposure := 4%Z |}.
Definition group0 : list (ImageSamples Z) := [bracket0; bracket1].
Definition samples : list (list (ImageSamples Z)) := [group0].
Definition s0 : buffers Z := init_buffers Z Z 0%Z 3%N samples.

Definition run (info : sMat Z -> bool) (response : rgbCurve Z) :=
  process Z Z id id Z.mul Z.opp id 1%Z 2%Z 0%Z 0%Z 0%Z round_index weight_at weight_getValue
          (sMat Z) qr_compute info qr_solve 3%N [] 1%Z samples response.

Definition assembled :=
  assemble Z Z id Z.mul Z.opp id 1%Z 2%Z 0%Z round_index weight_at weight_getValue
           3%N [] 1%Z samples.

(* a group whose first bracket holds no sample and whose second holds five *)
Definition uneven : list (list (ImageSamples Z)) :=
  [[ {| colors := []; exposure := 1%Z |};
     {| colors := [px 1; px 1; px 1; px 1; px 1]; exposure := 2%Z |};
     bracket1 ]].

End DebevecExample.

Example DebevecExample_run_rejecting :
  DebevecExample.run DebevecExample.qr_info [[9; 9]; [9]]%Z
  = Ret (false, [[5; 6; 7]; [0; 0; 0]; [0; 0; 0]]%Z).
Proof. vm_compute. reflexivity. Qed.

Example DebevecExample_run_accepting :
  DebevecExample.run DebevecExample.qr_info_any []
  = Ret (true, [[5; 6; 7]; [5; 6; 7]; [5; 6; 7]]%Z).
Proof. vm_compute. reflexivity. Qed.

Example DebevecExample_rows :
  (fun s => (Debevec.count Z s, Debevec.tripletList_array Z s !! 0))
    <$> match DebevecExample.assembled with Ret s => Some s | _ => None end
  = Some (3%N,
          Some [ {| Debevec.row := 0; Debevec.col := 1; Debevec.value := 1 |};
                 {| Debevec.row := 0; Debevec.col := 3; Debevec.value := -1 |};
                 {| Debevec.row := 1; Debevec.col := 1; Debevec.value := 1 |};
                 {| Debevec.row := 2; Debevec.col := 0; Debevec.value := 0 |};
                 {| Debevec.row := 2; Debevec.col := 1; Debevec.value := 0 |};
                 {| Debevec.row := 2; Debevec.col := 2; Debevec.value := 0 |} ]%Z).
Proof. vm_compute. reflexivity. Qed.

(** The hypothesis of C8 holds on the concrete run: its system is assembled,
    the solver rejects channel 1, and [process] returns [false]. *)
Lemma process_false_iff_solver_fails_witness :
  exists s, DebevecExample.assembled = Ret s
            /\ exists resp, DebevecExample.run DebevecExample.qr_info [] = Ret (false, resp).
Proof.
  eexists. split; [vm_compute; reflexivity|].
  lazymatch goal with
  | |- context [DebevecExample.run _ ?r] =>
      destruct (Debevec.process_false_iff_solver_fails
                  Z Z id id Z.mul Z.opp id 1%Z 2%Z 0%Z 0%Z 0%Z
                  DebevecExample.round_index DebevecExample.weight_at
                  DebevecExample.weight_getValue (Debevec.sMat Z)
                  DebevecExample.qr_compute DebevecExample.qr_info DebevecExample.qr_solve
                  3%N [] 1%Z DebevecExample.samples r _ eq_refl)
        as (ok & resp & Hrun & Hfalse & _)
  end.
  exists resp. unfold DebevecExample.run. rewrite Hrun.
  replace ok with false; [reflexivity|]. symmetry. apply Hfalse.
  exists 1. split; [unfold Debevec.channelsCount; lia|]. left. vm_compute. reflexivity.
Defined.

(** C9 on the concrete run: whatever the caller passed in, the run leaves the
    same curve; the solver rejects channel 1, the run returns [false] and a
    failing channel is found (the curve left is the one of
    [DebevecExample_run_rejecting], with the solution of channel 0 in it). *)
Lemma process_overwrites_response_witness :
  DebevecExample.run DebevecExample.qr_info [[9; 9]; [9]]%Z
  = DebevecExample.run DebevecExample.qr_info []
  /\ exists failing, failing < Debevec.channelsCount.
Proof.
  pose proof (Debevec.process_overwrites_response
                Z Z id id Z.mul Z.opp id 1%Z 2%Z 0%Z 0%Z 0%Z
                DebevecExample.round_index DebevecExample.weight_at
                DebevecExample.weight_getValue (Debevec.sMat Z)
                DebevecExample.qr_compute DebevecExample.qr_info DebevecExample.qr_solve
                3%N [] 1%Z DebevecExample.samples []) as [Hsame Hfalse].
  split; [apply Hsame|].
  edestruct Hfalse as (failing & Hlt & _); [vm_compute; reflexivity..|].
  exists failing. exact Hlt.
Defined.

(** C10 on the group of the concrete run: two brackets, bound 1, and the loop
    is the loop over the first bracket alone. *)
Lemma bracket_loop_skips_last_bracket_witness :
  Debevec.bracket_bound Z DebevecExample.group0 = 1%N
  /\ Debevec.bracket_loop Z Z id Z.mul Z.opp id DebevecExample.round_index
        DebevecExample.weight_at 3%N [] DebevecExample.group0 0%N
        (Debevec.bracket_bound Z DebevecExample.group0) DebevecExample.s0
     = foldM (Debevec.measure_bracket Z Z id Z.mul Z.opp id DebevecExample.round_index
                DebevecExample.weight_at 3%N [])
             [DebevecExample.bracket0] DebevecExample.s0.
Proof.
  exact (Debevec.bracket_loop_skips_last_bracket
           Z Z id Z.mul Z.opp id DebevecExample.round_index DebevecExample.weight_at
           3%N [] DebevecExample.group0 DebevecExample.s0 eq_refl).
Defined.

(** ** The assembled system on the concrete run *)

Lemma DebevecExample_regular : Forall (Debevec.regular Z) DebevecExample.samples.
Proof.
  constructor; [|constructor]. split; [discriminate|]. split; [cbn; lia|].
  repeat constructor.
Qed.

Lemma DebevecExample_rounded :
  Forall (Forall (Debevec.rounded Z DebevecExample.round_index 3 (fun j => (j < 3)%N)))
         DebevecExample.samples.
Proof.
  repeat constructor; intros [|[|c]]; cbn; lia.
Qed.

(** With brackets that hold more samples than the first one of their group,
    the fifth row is written past the four coefficients allocated. *)
Example DebevecExample_uneven :
  Debevec.assemble Z Z id Z.mul Z.opp id 1%Z 2%Z 0%Z DebevecExample.round_index
    DebevecExample.weight_at DebevecExample.weight_getValue 3%N [] 1%Z DebevecExample.uneven
  = Undefined.
Proof. vm_compute. reflexivity. Qed.

(** X1 on the concrete run: one measurement row, the scale row and one
    smoothness row; 2 + 1 + 3 triplets in channel 0. *)
Lemma assemble_counts_witness :
  exists s, DebevecExample.assembled = Ret s
            /\ Debevec.count Z s = 3%N
            /\ Debevec.previousSamplesCount Z s = 1%N
            /\ length (Debevec.triplets Z s 0) = 6.
Proof.
  destruct (Debevec.assemble_counts Z Z id Z.mul Z.opp id 1%Z 2%Z 0%Z
              DebevecExample.round_index DebevecExample.weight_at
              DebevecExample.weight_getValue 3%N [] 1%Z DebevecExample.samples
              DebevecExample_regular) as (s & Hs & Hc & Hp & Ht); [vm_compute; reflexivity|lia|].
  exists s. split; [exact Hs|]. split; [exact Hc|]. split; [exact Hp|].
  apply (Ht 0). unfold Debevec.channelsCount. lia.
Defined.

(** X2 on the concrete run: three rows, one point, and right-hand sides of
    3 + 1 + 2 coefficients, cut to the first three. *)
Lemma right_hand_side_is_cut_witness :
  exists s b, DebevecExample.assembled = Ret s
              /\ Debevec.b_array Z s !! 1 = Some b
              /\ length b = 6
              /\ snd (Debevec.system Z Z 0%Z 3%N DebevecExample.samples s 1) = take 3 b.
Proof.
  destruct (Debevec.right_hand_side_is_cut Z Z id Z.mul Z.opp id 1%Z 2%Z 0%Z 0%Z
              DebevecExample.round_index DebevecExample.weight_at
              DebevecExample.weight_getValue 3%N [] 1%Z DebevecExample.samples
              DebevecExample_regular) as (s & Hs & Hb); [vm_compute; reflexivity|lia|].
  destruct (Hb 1) as (b & Hlook & Hlen & Hcut & _); [unfold Debevec.channelsCount; lia|].
  assert (Hc : Debevec.count Z s = 3%N).
  { assert (H : Ret s = DebevecExample.assembled) by (symmetry; exact Hs).
    vm_compute in H. injection H as ->. reflexivity. }
  rewrite Hc in *. exists s, b. repeat split; trivial.
Defined.

(** X3 on the concrete run: the samples 1 and 2 round to positions of a
    curve of 3 positions; every triplet lies in the 3 by 4 matrix. *)
Lemma triplets_inside_matrix_witness :
  exists s, DebevecExample.assembled = Ret s
            /\ Forall (fun t => (0 <= Debevec.row Z t < 3)%Z /\ (0 <= Debevec.col Z t < 4)%Z)
                      (Debevec.triplets Z s 0).
Proof.
  destruct (Debevec.triplets_inside_matrix Z Z id Z.mul Z.opp id 1%Z 2%Z 0%Z 0%Z
              DebevecExample.round_index DebevecExample.weight_at
              DebevecExample.weight_getValue 3%N [] 1%Z DebevecExample.samples
              DebevecExample_regular DebevecExample_rounded)
    as (s & Hs & Hin); [lia|vm_compute; reflexivity|vm_compute; reflexivity|].
  exists s. split; [exact Hs|]. apply Forall_forall. intros t Ht.
  assert (Hc : Debevec.count Z s = 3%N).
  { assert (H : Ret s = DebevecExample.assembled) by (symmetry; exact Hs).
    vm_compute in H. injection H as ->. reflexivity. }
  specialize (Hin 0 t Ht). unfold Debevec.system in Hin.
  cbn [fst Debevec.rows Debevec.cols] in Hin. rewrite Hc in Hin. exact Hin.
Defined.

(** X4 on the concrete run: it returns, and its only group has brackets. *)
Lemma process_returns_nonempty_witness :
  Forall (fun group => group <> []) DebevecExample.samples.
Proof.
  eapply (Debevec.process_returns_nonempty Z Z id id Z.mul Z.opp id 1%Z 2%Z 0%Z 0%Z 0%Z
            DebevecExample.round_index DebevecExample.weight_at
            DebevecExample.weight_getValue (Debevec.sMat Z)
            DebevecExample.qr_compute DebevecExample.qr_info DebevecExample.qr_solve
            3%N [] 1%Z DebevecExample.samples []).
  vm_compute. reflexivity.
Defined.

(** X5 on the initial buffers of the concrete run, channel 1: the scale
    row is row 0 and the only smoothness row is row 1, with weight 1. *)
Lemma regularisation_rows_witness :
  exists s',
    Debevec.smoothness Z Z id Z.mul Z.opp 2%Z DebevecExample.weight_getValue 3%N [] 1%Z
      (Debevec.fix_scale Z Z id 1%Z 3%N DebevecExample.s0) = Ret s'
    /\ Debevec.count Z s' = 2%N
    /\ Debevec.triplets Z s' 1
       = [ {| Debevec.row := 0; Debevec.col := 1; Debevec.value := 1 |};
           {| Debevec.row := 1; Debevec.col := 0; Debevec.value := 1 |};
           {| Debevec.row := 1; Debevec.col := 1; Debevec.value := -2 |};
           {| Debevec.row := 1; Debevec.col := 2; Debevec.value := 1 |} ]%Z.
Proof.
  destruct (Debevec.regularisation_rows Z Z id Z.mul Z.opp 1%Z 2%Z
              DebevecExample.weight_getValue 3%N [] 1%Z DebevecExample.s0 1)
    as (s' & Hs & Hc & _ & Ht);
    [reflexivity|unfold Debevec.channelsCount; lia|lia|vm_compute; reflexivity|].
  exists s'. split; [exact Hs|]. split; [rewrite Hc; vm_compute; reflexivity|].
  rewrite Ht. vm_compute. reflexivity.
Defined.

(** X7 on the concrete run: one row written, six coefficients allocated. *)
Lemma assemble_within_allocation_witness :
  Debevec.measured_rows Z DebevecExample.samples
  <= Debevec.measures Z DebevecExample.samples + 3 + 1.
Proof.
  eapply (Debevec.assemble_within_allocation Z Z id Z.mul Z.opp id 1%Z 2%Z 0%Z
            DebevecExample.round_index DebevecExample.weight_at
            DebevecExample.weight_getValue 3%N [] 1%Z DebevecExample.samples).
  - vm_compute. reflexivity.
  - repeat constructor.
  - vm_compute. reflexivity.
Defined.

(** X11 on the concrete run, channel 1: a 3 by 4 system; the measurement
    row of the sample 1 of the first bracket, with log-exposure 2 on the
    right, then the scale row and one smoothness row. *)
Lemma assembled_system_witness :
  exists s, DebevecExample.assembled = Ret s
            /\ Debevec.system Z Z 0%Z 3%N DebevecExample.samples s 1
               = ({| Debevec.rows := 3; Debevec.cols := 4;
                     Debevec.entries :=
                       [ {| Debevec.row := 0; Debevec.col := 1; Debevec.value := 1 |};
                         {| Debevec.row := 0; Debevec.col := 3; Debevec.value := -1 |};
                         {| Debevec.row := 1; Debevec.col := 1; Debevec.value := 1 |};
                         {| Debevec.row := 2; Debevec.col := 0; Debevec.value := 1 |};
                         {| Debevec.row := 2; Debevec.col := 1; Debevec.value := -2 |};
                         {| Debevec.row := 2; Debevec.col := 2; Debevec.value := 1 |} ]%Z |},
                  [2; 0; 0]%Z).
Proof.
  destruct (Debevec.assembled_system Z Z id Z.mul Z.opp id 1%Z 2%Z 0%Z 0%Z
              DebevecExample.round_index DebevecExample.weight_at
              DebevecExample.weight_getValue 3%N [] 1%Z DebevecExample.samples
              DebevecExample_regular) as (s & Hs & Hsys);
    [vm_compute; reflexivity|lia|vm_compute; reflexivity|].
  exists s. split; [exact Hs|]. rewrite (Hsys 1) by (unfold Debevec.channelsCount; lia).
  vm_compute. reflexivity.
Defined.

(** * KDTree.h: namespace popsift::kdtree *)

Module kdtree.

(** [unsigned] is 32 bits wide. *)
Definition to_unsigned (z : Z) : Z := (z mod 2 ^ 32)%Z.

Definition unsigned_of_nat (n : nat) : nat := Z.to_nat (to_unsigned (Z.of_nat n)).

Definition UINT_MAX : Z := (2 ^ 32 - 1)%Z.

(** struct U8Descriptor: 128 unsigned bytes. *)
Record U8Descriptor := { ufeatures : list Z }.

Definition is_descriptor (d : U8Descriptor) : Prop :=
  length (ufeatures d) = 128 /\ Forall (fun x => 0 <= x < 256)%Z (ufeatures d).

Definition is_descriptorb (d : U8Descriptor) : bool :=
  (length (ufeatures d) =? 128) && forallb (fun x => (0 <=? x)%Z && (x <? 256)%Z) (ufeatures d).

Definition feature (d : U8Descriptor) (dim : nat) : Z := default 0%Z (ufeatures d !! dim).

(** struct BoundingBox *)
Record BoundingBox := { min : U8Descriptor; max : U8Descriptor }.

(** struct DescriptorAssociation *)
Record DescriptorAssociation := {
  global_index : nat;      (* index in the global kdtree DB *)
  image_index : nat;       (* image it belongs to *)
  local_index : nat        (* index within image *)
}.

(** struct KDTree::Node: the [leaf] bit tells which member of the union is
    in use, [dv] for an internal node and [end] for a leaf; [index] is the
    right link of an internal node and the begin list index of a leaf. *)
Inductive Node : Type :=
  | Internal (right : nat) (dv0 dv1 : nat)
  | Leaf (begin : nat) (end_ : nat).

Definition index (nd : Node) : nat :=
  match nd with Internal r _ _ => r | Leaf b _ => b end.

Definition leaf (nd : Node) : bool :=
  match nd with Internal _ _ _ => false | Leaf _ _ => true end.

(* dim(), val() and end are read on the member in use only: the accessors
   below assert the leaf bit first *)
Definition dim (nd : Node) : nat :=
  match nd with Internal _ d _ => d | Leaf _ _ => 0 end.

Definition val (nd : Node) : nat :=
  match nd with Internal _ _ v => v | Leaf _ _ => 0 end.

Definition end_of (nd : Node) : nat :=
  match nd with Internal _ _ _ => 0 | Leaf _ e => e end.

(** The widths of the members: [index] is a bit-field of 31 bits, [end] an
    unsigned of 32 bits and dv[0], dv[1] unsigned chars.  A node is made by
    assigning to its members, and a value assigned to a member is reduced
    modulo the range of the member: [store_node] is the node that holds
    after the assignments. *)
Definition to_index (n : nat) : nat := Z.to_nat (Z.of_nat n mod 2 ^ 31).

Definition to_uchar (n : nat) : nat := Z.to_nat (Z.of_nat n mod 2 ^ 8).

Definition store_node (nd : Node) : Node :=
  match nd with
  | Internal r d v => Internal (to_index r) (to_uchar d) (to_uchar v)
  | Leaf b e => Leaf (to_index b) (unsigned_of_nat e)
  end.

(* what a stored node satisfies *)
Definition node_fits (nd : Node) : Prop :=
  match nd with
  | Internal r d v => (Z.of_nat r < 2 ^ 31)%Z /\ d < 256 /\ v < 256
  | Leaf b e => (Z.of_nat b < 2 ^ 31)%Z /\ (Z.of_nat e < 2 ^ 32)%Z
  end.

(** class KDTree: the data members.  The random distribution
    [_split_dim_gen] belongs to the split rule, a parameter of the builder
    below. *)
Record KDTree := {
  _descriptors : list U8Descriptor;        (* Descriptor data *)
  _dcount : nat;                           (* Count of descriptors *)
  _bb : list BoundingBox;                  (* BBs of all nodes *)
  _nodes : list Node;                      (* Link nodes *)
  _list : list DescriptorAssociation;      (* Elements in leaf nodes *)
  _leaf_size : nat
}.

(** ** The accessors of class KDTree *)

(* std::vector::at *)
Definition at_ {A} (v : list A) (n : nat) : outcome A :=
  match v !! n with
  | Some x => Ret x
  | None => Throw VectorAt
  end.

(* POPSIFT_KDASSERT(x): the condition is evaluated, which may throw, and
   assert_fail throws when it is false *)
Definition POPSIFT_KDASSERT (x : outcome bool) : outcome unit :=
  do b <- x;
  if b then Ret tt else Throw KDAssertion.

Definition Root (t : KDTree) : nat := 0.

Definition NodeCount (t : KDTree) : nat := unsigned_of_nat (length (_nodes t)).

Definition IsLeaf (t : KDTree) (n : nat) : outcome bool :=
  do nd <- at_ (_nodes t) n;
  Ret (leaf nd).

Definition is_internal (t : KDTree) (n : nat) : outcome bool :=
  do nd <- at_ (_nodes t) n;
  Ret (negb (leaf nd)).

Definition Left (t : KDTree) (n : nat) : outcome nat :=
  do _ <- POPSIFT_KDASSERT (is_internal t n);
  Ret (unsigned_of_nat (n + 1)).

Definition Right (t : KDTree) (n : nat) : outcome nat :=
  do _ <- POPSIFT_KDASSERT (is_internal t n);
  do nd <- at_ (_nodes t) n;
  Ret (index nd).

Definition Dim (t : KDTree) (n : nat) : outcome nat :=
  do _ <- POPSIFT_KDASSERT (is_internal t n);
  do nd <- at_ (_nodes t) n;
  Ret (dim nd).

Definition Val (t : KDTree) (n : nat) : outcome nat :=
  do _ <- POPSIFT_KDASSERT (is_internal t n);
  do nd <- at_ (_nodes t) n;
  Ret (val nd).

Definition BB (t : KDTree) (n : nat) : outcome BoundingBox := at_ (_bb t) n.

(* List(n): the pair of pointers is given by the two positions in _list *)
Definition List (t : KDTree) (n : nat) : outcome (nat * nat) :=
  do _ <- POPSIFT_KDASSERT
            (do nd <- at_ (_nodes t) n;
             if leaf nd
             then do nd' <- at_ (_nodes t) n;
                  Ret (bool_decide (end_of nd' <= length (_list t)))
             else Ret false);
  do nd <- at_ (_nodes t) n;
  do nd' <- at_ (_nodes t) n;
  Ret (index nd, end_of nd').

Definition Descriptors (t : KDTree) : list U8Descriptor := _descriptors t.

Definition DescriptorCount (t : KDTree) : nat := _dcount t.

(** ** The metric module

    KDTree.h declares L1Distance, L2DistanceSquared and Union and does not
    define them: their bodies follow section 4.1 of the spec, and their
    result type [unsigned] the declarations. *)

Fixpoint sum2 (f : Z -> Z -> Z) (a b : list Z) : Z :=
  match a, b with
  | x :: a', y :: b' => (f x y + sum2 f a' b')%Z
  | _, _ => 0%Z
  end.

Fixpoint sum3 (f : Z -> Z -> Z -> Z) (a lo hi : list Z) : Z :=
  match a, lo, hi with
  | x :: a', l :: lo', h :: hi' => (f x l h + sum3 f a' lo' hi')%Z
  | _, _, _ => 0%Z
  end.

Definition clamp (x lo hi : Z) : Z :=
  if (x <? lo)%Z then lo else if (hi <? x)%Z then hi else x.

(** Modelled from the spec: the body of L1Distance(descriptor, descriptor),
    "sum of absolute byte-wise differences over all 128 dimensions". *)
Definition L1Distance (a b : U8Descriptor) : Z :=
  to_unsigned (sum2 (fun x y => Z.abs (x - y)) (ufeatures a) (ufeatures b)).

(** Modelled from the spec: the body of L2DistanceSquared(descriptor,
    descriptor), "sum of squared byte-wise differences". *)
Definition L2DistanceSquared (a b : U8Descriptor) : Z :=
  to_unsigned (sum2 (fun x y => (x - y) * (x - y))%Z (ufeatures a) (ufeatures b)).

(** Modelled from the spec: the body of L1Distance(descriptor, box), "for
    each dimension, clamp the descriptor's value into [box.min, box.max]
    before differencing". *)
Definition L1Distance_box (d : U8Descriptor) (B : BoundingBox) : Z :=
  to_unsigned (sum3 (fun x lo hi => Z.abs (x - clamp x lo hi))
                    (ufeatures d) (ufeatures (min B)) (ufeatures (max B))).

(** Modelled from the spec: the body of L2DistanceSquared(descriptor, box),
    with the same clamping. *)
Definition L2DistanceSquared_box (d : U8Descriptor) (B : BoundingBox) : Z :=
  to_unsigned (sum3 (fun x lo hi => (x - clamp x lo hi) * (x - clamp x lo hi))%Z
                    (ufeatures d) (ufeatures (min B)) (ufeatures (max B))).

(* the descriptor with each component clamped into the box *)
Fixpoint clamp_list (a lo hi : list Z) : list Z :=
  match a, lo, hi with
  | x :: a', l :: lo', h :: hi' => clamp x l h :: clamp_list a' lo' hi'
  | _, _, _ => []
  end.

Definition clamp_into (d : U8Descriptor) (B : BoundingBox) : U8Descriptor :=
  {| ufeatures := clamp_list (ufeatures d) (ufeatures (min B)) (ufeatures (max B)) |}.

(** Modelled from the spec: the body of Union, "component-wise min/max
    merge of two boxes". *)
Definition Union (a b : BoundingBox) : BoundingBox :=
  {| min := {| ufeatures := zip_with Z.min (ufeatures (min a)) (ufeatures (min b)) |};
     max := {| ufeatures := zip_with Z.max (ufeatures (max a)) (ufeatures (max b)) |} |}.

(** Component-wise containment of a descriptor, and of a box, in a box. *)
Definition inside (d : U8Descriptor) (B : BoundingBox) : Prop :=
  Forall2 Z.le (ufeatures (min B)) (ufeatures d)
  /\ Forall2 Z.le (ufeatures d) (ufeatures (max B)).

Definition contains (B B' : BoundingBox) : Prop :=
  Forall2 Z.le (ufeatures (min B)) (ufeatures (min B'))
  /\ Forall2 Z.le (ufeatures (max B')) (ufeatures (max B)).

(** ** The single-tree builder

    KDTree.h declares KDTree::Build, the private Build and Partition and
    GetBoundingBox and does not define them: their bodies follow section 4.2
    of the spec, steps 1 to 7.  The spec leaves two things open, and each is
    a parameter here.  The spread metric and the split value are open and the
    split dimension is drawn at random: [choose_split] is the rule that picks
    the dimension and the value of a node, given the index of the node and
    its range.  For a range that the chosen cut does not divide the spec
    allows to "fall back to an arbitrary split point or immediately mark as
    leaf regardless of size": [degenerate] is that decision, [Some m] for a
    split point taken from [m] and [None] for a leaf. *)

Section Builder.

Variable descriptors : list U8Descriptor.
Variable leaf_size : nat.
Variable choose_split : nat -> list DescriptorAssociation -> nat * nat.
Variable degenerate : nat -> list DescriptorAssociation -> option nat.

Definition descriptor_of (a : DescriptorAssociation) : U8Descriptor :=
  default {| ufeatures := [] |} (descriptors !! global_index a).

Definition empty_box : BoundingBox :=
  {| min := {| ufeatures := replicate 128 255%Z |};
     max := {| ufeatures := replicate 128 0%Z |} |}.

Definition point_box (d : U8Descriptor) : BoundingBox := {| min := d; max := d |}.

(** Modelled from the spec: the body of GetBoundingBox, step 2, "accumulate
    min/max while scanning" the range. *)
Definition GetBoundingBox (range : list DescriptorAssociation) : BoundingBox :=
  fold_left (fun acc a => Union acc (point_box (descriptor_of a))) range empty_box.

(** Modelled from the spec: the body of Partition, step 5, "all entries with
    value <= split-value on the chosen dimension precede all entries with
    value > split-value"; the boundary is the length of the first part. *)
Definition Partition (d v : nat) (range : list DescriptorAssociation)
  : list DescriptorAssociation * list DescriptorAssociation :=
  (filter (fun a => (feature (descriptor_of a) d <= Z.of_nat v)%Z) range,
   filter (fun a => ~ (feature (descriptor_of a) d <= Z.of_nat v)%Z) range).

(** Modelled from the spec: steps 3 to 5 with the fall back of the failure
    conditions.  The split dimension is one of the 128 dimensions and the
    split value a byte ("split-dimension (0-127) and split-value (0-255)").
    When the chosen cut leaves one side empty, the range is either cut at a
    position inside it, both parts non-empty ("fall back to an arbitrary
    split point"), or not cut at all: [None] ("immediately mark as leaf
    regardless of size"). *)
Definition split_range (node_index : nat) (range : list DescriptorAssociation)
  : option (nat * nat * list DescriptorAssociation * list DescriptorAssociation) :=
  let '(d0, v0) := choose_split node_index range in
  let d := d0 mod 128 in
  let v := v0 mod 256 in
  match Partition d v range with
  | ([], _) | (_, []) =>
      match degenerate node_index range with
      | Some m =>
          let k := 1 + m mod (length range - 1) in
          Some (d, v, take k range, drop k range)
      | None => None
      end
  | (lo, hi) => Some (d, v, lo, hi)
  end.

(** Modelled from the spec: the body of Build(node_index, lelem, relem),
    steps 1, 6 and 7, on the range [range] that the list holds at positions
    lelem to relem.  The result is the nodes and boxes of the subtree in the
    order of their indices, the first at [node_index], and the range as
    reordered.  The nodes are stored in the members of struct Node, of the
    widths above.  [fuel] bounds the depth of the recursion. *)
Fixpoint Build_range (fuel : nat) (node_index lelem : nat) (range : list DescriptorAssociation)
  : option (list Node * list BoundingBox * list DescriptorAssociation) :=
  match fuel with
  | 0 => None
  | S fuel' =>
      let as_leaf :=
        Some ([store_node (Leaf lelem (lelem + length range))], [GetBoundingBox range], range) in
      if decide (length range <= leaf_size) then as_leaf
      else
        match split_range node_index range with
        | None => as_leaf
        | Some (d, v, lo, hi) =>
            match Build_range fuel' (node_index + 1) lelem lo with
            | None => None
            | Some (nl, bl, lo') =>
                let right := node_index + 1 + length nl in
                match Build_range fuel' right (lelem + length lo) hi with
                | None => None
                | Some (nr, br, hi') =>
                    Some (store_node (Internal right d v) :: nl ++ nr,
                          Union (default empty_box (head bl)) (default empty_box (head br))
                            :: bl ++ br,
                          lo' ++ hi')
                end
            end
        end
  end.

(** Modelled from the spec: the body of the constructor, which fills the
    association list in the order of the store; the local index is the
    "index within image". *)
Definition initial_list (image_indexes : list nat) (dcount : nat) : list DescriptorAssociation :=
  map (fun i =>
         let img := default 0 (image_indexes !! i) in
         {| global_index := i;
            image_index := img;
            local_index := length (filter (fun j => j = img) (take i image_indexes)) |})
      (seq 0 dcount).

(** Modelled from the spec: the body of KDTree::Build, which "fails (returns
    null / error) if descriptor_count == 0 or leaf_size == 0"; [None] is the
    null pointer. *)
Definition KDTree_Build (image_indexes : list nat) (dcount : nat) : option KDTree :=
  if decide (dcount = 0 \/ leaf_size = 0) then None
  else
    match Build_range dcount 0 0 (initial_list image_indexes dcount) with
    | None => None
    | Some (nodes, bbs, lst) =>
        Some {| _descriptors := descriptors;
                _dcount := dcount;
                _bb := bbs;
                _nodes := nodes;
                _list := lst;
                _leaf_size := leaf_size |}
    end.

End Builder.

(** Modelled from the spec: the body of the free function Build, section
    4.3, which builds [tree_count] trees, each with split decisions of its
    own. *)
Definition Build (descriptors : list U8Descriptor) (image_indexes : list nat)
           (descriptor_count tree_count leaf_size : nat)
           (choose_split : nat -> nat -> list DescriptorAssociation -> nat * nat)
           (degenerate : nat -> nat -> list DescriptorAssociation -> option nat)
  : option (list KDTree) :=
  mapM (fun tree => KDTree_Build descriptors leaf_size (choose_split tree) (degenerate tree)
                      image_indexes descriptor_count)
       (seq 0 tree_count).

(** ** The query engine

    KDTree.h declares Query2NN and does not define it: its body follows
    section 4.4 of the spec. *)

(** Modelled from the spec: the state of a query, "a best and second-best
    candidate (distance, association), initialized to no match / maximal
    distance". *)

Record Accumulator := {
  distance0 : Z;
  best : option DescriptorAssociation;
  distance1 : Z;
  second : option DescriptorAssociation
}.

Definition no_match : Accumulator :=
  {| distance0 := UINT_MAX; best := None; distance1 := UINT_MAX; second := None |}.

(* the association held as a neighbour is the one of the descriptor of [a] *)
Definition same_descriptor (o : option DescriptorAssociation) (a : DescriptorAssociation) : bool :=
  match o with
  | Some b => global_index b =? global_index a
  | None => false
  end.

(** Modelled from the spec: the update at a member of a leaf, "strict-less
    comparison; first-found wins exact ties".  The trees of a forest index
    the same descriptors ("the same global descriptor may appear in multiple
    trees of a forest"), and the two neighbours are two descriptors: a
    descriptor that is held as a neighbour already is not entered again. *)
Definition Update (acc : Accumulator) (d : Z) (a : DescriptorAssociation) : Accumulator :=
  if same_descriptor (best acc) a || same_descriptor (second acc) a then acc
  else if (d <? distance0 acc)%Z then
    {| distance0 := d; best := Some a; distance1 := distance0 acc; second := best acc |}
  else if (d <? distance1 acc)%Z then
    {| distance0 := distance0 acc; best := best acc; distance1 := d; second := Some a |}
  else acc.

(* a pending subtree *)
Record Pending := { bound : Z; tree : nat; node : nat }.

(** Modelled from the spec: "pop the lowest-lower-bound pending subtree
    (across all trees, globally)"; among equal bounds the first of the list
    is taken. *)
Fixpoint pop_min (pq : list Pending) : option (Pending * list Pending) :=
  match pq with
  | [] => None
  | e :: pq' =>
      match pop_min pq' with
      | None => Some (e, [])
      | Some (m, rest) =>
          if (bound m <? bound e)%Z then Some (m, e :: rest) else Some (e, pq')
      end
  end.

Section Query.

Variable trees : list KDTree.
Variable q : U8Descriptor.

(** Modelled from the spec: "at each leaf, scan its association range,
    compute true L2DistanceSquared against the query for every member, and
    update".  The reads go through raw pointers: past the end is undefined. *)
Definition scan_entry (t : KDTree) (acc : Accumulator) (i : nat) : outcome Accumulator :=
  match _list t !! i with
  | None => Undefined
  | Some a =>
      match Descriptors t !! global_index a with
      | None => Undefined
      | Some d => Ret (Update acc (L2DistanceSquared q d) a)
      end
  end.

Definition scan_leaf (t : KDTree) (n : nat) (acc : Accumulator) : outcome Accumulator :=
  do (b, e) <- List t n;
  foldM (scan_entry t) (seq b (e - b)) acc.

(** Modelled from the spec: the descent, "at an internal node, compare the
    query's value on the node's split dimension against the split value;
    visit the matching child first, push the sibling subtree onto a priority
    structure keyed by its bounding-box lower-bound distance", "until a leaf
    is reached".  [fuel] bounds the length of the path. *)
Fixpoint descend (fuel : nat) (ti : nat) (t : KDTree) (n : nat)
         (pq : list Pending) (acc : Accumulator) : outcome (list Pending * Accumulator) :=
  match fuel with
  | 0 => OutOfFuel
  | S fuel' =>
      do lf <- IsLeaf t n;
      if lf : bool then
        do acc' <- scan_leaf t n acc;
        Ret (pq, acc')
      else
        do d <- Dim t n;
        do v <- Val t n;
        do l <- Left t n;
        do r <- Right t n;
        let '(near, far) := if (feature q d <=? Z.of_nat v)%Z then (l, r) else (r, l) in
        do box <- BB t far;
        descend fuel' ti t near
                ({| bound := L2DistanceSquared_box q box; tree := ti; node := far |} :: pq) acc
  end.

(* a path from a node to a leaf passes through less than NodeCount nodes *)
Definition descend_tree (ti : nat) (t : KDTree) (n : nat)
           (pq : list Pending) (acc : Accumulator) : outcome (list Pending * Accumulator) :=
  descend (length (_nodes t)) ti t n pq acc.

(** Modelled from the spec: "for each tree in the forest, descend from the
    root", as long as the budget lasts. *)
Fixpoint visit_roots (budget : nat) (ti : nat) (ts : list KDTree)
         (pq : list Pending) (acc : Accumulator) {struct ts}
  : outcome (nat * list Pending * Accumulator) :=
  match ts with
  | [] => Ret (budget, pq, acc)
  | t :: ts' =>
      match budget with
      | 0 => Ret (0, pq, acc)
      | S budget' =>
          do (pq', acc') <- descend_tree ti t (Root t) pq acc;
          visit_roots budget' (S ti) ts' pq' acc'
      end
  end.

(** Modelled from the spec: "repeatedly pop the lowest-lower-bound pending
    subtree and descend it the same way", and "stop the whole search for
    that query once the global leaf-visit count reaches max_candidates, or
    no pending subtree remains". *)
Fixpoint best_first (budget : nat) (pq : list Pending) (acc : Accumulator) : outcome Accumulator :=
  match budget with
  | 0 => Ret acc
  | S budget' =>
      match pop_min pq with
      | None => Ret acc
      | Some (e, pq') =>
          match trees !! tree e with
          | None => Undefined
          | Some t =>
              do (pq'', acc') <- descend_tree (tree e) t (node e) pq' acc;
              best_first budget' pq'' acc'
          end
      end
  end.

Definition query (max_candidates : nat) : outcome Accumulator :=
  do (budget, pq, acc) <- visit_roots max_candidates 0 trees [] no_match;
  best_first budget pq acc.

End Query.

(* QueryResult: the index of the query and its two neighbours; [None] is the
   sentinel "no match" association *)
Definition QueryResult : Type :=
  list (nat * option DescriptorAssociation * option DescriptorAssociation).

(** Modelled from the spec: the body of Query2NN, "for each query
    descriptor, independently". *)
Definition Query2NN (trees : list KDTree) (max_candidates : nat)
           (queries : list U8Descriptor) (query_count : nat) : outcome QueryResult :=
  foldM (fun (res : QueryResult) i =>
           match queries !! i with
           | None => Undefined
           | Some q =>
               do acc <- query trees q max_candidates;
               Ret (res ++ [(i, best acc, second acc)])
           end)
        (seq 0 query_count) [].

(** The linear scan over the store that the queries are compared to: the
    same update, over the associations in the order of the store. *)
Definition linear_scan (descriptors : list U8Descriptor) (image_indexes : list nat)
           (dcount : nat) (q : U8Descriptor) : Accumulator :=
  fold_left (fun acc a => Update acc (L2DistanceSquared q (descriptor_of descriptors a)) a)
            (initial_list image_indexes dcount) no_match.

(** ** The invariants of a built tree, as predicates on the arrays *)

(* the ranges of the leaves, in the order of the nodes *)
Definition leaf_ranges (ns : list Node) : list (nat * nat) :=
  omap (fun nd => match nd with Leaf b e => Some (b, e) | Internal _ _ _ => None end) ns.

(* the number of leaves of a tree, and of a forest *)
Definition leaf_count (t : KDTree) : nat := length (leaf_ranges (_nodes t)).

Definition total_leaves (trees : list KDTree) : nat := sum_list_with leaf_count trees.

(* the ranges follow one another from [a] to [z]: no gap and no overlap *)
Fixpoint tiles (a z : nat) (rs : list (nat * nat)) : Prop :=
  match rs with
  | [] => a = z
  | (b, e) :: rs' => b = a /\ tiles e z rs'
  end.

(* the elements of [l] at the positions b to e - 1 *)
Definition slice {A} (b e : nat) (l : list A) : list A := take (e - b) (drop b l).

(** [subtree t n size items leaves]: the nodes [n] to [n + size - 1] of [t]
    are a subtree in pre-order, the left child of a node right after it and
    the right child after the left subtree; [items] are the associations of
    its leaves, from left to right, and [leaves] is their number. *)
Inductive subtree (t : KDTree) : nat -> nat -> list DescriptorAssociation -> nat -> Prop :=
  | subtree_leaf n b e :
      _nodes t !! n = Some (Leaf b e) ->
      is_Some (_bb t !! n) ->
      b < e -> e <= length (_list t) ->
      subtree t n 1 (slice b e (_list t)) 1
  | subtree_internal n r d v sl il cl sr ir cr :
      _nodes t !! n = Some (Internal r d v) ->
      is_Some (_bb t !! n) ->
      r = n + 1 + sl ->
      subtree t (n + 1) sl il cl ->
      subtree t r sr ir cr ->
      subtree t n (S (sl + sr)) (il ++ ir) (cl + cr).

(* the store holds the [dcount] descriptors it is said to hold, each of 128
   bytes *)
Definition store_ok (descriptors : list U8Descriptor) (dcount : nat) : Prop :=
  dcount <= length descriptors /\ Forall is_descriptor descriptors.

(* a box of 128 components *)
Definition box_ok (B : BoundingBox) : Prop :=
  length (ufeatures (min B)) = 128 /\ length (ufeatures (max B)) = 128.

(* a box of descriptors: two corners of 128 bytes, the lower below the upper
   in every component *)
Definition box_wf (B : BoundingBox) : Prop :=
  is_descriptor (min B) /\ is_descriptor (max B)
  /\ Forall2 Z.le (ufeatures (min B)) (ufeatures (max B)).

(* what the boxes of node [n] and of its children, or of its range, are to
   one another *)
Definition node_boxed (t : KDTree) (n : nat) : Prop :=
  match _nodes t !! n with
  | Some (Leaf b e) =>
      exists box, _bb t !! n = Some box
                  /\ Forall (fun a => inside (descriptor_of (_descriptors t) a) box)
                            (slice b e (_list t))
  | Some (Internal r d v) =>
      exists box boxl boxr,
        _bb t !! n = Some box /\ _bb t !! (n + 1) = Some boxl /\ _bb t !! r = Some boxr
        /\ contains box boxl /\ contains box boxr
  | None => True
  end.

(* the distance of the query to the descriptor of an association *)
Definition dist_to (descriptors : list U8Descriptor) (q : U8Descriptor)
           (a : DescriptorAssociation) : Z :=
  L2DistanceSquared q (descriptor_of descriptors a).

(* the update folded over a list of associations *)
Definition scan (descriptors : list U8Descriptor) (q : U8Descriptor)
           (items : list DescriptorAssociation) (acc : Accumulator) : Accumulator :=
  fold_left (fun acc a => Update acc (dist_to descriptors q a) a) items acc.

(* what a tree of a forest over the store [descriptors] has to satisfy for
   a search to run on it: the store, a subtree at the root over all nodes and
   the whole list, node indices that fit [unsigned], and associations that
   refer into the store *)
Record tree_ok (descriptors : list U8Descriptor) (t : KDTree) : Prop := {
  tree_store : _descriptors t = descriptors;
  tree_root : subtree t 0 (length (_nodes t)) (_list t) (leaf_count t);
  tree_fits : (Z.of_nat (length (_nodes t)) <= 2 ^ 32)%Z;
  tree_refs : Forall (fun a => global_index a < length descriptors) (_list t)
}.

(* the pending subtrees of a search over the forest [F]: the associations
   under them and the number of their leaves *)
Inductive pend (F : list KDTree) : list Pending -> list DescriptorAssociation -> nat -> Prop :=
  | pend_nil : pend F [] [] 0
  | pend_cons e pq t sz it c its cs :
      F !! tree e = Some t ->
      subtree t (node e) sz it c ->
      pend F pq its cs ->
      pend F (e :: pq) (it ++ its) (c + cs).

(* [a] is a nearest of the associations [U], by the distance [f] *)
Definition nearest (f : DescriptorAssociation -> Z) (U : list DescriptorAssociation)
           (a : DescriptorAssociation) : Prop :=
  a ∈ U /\ forall x, x ∈ U -> (f a <= f x)%Z.

(* [s] is a nearest of the associations of [U] whose descriptor is not the
   one of [a]; there is none when [U] has no other descriptor *)
Definition second_nearest (f : DescriptorAssociation -> Z) (U : list DescriptorAssociation)
           (a : DescriptorAssociation) (s : option DescriptorAssociation) : Prop :=
  match s with
  | Some b =>
      b ∈ U /\ global_index b <> global_index a
      /\ forall x, x ∈ U -> global_index x <> global_index a -> (f b <= f x)%Z
  | None => forall x, x ∈ U -> global_index x = global_index a
  end.

(* what an accumulator holds once the associations [U] have been met: a
   nearest and a second nearest of them, each with its distance, and the
   maximal distance for a neighbour that is missing *)
Definition holds_nearest (f : DescriptorAssociation -> Z) (U : list DescriptorAssociation)
           (acc : Accumulator) : Prop :=
  match best acc with
  | None =>
      U = [] /\ second acc = None /\ distance0 acc = UINT_MAX /\ distance1 acc = UINT_MAX
  | Some a =>
      nearest f U a /\ distance0 acc = f a
      /\ second_nearest f U a (second acc)
      /\ distance1 acc = match second acc with Some b => f b | None => UINT_MAX end
  end.

(* [s] is what [L] holds from position [off] on *)
Definition seg_at {A} (L : list A) (off : nat) (s : list A) : Prop :=
  forall k x, s !! k = Some x -> L !! (off + k) = Some x.

(** ** Facts about the builder *)

Lemma seg_at_refl {A} (L : list A) : seg_at L 0 L.
Proof. intros k x H. exact H. Qed.

Lemma seg_at_cons {A} (L : list A) off x (s : list A) :
  seg_at L off (x :: s) -> L !! off = Some x /\ seg_at L (S off) s.
Proof.
  intros H. split.
  - rewrite <- (Nat.add_0_r off). now apply H.
  - intros k y Hk. replace (S off + k) with (off + S k) by lia. now apply H.
Qed.

Lemma seg_at_app {A} (L : list A) off (s1 s2 : list A) :
  seg_at L off (s1 ++ s2) -> seg_at L off s1 /\ seg_at L (off + length s1) s2.
Proof.
  intros H. split; intros k x Hk.
  - apply H. rewrite lookup_app_l; [trivial|]. now apply lookup_lt_Some in Hk.
  - replace (off + length s1 + k) with (off + (length s1 + k)) by lia. apply H.
    rewrite lookup_app_r by lia. now replace (length s1 + k - length s1) with k by lia.
Qed.

Lemma seg_at_length {A} (L : list A) off (s : list A) :
  seg_at L off s -> s <> [] -> off + length s <= length L.
Proof.
  intros H Hne. destruct (s !! (length s - 1)) as [x|] eqn:E.
  - apply H in E. apply lookup_lt_Some in E. destruct s; [congruence|]. cbn [length] in *. lia.
  - apply lookup_ge_None in E. destruct s; [congruence|]. cbn [length] in *. lia.
Qed.

Lemma seg_at_slice {A} (L : list A) off (s : list A) :
  seg_at L off s -> slice off (off + length s) L = s.
Proof.
  intros H. unfold slice. apply list_eq. intros i.
  rewrite lookup_take, lookup_drop. replace (off + length s - off) with (length s) by lia.
  case_decide as Hi.
  - destruct (lookup_lt_is_Some_2 s i Hi) as [x Hx]. rewrite Hx. now apply H.
  - symmetry. apply lookup_ge_None. lia.
Qed.

Lemma leaf_ranges_app (ns ns' : list Node) :
  leaf_ranges (ns ++ ns') = leaf_ranges ns ++ leaf_ranges ns'.
Proof. apply omap_app. Qed.

Lemma tiles_app a m z rs rs' : tiles a m rs -> tiles m z rs' -> tiles a z (rs ++ rs').
Proof.
  revert a. induction rs as [|[b e] rs IH]; intros a; cbn [tiles app].
  - now intros ->.
  - intros [-> H] H'. split; [reflexivity|now apply IH].
Qed.

Lemma subtree_size t n sz items c : subtree t n sz items c -> 1 <= sz /\ 1 <= c.
Proof. induction 1; lia. Qed.

Lemma subtree_node_count t n sz items c : subtree t n sz items c -> sz + 1 = 2 * c.
Proof. induction 1; lia. Qed.

Lemma subtree_items_length t n sz items c : subtree t n sz items c -> c <= length items.
Proof.
  induction 1 as [n b e Hn Hb Hlt Hle|].
  - unfold slice. rewrite length_take, length_drop. lia.
  - rewrite length_app. lia.
Qed.

(** Every node of a subtree is the root of a subtree inside it. *)
Lemma subtree_cover t n sz items c :
  subtree t n sz items c ->
  forall m, n <= m < n + sz ->
            exists sz' items' c', subtree t m sz' items' c' /\ m + sz' <= n + sz.
Proof.
  induction 1 as [n b e Hn Hb Hlt Hle|n r d v sl il cl sr ir cr Hn Hb Hr Hl IHl Hrt IHr];
    intros m Hm.
  - assert (m = n) as -> by lia. exists 1, (slice b e (_list t)), 1.
    split; [now constructor|lia].
  - destruct (decide (m = n)) as [->|Hne].
    + exists (S (sl + sr)), (il ++ ir), (cl + cr). split; [|lia].
      now apply subtree_internal with (r := r) (d := d) (v := v).
    + destruct (decide (m < r)) as [Hlt|Hge].
      * destruct (IHl m) as (sz' & items' & c' & Hs & Hle); [lia|].
        exists sz', items', c'. split; [trivial|lia].
      * destruct (IHr m) as (sz' & items' & c' & Hs & Hle); [lia|].
        exists sz', items', c'. split; [trivial|lia].
Qed.

(** *** Boxes *)

Lemma Forall2_le_refl (l : list Z) : Forall2 Z.le l l.
Proof. induction l; constructor; [lia|trivial]. Qed.

Lemma Forall2_le_trans (a b c : list Z) :
  Forall2 Z.le a b -> Forall2 Z.le b c -> Forall2 Z.le a c.
Proof.
  intros H. revert c. induction H as [|x y a b Hxy _ IH]; intros c Hc; inversion Hc; subst.
  - constructor.
  - constructor; [lia|auto].
Qed.

Lemma zip_min_le (a b : list Z) :
  length a = length b ->
  Forall2 Z.le (zip_with Z.min a b) a /\ Forall2 Z.le (zip_with Z.min a b) b.
Proof.
  revert b. induction a as [|x a IH]; intros [|y b] Hlen; try discriminate; cbn.
  - split; constructor.
  - destruct (IH b) as [H1 H2]; [cbn in Hlen; lia|]. split; constructor; trivial; lia.
Qed.

Lemma zip_max_ge (a b : list Z) :
  length a = length b ->
  Forall2 Z.le a (zip_with Z.max a b) /\ Forall2 Z.le b (zip_with Z.max a b).
Proof.
  revert b. induction a as [|x a IH]; intros [|y b] Hlen; try discriminate; cbn.
  - split; constructor.
  - destruct (IH b) as [H1 H2]; [cbn in Hlen; lia|]. split; constructor; trivial; lia.
Qed.

Lemma Union_contains (a b : BoundingBox) :
  box_ok a -> box_ok b ->
  box_ok (Union a b) /\ contains (Union a b) a /\ contains (Union a b) b.
Proof.
  intros [Ha1 Ha2] [Hb1 Hb2]. unfold box_ok, contains, Union. cbn [min max ufeatures].
  destruct (zip_min_le (ufeatures (min a)) (ufeatures (min b))) as [? ?]; [congruence|].
  destruct (zip_max_ge (ufeatures (max a)) (ufeatures (max b))) as [? ?]; [congruence|].
  rewrite !length_zip_with. repeat split; trivial; lia.
Qed.

Lemma contains_refl (a : BoundingBox) : contains a a.
Proof. split; apply Forall2_le_refl. Qed.

Lemma contains_trans (a b c : BoundingBox) : contains a b -> contains b c -> contains a c.
Proof. intros [H1 H2] [H3 H4]. split; eapply Forall2_le_trans; eauto. Qed.

Lemma inside_contains d (a b : BoundingBox) : contains a b -> inside d b -> inside d a.
Proof. intros [H1 H2] [H3 H4]. split; eapply Forall2_le_trans; eauto. Qed.

Lemma inside_point_box d : inside d (point_box d).
Proof. split; apply Forall2_le_refl. Qed.

Lemma box_ok_empty : box_ok empty_box.
Proof. split; reflexivity. Qed.

Lemma box_ok_point d : is_descriptor d -> box_ok (point_box d).
Proof. intros [H _]. split; exact H. Qed.

(* a value that fits a member is stored as it is *)
Lemma to_index_small (n : nat) : (Z.of_nat n < 2 ^ 31)%Z -> to_index n = n.
Proof. intros H. unfold to_index. rewrite Z.mod_small by lia. lia. Qed.

Lemma to_uchar_small (n : nat) : n < 256 -> to_uchar n = n.
Proof. intros H. unfold to_uchar. rewrite Z.mod_small by lia. lia. Qed.

Lemma store_leaf_fits (b e : nat) :
  (Z.of_nat b < 2 ^ 31)%Z -> (Z.of_nat e < 2 ^ 32)%Z -> store_node (Leaf b e) = Leaf b e.
Proof.
  intros Hb He. cbn [store_node]. rewrite to_index_small by trivial.
  unfold unsigned_of_nat, to_unsigned. rewrite Z.mod_small by lia. f_equal. lia.
Qed.

Lemma store_internal_fits (r d v : nat) :
  (Z.of_nat r < 2 ^ 31)%Z -> d < 256 -> v < 256 ->
  store_node (Internal r d v) = Internal r d v.
Proof.
  intros Hr Hd Hv. cbn [store_node].
  now rewrite to_index_small, !to_uchar_small by trivial.
Qed.

Lemma store_node_fits (nd : Node) : node_fits (store_node nd).
Proof.
  destruct nd as [r d v|b e]; cbn [store_node node_fits];
    unfold to_index, to_uchar, unsigned_of_nat, to_unsigned.
  - pose proof (Z.mod_pos_bound (Z.of_nat r) (2 ^ 31)).
    pose proof (Z.mod_pos_bound (Z.of_nat d) (2 ^ 8)).
    pose proof (Z.mod_pos_bound (Z.of_nat v) (2 ^ 8)). lia.
  - pose proof (Z.mod_pos_bound (Z.of_nat b) (2 ^ 31)).
    pose proof (Z.mod_pos_bound (Z.of_nat e) (2 ^ 32)). lia.
Qed.

Section BuilderFacts.

Variable descriptors : list U8Descriptor.
Variable leaf_size : nat.
Variable choose_split : nat -> list DescriptorAssociation -> nat * nat.
Variable degenerate : nat -> list DescriptorAssociation -> option nat.

Abbreviation Build_range := (Build_range descriptors leaf_size choose_split degenerate).
Abbreviation split_range := (split_range descriptors choose_split degenerate).

Lemma split_range_spec node_index range d v lo hi :
  split_range node_index range = Some (d, v, lo, hi) ->
  2 <= length range ->
  lo <> [] /\ hi <> [] /\ lo ++ hi ≡ₚ range.
Proof.
  unfold split_range, Partition. destruct (choose_split node_index range) as [d' v'].
  cbv zeta. intros H Hlen.
  pose proof (filter_app_complement
                (fun a => (feature (descriptor_of descriptors a) (d' mod 128)
                           <= Z.of_nat (v' mod 256))%Z) range) as Hp.
  assert (Hmid : forall m,
             let k := 1 + m mod (length range - 1) in
             take k range <> [] /\ drop k range <> [] /\ take k range ++ drop k range ≡ₚ range).
  { intros m k. assert (1 <= k < length range).
    { pose proof (Nat.mod_upper_bound m (length range - 1)). lia. }
    repeat split.
    - intros E. apply (f_equal length) in E. rewrite length_take in E. cbn [length] in E. lia.
    - intros E. apply (f_equal length) in E. rewrite length_drop in E. cbn [length] in E. lia.
    - now rewrite take_drop. }
  destruct (filter _ range) as [|a lo'] eqn:El;
    [|destruct (filter (fun a => ~ _) range) as [|b hi'] eqn:Eh];
    try (destruct (degenerate node_index range) as [m|]; [|discriminate]);
    inversion H; subst; try apply Hmid.
  repeat split; [discriminate|discriminate|exact Hp].
Qed.

Lemma split_range_perm node_index range d v lo hi :
  split_range node_index range = Some (d, v, lo, hi) -> lo ++ hi ≡ₚ range.
Proof.
  unfold split_range, Partition. destruct (choose_split node_index range) as [d' v'].
  cbv zeta.
  pose proof (filter_app_complement
                (fun a => (feature (descriptor_of descriptors a) (d' mod 128)
                           <= Z.of_nat (v' mod 256))%Z) range) as Hp.
  destruct (filter _ range) as [|a lo'] eqn:El;
    [|destruct (filter (fun a => ~ _) range) as [|b hi'] eqn:Eh];
    try (destruct (degenerate node_index range) as [m|]; [|discriminate]);
    intros [= <- <- <- <-]; trivial; now rewrite take_drop.
Qed.

(* the split dimension is one of the 128 dimensions and the split value a
   byte *)
Lemma split_range_dv node_index range d v lo hi :
  split_range node_index range = Some (d, v, lo, hi) -> d < 128 /\ v < 256.
Proof.
  unfold split_range. destruct (choose_split node_index range) as [d' v']. cbv zeta.
  pose proof (Nat.mod_upper_bound d' 128). pose proof (Nat.mod_upper_bound v' 256).
  destruct (Partition _ _ _ range) as [[|a lo'] [|b hi']];
    try (destruct (degenerate node_index range) as [m|]; [|discriminate]);
    intros [= <- <- <- <-]; lia.
Qed.

(* the fall back to a leaf is taken on the decision of [degenerate] only *)
Lemma split_range_None node_index range :
  split_range node_index range = None -> degenerate node_index range = None.
Proof.
  unfold split_range. destruct (choose_split node_index range) as [d' v']. cbv zeta.
  destruct (Partition _ _ _ range) as [[|a lo'] [|b hi']];
    destruct (degenerate node_index range) as [m|]; trivial; discriminate.
Qed.

Lemma split_range_length node_index range d v lo hi :
  split_range node_index range = Some (d, v, lo, hi) ->
  2 <= length range ->
  1 <= length lo /\ 1 <= length hi /\ length lo + length hi = length range.
Proof.
  intros H Hlen. destruct (split_range_spec _ _ _ _ _ _ H Hlen) as (Hl & Hh & Hp).
  apply Permutation_length in Hp. rewrite length_app in Hp.
  destruct lo; [congruence|]. destruct hi; [congruence|]. cbn [length] in *. lia.
Qed.

(** One step of Build, inverted. *)
Lemma Build_range_inv fuel node_index lelem range ns bs range' :
  Build_range (S fuel) node_index lelem range = Some (ns, bs, range') ->
  ((length range <= leaf_size \/ split_range node_index range = None)
   /\ ns = [store_node (Leaf lelem (lelem + length range))]
   /\ bs = [GetBoundingBox descriptors range]
   /\ range' = range)
  \/ (leaf_size < length range
      /\ exists d v lo hi nl bl lo' nr br hi',
          split_range node_index range = Some (d, v, lo, hi)
          /\ Build_range fuel (node_index + 1) lelem lo = Some (nl, bl, lo')
          /\ Build_range fuel (node_index + 1 + length nl) (lelem + length lo) hi
             = Some (nr, br, hi')
          /\ ns = store_node (Internal (node_index + 1 + length nl) d v) :: nl ++ nr
          /\ bs = Union (default empty_box (head bl)) (default empty_box (head br)) :: bl ++ br
          /\ range' = lo' ++ hi').
Proof.
  cbn [kdtree.Build_range]. cbv zeta. case_decide as Hleaf.
  - intros [= <- <- <-]. left. auto.
  - destruct (split_range node_index range) as [[[[d v] lo] hi]|] eqn:Es.
    + destruct (Build_range fuel (node_index + 1) lelem lo) as [[[nl bl] lo']|] eqn:El;
        [|discriminate].
      destruct (Build_range fuel (node_index + 1 + length nl) (lelem + length lo) hi)
        as [[[nr br] hi']|] eqn:Er; [|discriminate].
      intros [= <- <- <-]. right. split; [lia|].
      exists d, v, lo, hi, nl, bl, lo', nr, br, hi'. repeat split; trivial.
    + intros [= <- <- <-]. left. auto.
Qed.

(* the two cases of a step of Build in hypothesis [H]: the leaf, and the
   internal node with its split [Es] and its two subtrees [Hl] and [Hr] *)
Ltac build_cases H :=
  let Hleaf := fresh "Hleaf" in
  let Hgt := fresh "Hgt" in
  apply Build_range_inv in H
    as [(Hleaf & -> & -> & ->)
       |(Hgt & d & v & lo & hi & nl & bl & lo' & nr & br & hi' & Es & Hl & Hr & -> & -> & ->)].

(** Build returns: a fuel of the length of the range is enough. *)
Lemma Build_range_total fuel :
  forall node_index lelem range,
    1 <= leaf_size -> 1 <= length range <= fuel ->
    is_Some (Build_range fuel node_index lelem range).
Proof.
  induction fuel as [|fuel IH]; intros node_index lelem range Hls Hlen; [lia|].
  cbn [kdtree.Build_range]. cbv zeta. case_decide as Hleaf; [eauto|].
  destruct (split_range node_index range) as [[[[d v] lo] hi]|] eqn:Es; [|eauto].
  destruct (split_range_length _ _ _ _ _ _ Es) as (Hl & Hh & Hsum); [lia|].
  destruct (IH (node_index + 1) lelem lo) as [[[nl bl] lo'] ->]; [trivial|lia|].
  destruct (IH (node_index + 1 + length nl) (lelem + length lo) hi) as [[[nr br] hi'] ->];
    [trivial|lia|eauto].
Qed.

(** The shape of what Build returns: a box per node, at least one node, and
    the range reordered. *)
Lemma Build_range_shape fuel :
  forall node_index lelem range ns bs range',
    Build_range fuel node_index lelem range = Some (ns, bs, range') ->
    length bs = length ns /\ 1 <= length ns /\ range' ≡ₚ range.
Proof.
  induction fuel as [|fuel IH]; intros node_index lelem range ns bs range' H; [discriminate|].
  build_cases H.
  - repeat split; cbn; trivial.
  - destruct (IH _ _ _ _ _ _ Hl) as (Hbl & Hnl & Hpl).
    destruct (IH _ _ _ _ _ _ Hr) as (Hbr & Hnr & Hpr).
    pose proof (split_range_perm _ _ _ _ _ _ Es) as Hp.
    repeat split.
    + cbn [length]. rewrite !length_app. lia.
    + cbn [length]. lia.
    + now rewrite Hpl, Hpr.
Qed.

(** Every node that Build returns is within the widths of struct Node. *)
Lemma Build_range_fits fuel :
  forall node_index lelem range ns bs range',
    Build_range fuel node_index lelem range = Some (ns, bs, range') ->
    Forall node_fits ns.
Proof.
  induction fuel as [|fuel IH]; intros node_index lelem range ns bs range' H; [discriminate|].
  build_cases H.
  - constructor; [apply store_node_fits|constructor].
  - constructor; [apply store_node_fits|]. apply Forall_app. split; eauto.
Qed.

(** What Build returns, once stored in the arrays of a tree, is a subtree,
    when the indices of its nodes and the positions of its range fit the
    31 bits of [index]. *)
Lemma Build_range_subtree fuel :
  forall node_index lelem range ns bs range' t,
    Build_range fuel node_index lelem range = Some (ns, bs, range') ->
    1 <= leaf_size -> 1 <= length range ->
    (Z.of_nat (node_index + length ns) <= 2 ^ 31)%Z ->
    (Z.of_nat (lelem + length range) <= 2 ^ 31)%Z ->
    seg_at (_nodes t) node_index ns ->
    seg_at (_bb t) node_index bs ->
    seg_at (_list t) lelem range' ->
    subtree t node_index (length ns) range' (length (leaf_ranges ns)).
Proof.
  induction fuel as [|fuel IH];
    intros node_index lelem range ns bs range' t H Hls Hlen Hwn Hwl Hns Hbs Hlist;
    [discriminate|].
  build_cases H.
  - rewrite store_leaf_fits in * by lia.
    apply seg_at_cons in Hns as [Hn _]. apply seg_at_cons in Hbs as [Hb _].
    assert (Hend : lelem + length range <= length (_list t)).
    { apply seg_at_length; [trivial|]. destruct range; [cbn in Hlen; lia|discriminate]. }
    pose proof (subtree_leaf t node_index lelem (lelem + length range) Hn) as Hs.
    rewrite (seg_at_slice _ _ _ Hlist) in Hs. apply Hs; [eauto|lia|lia].
  - destruct (split_range_length _ _ _ _ _ _ Es) as (Hlo & Hhi & Hsum); [lia|].
    destruct (split_range_dv _ _ _ _ _ _ Es) as [Hd Hv].
    destruct (Build_range_shape _ _ _ _ _ _ _ Hl) as (Hbl & Hnl & Hpl).
    destruct (Build_range_shape _ _ _ _ _ _ _ Hr) as (Hbr & Hnr & Hpr).
    cbn [length] in Hwn. rewrite length_app in Hwn.
    rewrite store_internal_fits in * by lia.
    apply seg_at_cons in Hns as [Hn Hns]. apply seg_at_app in Hns as [Hnsl Hnsr].
    apply seg_at_cons in Hbs as [Hb Hbs]. apply seg_at_app in Hbs as [Hbsl Hbsr].
    apply seg_at_app in Hlist as [Hll Hlr].
    apply Permutation_length in Hpl.
    replace (S node_index) with (node_index + 1) in * by lia.
    cbn [length]. rewrite length_app.
    change (leaf_ranges (Internal (node_index + 1 + length nl) d v :: nl ++ nr))
      with (leaf_ranges (nl ++ nr)).
    rewrite leaf_ranges_app, length_app.
    apply subtree_internal with (r := node_index + 1 + length nl) (d := d) (v := v);
      [exact Hn|eauto|reflexivity| |].
    + apply (IH _ lelem lo _ bl); trivial; lia.
    + apply (IH _ (lelem + length lo) hi _ br); trivial; try lia.
      * now rewrite <- Hbl.
      * now rewrite <- Hpl.
Qed.

(** The box of a range holds every descriptor of the range. *)
Lemma fold_Union_spec (range : list DescriptorAssociation) :
  forall acc,
    box_ok acc ->
    Forall (fun a => is_descriptor (descriptor_of descriptors a)) range ->
    let box := fold_left (fun acc a => Union acc (point_box (descriptor_of descriptors a)))
                         range acc in
    box_ok box /\ contains box acc
    /\ Forall (fun a => inside (descriptor_of descriptors a) box) range.
Proof.
  induction range as [|a range IH]; intros acc Hacc Hv; cbn [fold_left].
  - split; [exact Hacc|]. split; [apply contains_refl|constructor].
  - apply Forall_cons in Hv as [Ha Hv].
    destruct (Union_contains acc (point_box (descriptor_of descriptors a)))
      as (Hok & Hc1 & Hc2); [trivial|now apply box_ok_point|].
    destruct (IH _ Hok Hv) as (Hok' & Hc & Hin).
    split; [exact Hok'|]. split.
    + eapply contains_trans; eauto.
    + constructor; [|exact Hin].
      eapply inside_contains; [exact Hc|]. eapply inside_contains; [exact Hc2|].
      apply inside_point_box.
Qed.

Lemma GetBoundingBox_spec (range : list DescriptorAssociation) :
  Forall (fun a => is_descriptor (descriptor_of descriptors a)) range ->
  box_ok (GetBoundingBox descriptors range)
  /\ Forall (fun a => inside (descriptor_of descriptors a) (GetBoundingBox descriptors range))
            range.
Proof.
  intros Hv. destruct (fold_Union_spec range empty_box box_ok_empty Hv) as (H1 & _ & H2).
  split; assumption.
Qed.

(** The boxes that Build returns, once stored in the arrays of a tree. *)
Lemma Build_range_boxed fuel :
  forall node_index lelem range ns bs range' t,
    Build_range fuel node_index lelem range = Some (ns, bs, range') ->
    1 <= leaf_size -> 1 <= length range ->
    (Z.of_nat (node_index + length ns) <= 2 ^ 31)%Z ->
    (Z.of_nat (lelem + length range) <= 2 ^ 31)%Z ->
    Forall (fun a => is_descriptor (descriptor_of descriptors a)) range ->
    _descriptors t = descriptors ->
    seg_at (_nodes t) node_index ns ->
    seg_at (_bb t) node_index bs ->
    seg_at (_list t) lelem range' ->
    Forall box_ok bs
    /\ forall k, k < length ns -> node_boxed t (node_index + k).
Proof.
  induction fuel as [|fuel IH];
    intros node_index lelem range ns bs range' t H Hls Hlen Hwn Hwl Hv Ht Hns Hbs Hlist;
    [discriminate|].
  build_cases H.
  - rewrite store_leaf_fits in * by lia.
    destruct (GetBoundingBox_spec range Hv) as [Hok Hin].
    split; [constructor; [exact Hok|constructor]|].
    intros k Hk. cbn [length] in Hk. assert (k = 0) as -> by lia. rewrite Nat.add_0_r.
    apply seg_at_cons in Hns as [Hn _]. apply seg_at_cons in Hbs as [Hb _].
    unfold node_boxed. rewrite Hn. exists (GetBoundingBox descriptors range).
    split; [exact Hb|]. now rewrite (seg_at_slice _ _ _ Hlist), Ht.
  - pose proof (split_range_perm _ _ _ _ _ _ Es) as Hp.
    destruct (split_range_length _ _ _ _ _ _ Es) as (Hlo & Hhi & Hsum); [lia|].
    destruct (split_range_dv _ _ _ _ _ _ Es) as [Hd Hdv].
    destruct (Build_range_shape _ _ _ _ _ _ _ Hl) as (Hbl & Hnl & Hpl).
    destruct (Build_range_shape _ _ _ _ _ _ _ Hr) as (Hbr & Hnr & Hpr).
    cbn [length] in Hwn. rewrite length_app in Hwn.
    rewrite store_internal_fits in * by lia.
    rewrite <- Hp in Hv. apply Forall_app in Hv as [Hvl Hvr].
    apply seg_at_cons in Hns as [Hn Hns]. apply seg_at_app in Hns as [Hnsl Hnsr].
    apply seg_at_cons in Hbs as [Hb Hbs]. apply seg_at_app in Hbs as [Hbsl Hbsr].
    apply seg_at_app in Hlist as [Hll Hlr].
    replace (S node_index) with (node_index + 1) in * by lia.
    destruct (IH _ lelem lo _ bl _ t Hl) as [Hokl Hbxl]; trivial; try lia.
    destruct (IH _ (lelem + length lo) hi _ br _ t Hr) as [Hokr Hbxr]; trivial; try lia.
    { now rewrite <- Hbl. }
    { now rewrite <- (Permutation_length Hpl). }
    destruct bl as [|boxl bl]; [cbn in Hbl; lia|].
    destruct br as [|boxr br]; [cbn in Hbr; lia|].
    apply Forall_cons in Hokl as [Hokl Hokl']. apply Forall_cons in Hokr as [Hokr Hokr'].
    cbn [head default].
    destruct (Union_contains boxl boxr Hokl Hokr) as (Hok & Hcl & Hcr).
    split.
    + constructor; [exact Hok|]. apply Forall_app. split; constructor; trivial.
    + intros k Hk. cbn [length] in Hk. rewrite length_app in Hk.
      destruct k as [|k].
      * rewrite Nat.add_0_r. unfold node_boxed. rewrite Hn.
        exists (Union boxl boxr), boxl, boxr.
        split; [exact Hb|]. split; [|split; [|split; [exact Hcl|exact Hcr]]].
        -- specialize (Hbsl 0 boxl eq_refl). now rewrite Nat.add_0_r in Hbsl.
        -- specialize (Hbsr 0 boxr eq_refl). rewrite Nat.add_0_r in Hbsr.
           cbn [length] in Hbsr, Hbl. now replace (node_index + 1 + length nl)
             with (node_index + 1 + S (length bl)) by lia.
      * destruct (decide (k < length nl)) as [Hkl|Hkr].
        -- replace (node_index + S k) with (node_index + 1 + k) by lia. now apply Hbxl.
        -- replace (node_index + S k)
             with (node_index + 1 + length nl + (k - length nl)) by lia.
           apply Hbxr. lia.
Qed.

(** The ranges of the leaves that Build returns, when the positions of the
    range fit the 31 bits of [index]. *)
Lemma Build_range_leaves fuel :
  forall node_index lelem range ns bs range',
    Build_range fuel node_index lelem range = Some (ns, bs, range') ->
    1 <= leaf_size -> 1 <= length range ->
    (Z.of_nat (lelem + length range) <= 2 ^ 31)%Z ->
    tiles lelem (lelem + length range) (leaf_ranges ns)
    /\ Forall (fun be => fst be < snd be) (leaf_ranges ns).
Proof.
  induction fuel as [|fuel IH];
    intros node_index lelem range ns bs range' H Hls Hlen Hwl; [discriminate|].
  build_cases H.
  - rewrite store_leaf_fits by lia.
    cbn. repeat split; trivial; repeat constructor; cbn; lia.
  - destruct (split_range_length _ _ _ _ _ _ Es) as (Hlo & Hhi & Hsum); [lia|].
    destruct (IH _ _ _ _ _ _ Hl) as [Htl Hfl]; trivial; [lia|].
    destruct (IH _ _ _ _ _ _ Hr) as [Htr Hfr]; trivial; [lia|].
    change (leaf_ranges (store_node (Internal (node_index + 1 + length nl) d v) :: nl ++ nr))
      with (leaf_ranges (nl ++ nr)).
    rewrite leaf_ranges_app. split.
    + eapply tiles_app; [exact Htl|]. now replace (lelem + length range)
        with (lelem + length lo + length hi) by lia.
    + apply Forall_app. now split.
Qed.

(** The size of the leaves that Build returns: a leaf is within the
    threshold, unless it is the fall back for a range that was not cut. *)
Lemma Build_range_leaf_sizes fuel :
  forall node_index lelem range ns bs range' (L : list DescriptorAssociation),
    Build_range fuel node_index lelem range = Some (ns, bs, range') ->
    1 <= leaf_size -> 1 <= length range ->
    (Z.of_nat (lelem + length range) <= 2 ^ 31)%Z ->
    seg_at L lelem range' ->
    forall k b e,
      ns !! k = Some (Leaf b e) ->
      e - b <= leaf_size \/ split_range (node_index + k) (slice b e L) = None.
Proof.
  induction fuel as [|fuel IH];
    intros node_index lelem range ns bs range' L H Hls Hlen Hwl Hlist k b e Hk;
    [discriminate|].
  build_cases H.
  - rewrite store_leaf_fits in Hk by lia.
    destruct k as [|k]; [|discriminate]. injection Hk as <- <-.
    rewrite Nat.add_0_r, (seg_at_slice _ _ _ Hlist).
    destruct Hleaf as [Hleaf|Hleaf]; [left; lia|now right].
  - destruct (split_range_length _ _ _ _ _ _ Es) as (Hlo & Hhi & Hsum); [lia|].
    destruct (Build_range_shape _ _ _ _ _ _ _ Hl) as (Hbl & Hnl & Hpl).
    apply seg_at_app in Hlist as [Hll Hlr]. apply Permutation_length in Hpl.
    destruct k as [|k]; [discriminate|].
    change ((nl ++ nr) !! k = Some (Leaf b e)) in Hk.
    destruct (decide (k < length nl)) as [Hkl|Hkr].
    + rewrite lookup_app_l in Hk by trivial.
      replace (node_index + S k) with (node_index + 1 + k) by lia.
      apply (IH _ lelem lo nl bl lo'); trivial; lia.
    + rewrite lookup_app_r in Hk by lia.
      replace (node_index + S k) with (node_index + 1 + length nl + (k - length nl)) by lia.
      apply (IH _ (lelem + length lo) hi nr br hi'); trivial; try lia.
      now rewrite <- Hpl.
Qed.

End BuilderFacts.

(** ** Facts about the accessors *)

Lemma unsigned_of_nat_small (n : nat) : (Z.of_nat n < 2 ^ 32)%Z -> unsigned_of_nat n = n.
Proof.
  intros H. unfold unsigned_of_nat, to_unsigned. rewrite Z.mod_small by lia. lia.
Qed.

Lemma at_Ret {A} (v : list A) n x : at_ v n = Ret x <-> v !! n = Some x.
Proof. unfold at_. destruct (v !! n); split; congruence. Qed.

Lemma at_out_of_range {A} (v : list A) n : length v <= n -> at_ v n = Throw VectorAt.
Proof. intros H. unfold at_. now rewrite (lookup_ge_None_2 v n H). Qed.

Lemma IsLeaf_Ret t n b :
  IsLeaf t n = Ret b <-> exists nd, _nodes t !! n = Some nd /\ leaf nd = b.
Proof.
  unfold IsLeaf, at_. destruct (_nodes t !! n) as [nd|]; cbn [bind].
  - split; [intros [= <-]; eauto|intros (nd' & [= <-] & <-); reflexivity].
  - split; [discriminate|intros (nd' & [=] & _)].
Qed.

Lemma assert_internal t n r d v :
  _nodes t !! n = Some (Internal r d v) -> POPSIFT_KDASSERT (is_internal t n) = Ret tt.
Proof. intros H. unfold POPSIFT_KDASSERT, is_internal, at_. now rewrite H. Qed.

Lemma Right_internal t n r d v : _nodes t !! n = Some (Internal r d v) -> Right t n = Ret r.
Proof.
  intros H. unfold Right. rewrite (assert_internal _ _ _ _ _ H). unfold at_. now rewrite H.
Qed.

Lemma Dim_internal t n r d v : _nodes t !! n = Some (Internal r d v) -> Dim t n = Ret d.
Proof.
  intros H. unfold Dim. rewrite (assert_internal _ _ _ _ _ H). unfold at_. now rewrite H.
Qed.

Lemma Val_internal t n r d v : _nodes t !! n = Some (Internal r d v) -> Val t n = Ret v.
Proof.
  intros H. unfold Val. rewrite (assert_internal _ _ _ _ _ H). unfold at_. now rewrite H.
Qed.

Lemma Left_internal t n r d v :
  _nodes t !! n = Some (Internal r d v) -> (Z.of_nat (n + 1) < 2 ^ 32)%Z ->
  Left t n = Ret (n + 1).
Proof.
  intros H Hn. unfold Left. rewrite (assert_internal _ _ _ _ _ H). cbn [bind].
  now rewrite unsigned_of_nat_small.
Qed.

Lemma List_leaf t n b e :
  _nodes t !! n = Some (Leaf b e) -> e <= length (_list t) -> List t n = Ret (b, e).
Proof.
  intros H He. unfold List, POPSIFT_KDASSERT, at_. rewrite H. cbn.
  now rewrite bool_decide_eq_true_2.
Qed.

Lemma is_descriptorb_spec (d : U8Descriptor) : is_descriptorb d = true -> is_descriptor d.
Proof.
  unfold is_descriptorb, is_descriptor. intros [Hl Hf]%andb_true_iff.
  split; [now apply Nat.eqb_eq|].
  apply Forall_forall. intros x Hx. rewrite forallb_forall in Hf.
  specialize (Hf x (proj1 (list_elem_of_In _ _) Hx)). lia.
Qed.

(** C2, as the accessors have it.  On a leaf node, Left, Right, Dim and Val
    end in the assertion failure of POPSIFT_KDASSERT.  With a node index
    past the end of the node array, every accessor that takes one ends in the
    std::out_of_range of std::vector::at, thrown while the asserted
    condition is evaluated and before assert_fail is reached (BB, likewise,
    past the end of the box array).  No value is returned in either case. *)
Theorem accessor_contract_violations (t : KDTree) (n : nat) :
  (IsLeaf t n = Ret true ->
   Left t n = Throw KDAssertion /\ Right t n = Throw KDAssertion
   /\ Dim t n = Throw KDAssertion /\ Val t n = Throw KDAssertion)
  /\ (length (_nodes t) <= n ->
      IsLeaf t n = Throw VectorAt
      /\ Left t n = Throw VectorAt /\ Right t n = Throw VectorAt
      /\ Dim t n = Throw VectorAt /\ Val t n = Throw VectorAt
      /\ List t n = Throw VectorAt)
  /\ (length (_bb t) <= n -> BB t n = Throw VectorAt).
Proof.
  split; [|split].
  - intros (nd & Hnd & Hleaf)%IsLeaf_Ret.
    unfold Left, Right, Dim, Val, POPSIFT_KDASSERT, is_internal, at_.
    rewrite Hnd. cbn [bind]. rewrite Hleaf. cbn. auto.
  - intros Hn. apply lookup_ge_None_2 in Hn.
    unfold IsLeaf, Left, Right, Dim, Val, List, POPSIFT_KDASSERT, is_internal, at_.
    rewrite Hn. cbn. auto 10.
  - intros Hn. now apply at_out_of_range.
Qed.

Lemma assert_internal_Ret t n :
  POPSIFT_KDASSERT (is_internal t n) = Ret tt
  <-> exists r d v, _nodes t !! n = Some (Internal r d v).
Proof.
  unfold POPSIFT_KDASSERT, is_internal, at_.
  destruct (_nodes t !! n) as [[r d v|b e]|]; cbn [bind leaf negb].
  - split; [eauto|reflexivity].
  - split; [discriminate|intros (r & d & v & [=])].
  - split; [discriminate|intros (r & d & v & [=])].
Qed.

Lemma IsLeaf_false t n :
  IsLeaf t n = Ret false <-> exists r d v, _nodes t !! n = Some (Internal r d v).
Proof.
  rewrite IsLeaf_Ret. split.
  - intros ([r d v|b e] & Hnd & Hl); [eauto|discriminate].
  - intros (r & d & v & Hnd). eauto.
Qed.

Lemma guarded_Ret {A} t n (k : outcome A) (x : A) :
  (do _ <- POPSIFT_KDASSERT (is_internal t n); k) = Ret x ->
  POPSIFT_KDASSERT (is_internal t n) = Ret tt.
Proof. destruct (POPSIFT_KDASSERT (is_internal t n)) as [[]| | |]; [reflexivity|discriminate..]. Qed.

(** X8.  The accessors of an internal node.  Left, Right, Dim and Val
    return a value exactly on the nodes on which IsLeaf returns [false]; on
    such a node Left is n + 1 as an [unsigned], and Right, Dim and Val are
    the right link, the split dimension and the split value stored in the
    node. *)
Theorem internal_accessors (t : KDTree) (n : nat) :
  ((exists m, Left t n = Ret m) <-> IsLeaf t n = Ret false)
  /\ ((exists m, Right t n = Ret m) <-> IsLeaf t n = Ret false)
  /\ ((exists m, Dim t n = Ret m) <-> IsLeaf t n = Ret false)
  /\ ((exists m, Val t n = Ret m) <-> IsLeaf t n = Ret false)
  /\ (forall r d v,
        _nodes t !! n = Some (Internal r d v) ->
        Left t n = Ret (unsigned_of_nat (n + 1))
        /\ Right t n = Ret r /\ Dim t n = Ret d /\ Val t n = Ret v).
Proof.
  assert (Hval : forall r d v,
             _nodes t !! n = Some (Internal r d v) ->
             Left t n = Ret (unsigned_of_nat (n + 1))
             /\ Right t n = Ret r /\ Dim t n = Ret d /\ Val t n = Ret v).
  { intros r d v H. split; [|split; [|split]].
    - unfold Left. now rewrite (assert_internal _ _ _ _ _ H).
    - now apply Right_internal with d v.
    - now apply Dim_internal with r v.
    - now apply Val_internal with r d. }
  assert (Hback : IsLeaf t n = Ret false ->
                  (exists m, Left t n = Ret m) /\ (exists m, Right t n = Ret m)
                  /\ (exists m, Dim t n = Ret m) /\ (exists m, Val t n = Ret m)).
  { intros (r & d & v & H)%IsLeaf_false. destruct (Hval r d v H) as (? & ? & ? & ?). eauto 10. }
  assert (Hforth : forall A (k : outcome A),
             (exists m, (do _ <- POPSIFT_KDASSERT (is_internal t n); k) = Ret m) ->
             IsLeaf t n = Ret false).
  { intros A k [m H]. apply guarded_Ret in H. now apply IsLeaf_false, assert_internal_Ret. }
  split; [|split; [|split; [|split]]]; [split; [apply Hforth|apply Hback]..|exact Hval].
Qed.

(** X9.  The range of a leaf.  List returns a pair of positions exactly
    on a leaf whose end index is not past the end of the list of
    associations; the pair is then the begin and end index stored in the
    node.  On an internal node, and on a leaf whose end index is past the end
    of the list, it ends in the assertion failure. *)
Theorem List_range (t : KDTree) (n : nat) :
  (forall b e, List t n = Ret (b, e)
               <-> _nodes t !! n = Some (Leaf b e) /\ e <= length (_list t))
  /\ (IsLeaf t n = Ret false -> List t n = Throw KDAssertion)
  /\ (forall b e, _nodes t !! n = Some (Leaf b e) -> length (_list t) < e ->
                  List t n = Throw KDAssertion).
Proof.
  split; [|split].
  - intros b e. split.
    + unfold List, POPSIFT_KDASSERT, at_.
      destruct (_nodes t !! n) as [[r d v|b' e']|]; cbn; try discriminate.
      case_bool_decide as He; cbn; [|discriminate]. intros [= <- <-]. now split.
    + intros [H He]. now apply List_leaf.
  - intros (r & d & v & H)%IsLeaf_false. unfold List, POPSIFT_KDASSERT, at_. now rewrite H.
  - intros b e H He. unfold List, POPSIFT_KDASSERT, at_. rewrite H. cbn.
    rewrite bool_decide_eq_false_2 by lia. reflexivity.
Qed.

(** X10.  NodeCount and the node indices.  Every index below NodeCount is
    one on which IsLeaf returns; NodeCount is the size of the node array cast
    to [unsigned], so the converse holds when the array has fewer than 2^32
    nodes. *)
Theorem NodeCount_indices (t : KDTree) :
  (forall n, n < NodeCount t -> exists b, IsLeaf t n = Ret b)
  /\ ((Z.of_nat (length (_nodes t)) < 2 ^ 32)%Z ->
      forall n b, IsLeaf t n = Ret b -> n < NodeCount t).
Proof.
  split.
  - intros n Hn.
    assert (Hle : NodeCount t <= length (_nodes t)).
    { unfold NodeCount, unsigned_of_nat, to_unsigned.
      pose proof (Z.mod_le (Z.of_nat (length (_nodes t))) (2 ^ 32)).
      pose proof (Z.mod_pos_bound (Z.of_nat (length (_nodes t))) (2 ^ 32)). lia. }
    destruct (lookup_lt_is_Some_2 (_nodes t) n ltac:(lia)) as [nd Hnd].
    exists (leaf nd). apply IsLeaf_Ret. eauto.
  - intros Hlt n b (nd & Hnd & _)%IsLeaf_Ret. unfold NodeCount.
    rewrite unsigned_of_nat_small by trivial. now apply lookup_lt_Some in Hnd.
Qed.

(** ** Facts about the metric *)

Lemma clamp_inside (x lo hi : Z) : (lo <= x)%Z -> (x <= hi)%Z -> clamp x lo hi = x.
Proof.
  intros H1 H2. unfold clamp.
  destruct (Z.ltb_spec x lo); [lia|]. destruct (Z.ltb_spec hi x); [lia|reflexivity].
Qed.

Lemma clamp_closer (x lo hi y : Z) :
  (lo <= y)%Z -> (y <= hi)%Z ->
  (Z.abs (x - clamp x lo hi) <= Z.abs (x - y)
   /\ (x - clamp x lo hi) * (x - clamp x lo hi) <= (x - y) * (x - y))%Z.
Proof.
  intros H1 H2. unfold clamp.
  destruct (Z.ltb_spec x lo); [|destruct (Z.ltb_spec hi x)]; split; try lia.
  - replace ((x - lo) * (x - lo))%Z with ((lo - x) * (lo - x))%Z by ring.
    replace ((x - y) * (x - y))%Z with ((y - x) * (y - x))%Z by ring.
    apply Z.mul_le_mono_nonneg; lia.
  - apply Z.mul_le_mono_nonneg; lia.
  - replace ((x - x) * (x - x))%Z with 0%Z by ring. apply Z.square_nonneg.
Qed.

Lemma sum3_clamp (f : Z -> Z -> Z) (a : list Z) :
  forall lo hi,
    sum3 (fun x l h => f x (clamp x l h)) a lo hi = sum2 f a (clamp_list a lo hi).
Proof.
  induction a as [|x a IH]; intros [|l lo] [|h hi]; cbn; try reflexivity.
  now rewrite IH.
Qed.

Lemma sum3_clamp_inside (f : Z -> Z -> Z) (a : list Z) :
  (forall x, f x x = 0%Z) ->
  forall lo hi,
    Forall2 Z.le lo a -> Forall2 Z.le a hi ->
    sum3 (fun x l h => f x (clamp x l h)) a lo hi = 0%Z.
Proof.
  intros Hf. induction a as [|x a IH]; intros lo hi Hlo Hhi;
    inversion Hlo; inversion Hhi; subst; cbn; [reflexivity|].
  rewrite clamp_inside, Hf, IH; trivial.
Qed.

Lemma sum3_clamp_le (f : Z -> Z -> Z) (a : list Z) :
  (forall x lo hi y, (lo <= y)%Z -> (y <= hi)%Z -> (f x (clamp x lo hi) <= f x y)%Z) ->
  forall lo hi b,
    Forall2 Z.le lo b -> Forall2 Z.le b hi ->
    (sum3 (fun x l h => f x (clamp x l h)) a lo hi <= sum2 f a b)%Z.
Proof.
  intros Hf. induction a as [|x a IH]; intros lo hi b Hlo Hhi.
  - destruct lo, hi; cbn; lia.
  - destruct Hlo as [|l y lo b Hly Hlo].
    + inversion Hhi; subst. cbn. lia.
    + inversion Hhi as [|y' h b' hi' Hyh Hhi']; subst. cbn [sum3 sum2].
      specialize (IH lo hi' b Hlo Hhi'). specialize (Hf x l h y Hly Hyh). lia.
Qed.

Lemma sum2_bounds (f : Z -> Z -> Z) (c : Z) (a : list Z) :
  (forall x y, 0 <= x < 256 -> 0 <= y < 256 -> 0 <= f x y <= c)%Z ->
  forall b,
    Forall (fun x => 0 <= x < 256)%Z a -> Forall (fun x => 0 <= x < 256)%Z b ->
    (0 <= sum2 f a b <= c * Z.of_nat (length a))%Z.
Proof.
  intros Hf. induction a as [|x a IH]; intros b Ha Hb; cbn [sum2 length]; [lia|].
  apply Forall_cons in Ha as [Hx Ha]. pose proof (Hf x x Hx Hx) as Hc.
  destruct b as [|y b]; [nia|].
  apply Forall_cons in Hb as [Hy Hb].
  specialize (IH b Ha Hb). specialize (Hf x y Hx Hy). nia.
Qed.

Lemma sum3_nonneg (f : Z -> Z -> Z -> Z) (a : list Z) :
  (forall x l h, 0 <= f x l h)%Z -> forall lo hi, (0 <= sum3 f a lo hi)%Z.
Proof.
  intros Hf. induction a as [|x a IH]; intros [|l lo] [|h hi]; cbn; try lia.
  specialize (IH lo hi). specialize (Hf x l h). lia.
Qed.

Lemma to_unsigned_small (z : Z) : (0 <= z < 2 ^ 32)%Z -> to_unsigned z = z.
Proof. intros H. unfold to_unsigned. now apply Z.mod_small. Qed.

Lemma byte_square_bound (x y : Z) :
  (0 <= x < 256 -> 0 <= y < 256 -> 0 <= (x - y) * (x - y) <= 65025)%Z.
Proof.
  intros Hx Hy. split; [apply Z.square_nonneg|].
  change 65025%Z with (255 * 255)%Z.
  destruct (Z.le_ge_cases x y).
  - replace ((x - y) * (x - y))%Z with ((y - x) * (y - x))%Z by ring.
    apply Z.mul_le_mono_nonneg; lia.
  - apply Z.mul_le_mono_nonneg; lia.
Qed.

Lemma L1Distance_fits (a b : U8Descriptor) :
  is_descriptor a -> is_descriptor b ->
  L1Distance a b = sum2 (fun x y => Z.abs (x - y)) (ufeatures a) (ufeatures b)
  /\ (L1Distance a b <= 32640)%Z.
Proof.
  intros [Hla Ha] [Hlb Hb].
  pose proof (sum2_bounds (fun x y => Z.abs (x - y)) 255 (ufeatures a)
                ltac:(intros; lia) (ufeatures b) Ha Hb) as H.
  rewrite Hla in H. unfold L1Distance. rewrite to_unsigned_small; lia.
Qed.

Lemma L2DistanceSquared_fits (a b : U8Descriptor) :
  is_descriptor a -> is_descriptor b ->
  L2DistanceSquared a b
  = sum2 (fun x y => (x - y) * (x - y))%Z (ufeatures a) (ufeatures b)
  /\ (L2DistanceSquared a b <= 8323200)%Z.
Proof.
  intros [Hla Ha] [Hlb Hb].
  pose proof (sum2_bounds (fun x y => (x - y) * (x - y))%Z 65025 (ufeatures a)
                byte_square_bound (ufeatures b) Ha Hb) as H.
  rewrite Hla in H. unfold L2DistanceSquared. rewrite to_unsigned_small; lia.
Qed.

Lemma clamp_between (x lo hi : Z) : (lo <= hi)%Z -> (lo <= clamp x lo hi <= hi)%Z.
Proof.
  intros H. unfold clamp.
  destruct (Z.ltb_spec x lo); [lia|]. destruct (Z.ltb_spec hi x); lia.
Qed.

Lemma clamp_list_between (a : list Z) :
  forall lo hi,
    length lo = length a -> Forall2 Z.le lo hi ->
    length (clamp_list a lo hi) = length a
    /\ Forall2 Z.le lo (clamp_list a lo hi) /\ Forall2 Z.le (clamp_list a lo hi) hi.
Proof.
  induction a as [|x a IH]; intros lo hi Hlen H; destruct H as [|l h lo hi Hlh H];
    cbn [length clamp_list] in *; try discriminate.
  - repeat split; constructor.
  - destruct (IH lo hi) as (Hl & H1 & H2); [lia|trivial|].
    pose proof (clamp_between x l h Hlh).
    split; [lia|]. split; constructor; trivial; lia.
Qed.

Lemma bytes_between (lo c hi : list Z) :
  Forall2 Z.le lo c -> Forall2 Z.le c hi ->
  Forall (fun x => 0 <= x < 256)%Z lo -> Forall (fun x => 0 <= x < 256)%Z hi ->
  Forall (fun x => 0 <= x < 256)%Z c.
Proof.
  intros H. revert hi. induction H as [|l x lo c Hlx _ IH]; intros hi Hhi Hlo Hh.
  - constructor.
  - inversion Hhi as [|x' h c' hi' Hxh Hhi']; subst.
    apply Forall_cons in Hlo as [Hl Hlo]. apply Forall_cons in Hh as [Hh Hh'].
    constructor; [lia|]. now apply (IH hi').
Qed.

(** C6.  The distance of a descriptor to a box is its distance to the
    descriptor clamped into the box, and the clamped descriptor is a
    descriptor that lies in the box, so that the distance to the box is the
    distance to one of its points; it is 0 when the descriptor lies in the
    box; and, for descriptors of 128 bytes, it is at most the distance to any
    descriptor that lies in the box.  For L1 and for L2 squared. *)
Theorem box_distance_lower_bound (d : U8Descriptor) (B : BoundingBox) :
  (L1Distance_box d B = L1Distance d (clamp_into d B)
   /\ L2DistanceSquared_box d B = L2DistanceSquared d (clamp_into d B))
  /\ (is_descriptor d -> box_wf B ->
      is_descriptor (clamp_into d B) /\ inside (clamp_into d B) B)
  /\ (inside d B -> L1Distance_box d B = 0%Z /\ L2DistanceSquared_box d B = 0%Z)
  /\ (forall x, is_descriptor d -> is_descriptor x -> inside x B ->
                (L1Distance_box d B <= L1Distance d x)%Z
                /\ (L2DistanceSquared_box d B <= L2DistanceSquared d x)%Z).
Proof.
  split; [|split; [|split]].
  - unfold L1Distance_box, L2DistanceSquared_box, L1Distance, L2DistanceSquared, clamp_into.
    cbn [ufeatures].
    rewrite (sum3_clamp (fun x y => Z.abs (x - y))).
    now rewrite (sum3_clamp (fun x y => (x - y) * (x - y))%Z).
  - intros [Hld Hd] ([Hlmin Hmin] & [Hlmax Hmax] & Hle).
    destruct (clamp_list_between (ufeatures d) (ufeatures (min B)) (ufeatures (max B)))
      as (Hl & H1 & H2); [congruence|trivial|].
    unfold is_descriptor, inside, clamp_into. cbn [ufeatures].
    split; [split; [congruence|]|split; trivial].
    now apply (bytes_between (ufeatures (min B)) _ (ufeatures (max B))).
  - intros [Hlo Hhi]. unfold L1Distance_box, L2DistanceSquared_box.
    rewrite (sum3_clamp_inside (fun x y => Z.abs (x - y))); trivial; [|intros; lia].
    rewrite (sum3_clamp_inside (fun x y => (x - y) * (x - y))%Z); trivial; [|intros; lia].
    split; reflexivity.
  - intros x Hd Hx [Hlo Hhi].
    destruct (L1Distance_fits d x Hd Hx) as [E1 B1].
    destruct (L2DistanceSquared_fits d x Hd Hx) as [E2 B2].
    pose proof (sum3_clamp_le (fun x y => Z.abs (x - y)) (ufeatures d)
                  ltac:(intros; now apply clamp_closer) _ _ _ Hlo Hhi) as L1.
    pose proof (sum3_clamp_le (fun x y => (x - y) * (x - y))%Z (ufeatures d)
                  ltac:(intros; now apply clamp_closer) _ _ _ Hlo Hhi) as L2.
    pose proof (sum3_nonneg (fun x l h => Z.abs (x - clamp x l h)) (ufeatures d)
                  ltac:(intros; lia) (ufeatures (min B)) (ufeatures (max B))) as N1.
    pose proof (sum3_nonneg (fun x l h => (x - clamp x l h) * (x - clamp x l h))%Z
                  (ufeatures d) ltac:(intros; apply Z.square_nonneg)
                  (ufeatures (min B)) (ufeatures (max B)))
      as N2.
    cbv beta in L1, L2. unfold L1Distance_box, L2DistanceSquared_box.
    rewrite !to_unsigned_small; lia.
Qed.

(** ** Facts about a built tree *)

Lemma slice_app {A} (a m z : nat) (L : list A) :
  a <= m <= z -> slice a m L ++ slice m z L = slice a z L.
Proof.
  intros H. unfold slice.
  replace (drop m L) with (drop (m - a) (drop a L)) by (rewrite drop_drop; f_equal; lia).
  rewrite take_take_drop. f_equal. lia.
Qed.

Lemma tiles_le a z rs : tiles a z rs -> Forall (fun be => fst be <= snd be) rs -> a <= z.
Proof.
  revert a. induction rs as [|[b e] rs IH]; intros a; cbn [tiles].
  - intros ->. lia.
  - intros [-> H] [Hle Hf]%Forall_cons. cbn in Hle. specialize (IH _ H Hf). lia.
Qed.

Lemma tiles_concat {A} a z rs (L : list A) :
  tiles a z rs -> Forall (fun be => fst be <= snd be) rs ->
  concat (map (fun be => slice (fst be) (snd be) L) rs) = slice a z L.
Proof.
  revert a. induction rs as [|[b e] rs IH]; intros a; cbn [tiles map concat].
  - intros -> _. unfold slice. now rewrite Nat.sub_diag.
  - intros [-> H] [Hle Hf]%Forall_cons. cbn [fst snd] in *.
    rewrite (IH _ H Hf). apply slice_app. split; [trivial|]. eapply tiles_le; eauto.
Qed.

Lemma slice_all {A} (L : list A) : slice 0 (length L) L = L.
Proof. unfold slice. rewrite Nat.sub_0_r. cbn [drop]. apply firstn_all. Qed.

Section BuiltTree.

Variable descriptors : list U8Descriptor.
Variable leaf_size : nat.
Variable choose_split : nat -> list DescriptorAssociation -> nat * nat.
Variable degenerate : nat -> list DescriptorAssociation -> option nat.
Variable image_indexes : list nat.
Variable dcount : nat.

Abbreviation KDTree_Build :=
  (KDTree_Build descriptors leaf_size choose_split degenerate image_indexes dcount).

Lemma length_initial_list : length (initial_list image_indexes dcount) = dcount.
Proof. unfold initial_list. now rewrite length_map, length_seq. Qed.

Lemma global_index_initial_list :
  map global_index (initial_list image_indexes dcount) = seq 0 dcount.
Proof. unfold initial_list. rewrite map_map. cbn [global_index]. apply map_id. Qed.

Lemma KDTree_Build_inv t :
  KDTree_Build = Some t ->
  1 <= dcount /\ 1 <= leaf_size
  /\ Build_range descriptors leaf_size choose_split degenerate dcount 0 0
       (initial_list image_indexes dcount) = Some (_nodes t, _bb t, _list t)
  /\ _descriptors t = descriptors /\ _dcount t = dcount /\ _leaf_size t = leaf_size.
Proof.
  unfold kdtree.KDTree_Build. case_decide as Hz; [discriminate|].
  destruct (Build_range descriptors leaf_size choose_split degenerate dcount 0 0
              (initial_list image_indexes dcount)) as [[[ns bs] lst]|]; [|discriminate].
  intros [= <-]. cbn. repeat split; lia.
Qed.

Lemma KDTree_Build_total : 1 <= dcount -> 1 <= leaf_size -> is_Some KDTree_Build.
Proof.
  intros Hd Hl. unfold kdtree.KDTree_Build. rewrite decide_False by lia.
  destruct (Build_range_total descriptors leaf_size choose_split degenerate dcount 0 0
              (initial_list image_indexes dcount)) as [[[ns bs] lst] ->]; [trivial| |eauto].
  rewrite length_initial_list. lia.
Qed.

(* the tree is stored without loss when the positions of the list and the
   indices of the nodes fit the 31 bits of [index] *)
Lemma built_root t :
  KDTree_Build = Some t ->
  (Z.of_nat dcount <= 2 ^ 31)%Z ->
  (Z.of_nat (length (_nodes t)) <= 2 ^ 31)%Z ->
  subtree t 0 (length (_nodes t)) (_list t) (leaf_count t).
Proof.
  intros H Hwd Hwn. destruct (KDTree_Build_inv t H) as (Hd & Hl & Hb & _ & _ & Hls).
  eapply Build_range_subtree; eauto using seg_at_refl; rewrite ?length_initial_list; lia.
Qed.

Lemma built_node t n :
  KDTree_Build = Some t ->
  (Z.of_nat dcount <= 2 ^ 31)%Z ->
  (Z.of_nat (length (_nodes t)) <= 2 ^ 31)%Z ->
  n < length (_nodes t) ->
  exists sz items c, subtree t n sz items c /\ n + sz <= length (_nodes t).
Proof.
  intros H Hwd Hwn Hn.
  destruct (subtree_cover _ _ _ _ _ (built_root t H Hwd Hwn) n) as (sz & it & c & Hs & Hle);
    [lia|]. exists sz, it, c. split; [trivial|lia].
Qed.

Lemma built_list t :
  KDTree_Build = Some t ->
  length (_list t) = dcount /\ _list t ≡ₚ initial_list image_indexes dcount
  /\ map global_index (_list t) ≡ₚ seq 0 dcount.
Proof.
  intros H. destruct (KDTree_Build_inv t H) as (Hd & Hl & Hb & _ & _ & Hls).
  destruct (Build_range_shape _ _ _ _ _ _ _ _ _ _ _ Hb) as (_ & _ & Hp).
  split; [|split].
  - rewrite (Permutation_length Hp). apply length_initial_list.
  - exact Hp.
  - rewrite <- global_index_initial_list. now apply Permutation_map.
Qed.

Lemma initial_list_valid :
  store_ok descriptors dcount ->
  Forall (fun a => is_descriptor (descriptor_of descriptors a))
         (initial_list image_indexes dcount).
Proof.
  intros [Hlen Hv]. apply Forall_forall. intros a Ha.
  assert (Hg : global_index a ∈ seq 0 dcount).
  { rewrite <- global_index_initial_list. apply list_elem_of_fmap. eauto. }
  apply elem_of_seq in Hg. unfold descriptor_of.
  destruct (lookup_lt_is_Some_2 descriptors (global_index a)) as [d Hd]; [lia|].
  rewrite Hd. cbn. rewrite Forall_forall in Hv. apply Hv. now apply list_elem_of_lookup_2 in Hd.
Qed.

Lemma built_boxed t n :
  KDTree_Build = Some t -> store_ok descriptors dcount ->
  (Z.of_nat dcount <= 2 ^ 31)%Z ->
  (Z.of_nat (length (_nodes t)) <= 2 ^ 31)%Z ->
  n < length (_nodes t) -> node_boxed t n.
Proof.
  intros H Hs Hwd Hwn Hn. destruct (KDTree_Build_inv t H) as (Hd & Hl & Hb & Hdesc & _ & Hls).
  destruct (Build_range_boxed descriptors leaf_size choose_split degenerate
              _ _ _ _ _ _ _ t Hb) as [_ Hbx];
    [trivial|rewrite length_initial_list; lia|lia|rewrite length_initial_list; lia
    |now apply initial_list_valid|exact Hdesc|apply seg_at_refl..|].
  now apply (Hbx n).
Qed.

(** Every node of a built tree is within the widths of struct Node. *)
Lemma built_nodes_fit t : KDTree_Build = Some t -> Forall node_fits (_nodes t).
Proof.
  intros H. destruct (KDTree_Build_inv t H) as (_ & _ & Hb & _).
  eapply Build_range_fits; exact Hb.
Qed.

(** C7.  KDTree::Build returns the null pointer, and so constructs no tree,
    exactly when [dcount] or [leaf_size] is zero; otherwise it returns a
    tree. *)
Theorem KDTree_Build_fails_iff_zero :
  KDTree_Build = None <-> dcount = 0 \/ leaf_size = 0.
Proof.
  split.
  - intros H. destruct (decide (dcount = 0 \/ leaf_size = 0)) as [|Hn]; [trivial|exfalso].
    destruct KDTree_Build_total as [t Ht]; [lia|lia|congruence].
  - intros H. unfold kdtree.KDTree_Build. now rewrite decide_True.
Qed.

(** C3.  In a built tree node 0 is the root: the subtree at node 0 is the
    whole node array, over the whole association list.  For an internal node
    [n], Left is [n + 1] and Right is an index greater than [n], inside the
    array.  The right link of a node and the begin of a leaf are kept in the
    31 bits of the index field: the count of descriptors and the count of
    nodes are taken to be at most 2^31, so that every position of the list
    and every node index is kept as it is. *)
Theorem built_tree_links t :
  KDTree_Build = Some t ->
  (Z.of_nat dcount <= 2 ^ 31)%Z ->
  (Z.of_nat (length (_nodes t)) <= 2 ^ 31)%Z ->
  Root t = 0
  /\ subtree t (Root t) (length (_nodes t)) (_list t) (leaf_count t)
  /\ forall n, IsLeaf t n = Ret false ->
               Left t n = Ret (n + 1)
               /\ exists r, Right t n = Ret r /\ n < r /\ r < length (_nodes t).
Proof.
  intros H Hwd Hwn. split; [reflexivity|]. split; [now apply built_root|].
  intros n Hn. apply IsLeaf_Ret in Hn as (nd & Hnd & Hleaf).
  destruct (built_node t n H Hwd Hwn) as (sz & items & c & Hs & Hle);
    [now apply lookup_lt_Some in Hnd|].
  inversion Hs as [n' b e Hn' | n' r d v sl il cl sr ir cr Hn' Hb Hr Hsl Hsr]; subst;
    rewrite Hnd in Hn'; injection Hn' as ->; [discriminate|].
  destruct (subtree_size _ _ _ _ _ Hsl), (subtree_size _ _ _ _ _ Hsr).
  split.
  - eapply Left_internal; [exact Hnd|]. lia.
  - exists (n + 1 + sl). split; [eapply Right_internal; exact Hnd|lia].
Qed.


(** C5.  In a tree built over a store of [dcount] descriptors of 128 bytes,
    the box of an internal node contains, component by component, the boxes
    of its two children, and the box of a leaf contains every descriptor
    that the range of the leaf refers to.  The right link of a node and the
    begin of a leaf are kept in the 31 bits of the index field: the count of
    descriptors and the count of nodes are taken to be at most 2^31. *)
Theorem built_tree_boxes t :
  KDTree_Build = Some t ->
  store_ok descriptors dcount ->
  (Z.of_nat dcount <= 2 ^ 31)%Z ->
  (Z.of_nat (length (_nodes t)) <= 2 ^ 31)%Z ->
  forall n,
    (IsLeaf t n = Ret false ->
     exists r box boxl boxr,
       Right t n = Ret r /\ BB t n = Ret box /\ BB t (n + 1) = Ret boxl /\ BB t r = Ret boxr
       /\ contains box boxl /\ contains box boxr)
    /\ (IsLeaf t n = Ret true ->
        exists b e box,
          List t n = Ret (b, e) /\ BB t n = Ret box
          /\ forall i a, b <= i < e -> _list t !! i = Some a ->
                         inside (descriptor_of descriptors a) box).
Proof.
  intros H Hs Hwd Hwn n.
  destruct (KDTree_Build_inv t H) as (_ & _ & _ & Hdesc & _ & _).
  split; intros Hn; apply IsLeaf_Ret in Hn as (nd & Hnd & Hleaf);
    pose proof (built_boxed t n H Hs Hwd Hwn (lookup_lt_Some _ _ _ Hnd)) as Hbx;
    unfold node_boxed in Hbx; rewrite Hnd in Hbx; destruct nd as [r d v|b e]; try discriminate.
  - destruct Hbx as (box & boxl & boxr & Hb & Hbl & Hbr & Hcl & Hcr).
    exists r, box, boxl, boxr. unfold BB. rewrite !at_Ret.
    split; [eapply Right_internal; exact Hnd|]. auto.
  - destruct Hbx as (box & Hb & Hin).
    destruct (built_node t n H Hwd Hwn) as (sz & items & c & Hsub & Hle);
      [now apply lookup_lt_Some in Hnd|].
    rewrite <- Hdesc. clear Hdesc.
    inversion Hsub as [n' b' e' Hn' Hbb Hlt He | n' r d v sl il cl sr ir cr Hn']; subst;
      rewrite Hnd in Hn'; [injection Hn' as <- <-|discriminate].
    exists b, e, box. split; [now apply List_leaf|]. split; [now apply at_Ret|].
    intros i a Hi Ha. rewrite Forall_forall in Hin. apply Hin.
    apply list_elem_of_lookup. exists (i - b). unfold slice.
    rewrite lookup_take, lookup_drop. rewrite decide_True by lia.
    now replace (b + (i - b)) with i by lia.
Qed.

End BuiltTree.

(** ** Facts about the accumulator *)

Lemma nearest_same_elements f U U' a :
  (forall x, x ∈ U <-> x ∈ U') -> nearest f U a -> nearest f U' a.
Proof. intros H [Ha Hmin]. split; [now apply H|]. intros x Hx. now apply Hmin, H. Qed.

Lemma second_nearest_same_elements f U U' a s :
  (forall x, x ∈ U <-> x ∈ U') -> second_nearest f U a s -> second_nearest f U' a s.
Proof.
  intros H. destruct s as [b|]; cbn.
  - intros (Hb & Hne & Hmin). split; [now apply H|]. split; [trivial|].
    intros x Hx. now apply Hmin, H.
  - intros Hall x Hx. now apply Hall, H.
Qed.

(* what an accumulator holds depends on the associations met, not on their
   order or on how often each was met *)
Lemma holds_nearest_same_elements f U U' acc :
  (forall x, x ∈ U <-> x ∈ U') -> holds_nearest f U acc -> holds_nearest f U' acc.
Proof.
  intros H. unfold holds_nearest. destruct (best acc) as [a|].
  - intros (Hn & Hd0 & Hs & Hd1). split; [now apply (nearest_same_elements f U)|].
    split; [trivial|]. split; [now apply (second_nearest_same_elements f U)|trivial].
  - intros (-> & Hs). split; [|exact Hs].
    destruct U' as [|x U']; [reflexivity|]. exfalso.
    assert (Hx : x ∈ ([] : list DescriptorAssociation)) by (apply H, elem_of_cons; now left).
    inversion Hx.
Qed.

Lemma elem_of_snoc {A} (l : list A) (a x : A) : x ∈ l ++ [a] <-> x ∈ l \/ x = a.
Proof. rewrite elem_of_app, list_elem_of_singleton. tauto. Qed.

Section ScanFacts.

Variable descriptors : list U8Descriptor.
Variable q : U8Descriptor.

Abbreviation scan := (scan descriptors q).
Abbreviation dist_to := (dist_to descriptors q).

Lemma scan_app l l' acc : scan (l ++ l') acc = scan l' (scan l acc).
Proof. apply fold_left_app. Qed.

(* the distance of an association is the distance of its descriptor *)
Lemma dist_to_global_index a b : global_index a = global_index b -> dist_to a = dist_to b.
Proof. intros H. unfold kdtree.dist_to, descriptor_of. now rewrite H. Qed.

Lemma holds_nearest_no_match : holds_nearest dist_to [] no_match.
Proof. unfold holds_nearest, no_match. cbn. auto. Qed.

(** One update: the accumulator holds a nearest and a second nearest of the
    associations met so far, the new one among them. *)
Lemma holds_nearest_Update U acc a :
  holds_nearest dist_to U acc -> (dist_to a < UINT_MAX)%Z ->
  holds_nearest dist_to (U ++ [a]) (Update acc (dist_to a) a).
Proof.
  intros H Ha. unfold holds_nearest in H. unfold Update, same_descriptor.
  destruct (best acc) as [a0|] eqn:Eb.
  - destruct H as ([Ha0 Hmin] & Hd0 & Hsec & Hd1).
    assert (Hkeep : (dist_to a0 <= dist_to a)%Z ->
                    (match second acc with
                     | Some b => global_index a <> global_index a0 -> (dist_to b <= dist_to a)%Z
                     | None => global_index a = global_index a0
                     end) ->
                    holds_nearest dist_to (U ++ [a]) acc).
    { intros Hle Hsnd. unfold holds_nearest. rewrite Eb.
      split; [split; [apply elem_of_snoc; now left|]|].
      { intros x [Hx| ->]%elem_of_snoc; [now apply Hmin|exact Hle]. }
      split; [exact Hd0|]. split; [|exact Hd1].
      destruct (second acc) as [b0|]; cbn [second_nearest] in *.
      - destruct Hsec as (Hb & Hne & Hm). split; [apply elem_of_snoc; now left|].
        split; [exact Hne|]. intros x [Hx| ->]%elem_of_snoc Hxg; [now apply Hm|now apply Hsnd].
      - intros x [Hx| ->]%elem_of_snoc; [now apply Hsec|exact Hsnd]. }
    destruct (Nat.eqb_spec (global_index a0) (global_index a)) as [Eg|Ng]; cbn [orb].
    { apply Hkeep.
      - rewrite (dist_to_global_index a0 a Eg). lia.
      - destruct (second acc); [congruence|now symmetry]. }
    destruct (second acc) as [b0|] eqn:Es; cbn [second_nearest] in Hsec.
    + destruct Hsec as (Hb & Hne & Hm).
      destruct (Nat.eqb_spec (global_index b0) (global_index a)) as [Eg'|Ng'].
      { apply Hkeep.
        - apply Hmin in Hb. rewrite <- (dist_to_global_index b0 a Eg'). exact Hb.
        - intros _. rewrite (dist_to_global_index b0 a Eg'). lia. }
      rewrite Hd0, Hd1.
      destruct (Z.ltb_spec (dist_to a) (dist_to a0)) as [Hlt|Hge];
        [|destruct (Z.ltb_spec (dist_to a) (dist_to b0)) as [Hlt'|Hge']].
      * unfold holds_nearest. cbn [best second distance0 distance1 second_nearest].
        split; [split; [apply elem_of_snoc; now right|]|].
        { intros x [Hx| ->]%elem_of_snoc; [apply Hmin in Hx; lia|lia]. }
        split; [reflexivity|]. split; [|reflexivity].
        split; [apply elem_of_snoc; now left|]. split; [exact Ng|].
        intros x [Hx| ->]%elem_of_snoc Hxg; [now apply Hmin|congruence].
      * unfold holds_nearest. cbn [best second distance0 distance1 second_nearest].
        split; [split; [apply elem_of_snoc; now left|]|].
        { intros x [Hx| ->]%elem_of_snoc; [now apply Hmin|exact Hge]. }
        split; [reflexivity|]. split; [|reflexivity].
        split; [apply elem_of_snoc; now right|]. split; [congruence|].
        intros x [Hx| ->]%elem_of_snoc Hxg; [apply Hm in Hx; [lia|exact Hxg]|lia].
      * apply Hkeep; [exact Hge|]. intros _. exact Hge'.
    + cbn [orb]. rewrite Hd0, Hd1.
      destruct (Z.ltb_spec (dist_to a) (dist_to a0)) as [Hlt|Hge];
        [|destruct (Z.ltb_spec (dist_to a) UINT_MAX) as [Hlt'|Hge']; [|lia]].
      * unfold holds_nearest. cbn [best second distance0 distance1 second_nearest].
        split; [split; [apply elem_of_snoc; now right|]|].
        { intros x [Hx| ->]%elem_of_snoc; [apply Hmin in Hx; lia|lia]. }
        split; [reflexivity|]. split; [|reflexivity].
        split; [apply elem_of_snoc; now left|]. split; [exact Ng|].
        intros x [Hx| ->]%elem_of_snoc Hxg; [now apply Hmin|congruence].
      * unfold holds_nearest. cbn [best second distance0 distance1 second_nearest].
        split; [split; [apply elem_of_snoc; now left|]|].
        { intros x [Hx| ->]%elem_of_snoc; [now apply Hmin|exact Hge]. }
        split; [reflexivity|]. split; [|reflexivity].
        split; [apply elem_of_snoc; now right|]. split; [congruence|].
        intros x [Hx| ->]%elem_of_snoc Hxg; [apply Hsec in Hx; congruence|lia].
  - destruct H as (-> & Hs & Hd0 & Hd1). rewrite Hs. cbn [orb]. rewrite Hd0.
    destruct (Z.ltb_spec (dist_to a) UINT_MAX) as [_|Hge]; [|lia].
    unfold holds_nearest. cbn [best second distance0 distance1 second_nearest app].
    split; [split; [apply elem_of_cons; now left|]|].
    { intros x ->%list_elem_of_singleton. lia. }
    split; [reflexivity|]. split; [|reflexivity].
    intros x ->%list_elem_of_singleton. reflexivity.
Qed.

(** The scan of associations at less than the maximal distance. *)
Lemma holds_nearest_scan l :
  forall U acc,
    holds_nearest dist_to U acc ->
    Forall (fun a => dist_to a < UINT_MAX)%Z l ->
    holds_nearest dist_to (U ++ l) (scan l acc).
Proof.
  induction l as [|a l IH]; intros U acc H Hl; cbn [kdtree.scan fold_left].
  - now rewrite app_nil_r.
  - apply Forall_cons in Hl as [Ha Hl].
    replace (U ++ a :: l) with ((U ++ [a]) ++ l) by now rewrite <- app_assoc.
    apply IH; [|exact Hl]. now apply holds_nearest_Update.
Qed.

(* the second nearest of one accumulator is not farther than the one of
   another over the same associations *)
Lemma second_nearest_le U a a' b b' :
  nearest dist_to U a -> nearest dist_to U a' ->
  second_nearest dist_to U a (Some b) -> second_nearest dist_to U a' (Some b') ->
  (dist_to b <= dist_to b')%Z.
Proof.
  intros [Ha Hmin] [Ha' Hmin'] (Hb & Hne & Hm) (Hb' & Hne' & Hm').
  destruct (decide (global_index b' = global_index a)) as [E|N].
  - rewrite (dist_to_global_index b' a E).
    assert (Hle : (dist_to b <= dist_to a')%Z) by (apply Hm; [trivial|congruence]).
    specialize (Hmin' a Ha). lia.
  - now apply Hm.
Qed.

(** Two accumulators that hold the nearest and second nearest of the same
    associations hold neighbours at the same distances; and the same
    neighbours, when no two of the associations are at the same distance. *)
Lemma holds_nearest_agree U acc acc' :
  holds_nearest dist_to U acc -> holds_nearest dist_to U acc' ->
  (dist_to <$> best acc = dist_to <$> best acc'
   /\ dist_to <$> second acc = dist_to <$> second acc')
  /\ (NoDup (map dist_to U) -> best acc = best acc' /\ second acc = second acc').
Proof.
  intros H H'.
  assert (Hinj : NoDup (map dist_to U) ->
                 forall x y, x ∈ U -> y ∈ U -> dist_to x = dist_to y -> x = y).
  { clear. induction U as [|u U IH]; intros Hnd x y Hx Hy E; [inversion Hx|].
    cbn [map] in Hnd. apply NoDup_cons in Hnd as [Hu Hnd].
    apply elem_of_cons in Hx as [->|Hx]; apply elem_of_cons in Hy as [->|Hy]; trivial.
    - exfalso. apply Hu. rewrite E. apply list_elem_of_fmap. eauto.
    - exfalso. apply Hu. rewrite <- E. apply list_elem_of_fmap. eauto.
    - now apply IH. }
  unfold holds_nearest in H, H'.
  destruct (best acc) as [a|], (best acc') as [a'|].
  - destruct H as (Hn & Hd0 & Hs & Hd1), H' as (Hn' & Hd0' & Hs' & Hd1').
    assert (E0 : dist_to a = dist_to a').
    { destruct Hn as [Ha Hmin], Hn' as [Ha' Hmin'].
      specialize (Hmin a' Ha'). specialize (Hmin' a Ha). lia. }
    assert (E1 : dist_to <$> second acc = dist_to <$> second acc').
    { destruct (second acc) as [b|], (second acc') as [b'|]; cbn [fmap option_fmap option_map].
      - f_equal. apply Z.le_antisymm.
        + exact (second_nearest_le U a a' b b' Hn Hn' Hs Hs').
        + exact (second_nearest_le U a' a b' b Hn' Hn Hs' Hs).
      - exfalso. cbn in Hs, Hs'. destruct Hs as (Hb & Hne & _), Hn as [Ha _].
        apply Hne. rewrite (Hs' b Hb), (Hs' a Ha). reflexivity.
      - exfalso. cbn in Hs, Hs'. destruct Hs' as (Hb & Hne & _), Hn' as [Ha _].
        apply Hne. rewrite (Hs b' Hb), (Hs a' Ha). reflexivity.
      - reflexivity. }
    split; [split; [cbn; now rewrite E0|exact E1]|].
    intros Hnd. specialize (Hinj Hnd).
    assert (a = a') as <- by (apply Hinj; [apply Hn|apply Hn'|exact E0]).
    split; [reflexivity|].
    destruct (second acc) as [b|], (second acc') as [b'|]; try discriminate; [|reflexivity].
    cbn in E1. injection E1 as E1. f_equal. apply Hinj; [apply Hs|apply Hs'|exact E1].
  - destruct H as ([Ha _] & _), H' as (-> & _). inversion Ha.
  - destruct H' as ([Ha _] & _), H as (-> & _). inversion Ha.
  - destruct H as (_ & -> & _), H' as (_ & -> & _). auto.
Qed.

End ScanFacts.

(** ** Facts about the search *)

Lemma subtree_bound t n sz items c : subtree t n sz items c -> n + sz <= length (_nodes t).
Proof.
  induction 1 as [n b e Hn|n r d v sl il cl sr ir cr Hn Hb Hr Hl IHl Hrt IHr].
  - apply lookup_lt_Some in Hn. lia.
  - lia.
Qed.

Lemma subtree_bb t n sz items c : subtree t n sz items c -> is_Some (_bb t !! n).
Proof. now destruct 1. Qed.

Lemma slice_cons {A} (L : list A) b k a :
  L !! b = Some a -> slice b (b + S k) L = a :: slice (S b) (S b + k) L.
Proof.
  intros H. unfold slice. rewrite (drop_S _ _ _ H).
  replace (b + S k - b) with (S k) by lia. replace (S b + k - S b) with k by lia.
  reflexivity.
Qed.

Lemma pop_min_None pq : pop_min pq = None <-> pq = [].
Proof.
  destruct pq as [|e pq]; cbn; [tauto|].
  destruct (pop_min pq) as [[m rest]|]; [destruct (bound m <? bound e)%Z|]; split; discriminate.
Qed.

Lemma pend_app F p1 i1 c1 p2 i2 c2 :
  pend F p1 i1 c1 -> pend F p2 i2 c2 -> pend F (p1 ++ p2) (i1 ++ i2) (c1 + c2).
Proof.
  induction 1 as [|e pq t sz it c its cs Ht Hs Hp IH]; intros H2; cbn; [exact H2|].
  rewrite <- app_assoc, <- Nat.add_assoc. econstructor; eauto.
Qed.

Lemma pend_empty F its cs : pend F [] its cs -> its = [] /\ cs = 0.
Proof. inversion 1. auto. Qed.

Lemma pend_no_leaves F pq its : pend F pq its 0 -> pq = [].
Proof.
  inversion 1 as [|e pq' t sz it c its' cs Ht Hs Hp]; subst; [reflexivity|].
  destruct (subtree_size _ _ _ _ _ Hs). lia.
Qed.

(** The pending subtree that is taken out, and what stays pending. *)
Lemma pop_min_pend F pq :
  forall e pq' its cs,
    pop_min pq = Some (e, pq') -> pend F pq its cs ->
    exists t sz it c its',
      F !! tree e = Some t /\ subtree t (node e) sz it c
      /\ pend F pq' its' (cs - c) /\ c <= cs /\ its ≡ₚ it ++ its'.
Proof.
  induction pq as [|e0 pq IH]; intros e pq' its cs Hpop Hp; [discriminate|].
  inversion Hp as [|e0' pq0 t sz it c its0 cs0 Ht Hs Hp0]; subst.
  cbn [pop_min] in Hpop. destruct (pop_min pq) as [[m rest]|] eqn:Em.
  - destruct (bound m <? bound e0)%Z.
    + injection Hpop as <- <-.
      destruct (IH _ _ _ _ eq_refl Hp0) as (t' & sz' & it' & c' & its' & Ht' & Hs' & Hp' & Hle & Hperm).
      exists t', sz', it', c', (it ++ its'). repeat split; trivial; [|lia|].
      * replace (c + cs0 - c') with (c + (cs0 - c')) by lia. econstructor; eauto.
      * rewrite Hperm. rewrite !app_assoc. apply Permutation_app_tail, Permutation_app_comm.
    + injection Hpop as <- <-. exists t, sz, it, c, its0. repeat split; trivial; [|lia].
      now replace (c + cs0 - c) with cs0 by lia.
  - injection Hpop as <- <-. apply pop_min_None in Em as ->.
    exists t, sz, it, c, its0. repeat split; trivial; [|lia].
    now replace (c + cs0 - c) with cs0 by lia.
Qed.

Section SearchFacts.

Variable descriptors : list U8Descriptor.
Variable q : U8Descriptor.
Variable F : list KDTree.
Hypothesis HF : Forall (tree_ok descriptors) F.

Abbreviation scan := (scan descriptors q).

Lemma scan_entries t :
  tree_ok descriptors t ->
  forall k b acc,
    b + k <= length (_list t) ->
    foldM (scan_entry q t) (seq b k) acc = Ret (scan (slice b (b + k) (_list t)) acc).
Proof.
  intros Hok. induction k as [|k IH]; intros b acc Hlen.
  - cbn. unfold slice. now rewrite Nat.add_0_r, Nat.sub_diag.
  - destruct (lookup_lt_is_Some_2 (_list t) b) as [a Ha]; [lia|].
    rewrite (slice_cons _ _ _ _ Ha). cbn [seq foldM].
    unfold scan_entry at 1. rewrite Ha.
    assert (Hg : global_index a < length descriptors).
    { pose proof (tree_refs _ _ Hok) as Hr. rewrite Forall_forall in Hr. apply Hr.
      now apply list_elem_of_lookup_2 in Ha. }
    destruct (lookup_lt_is_Some_2 descriptors _ Hg) as [d Hd].
    unfold Descriptors. rewrite (tree_store _ _ Hok), Hd. cbn [bind].
    rewrite IH by lia. cbn. unfold kdtree.dist_to, descriptor_of. now rewrite Hd.
Qed.

Lemma scan_leaf_spec t n b e acc :
  tree_ok descriptors t ->
  _nodes t !! n = Some (Leaf b e) -> b < e -> e <= length (_list t) ->
  scan_leaf q t n acc = Ret (scan (slice b e (_list t)) acc).
Proof.
  intros Hok Hn Hlt He. unfold scan_leaf. rewrite (List_leaf _ _ _ _ Hn He). cbn [bind].
  rewrite scan_entries by (trivial; lia). now replace (b + (e - b)) with e by lia.
Qed.

(** One descent: a leaf of the subtree is scanned and the siblings along the
    path are pending; together they hold the associations of the subtree. *)
Lemma descend_spec ti t :
  F !! ti = Some t ->
  forall n sz items c,
    subtree t n sz items c ->
    forall fuel pq acc,
      sz <= fuel ->
      exists new visited rest,
        descend q fuel ti t n pq acc = Ret (new ++ pq, scan visited acc)
        /\ pend F new rest (c - 1)
        /\ items ≡ₚ visited ++ rest.
Proof.
  intros Ht.
  assert (Hok : tree_ok descriptors t).
  { rewrite Forall_forall in HF. apply HF. now apply list_elem_of_lookup_2 in Ht. }
  induction 1 as [n b e Hn Hb Hlt He|n r d v sl il cl sr ir cr Hn Hb Hr Hl IHl Hrt IHr];
    intros fuel pq acc Hfuel.
  - destruct fuel as [|fuel]; [lia|]. cbn [descend].
    replace (IsLeaf t n) with (Ret (A:=bool) true)
      by (symmetry; apply IsLeaf_Ret; eauto).
    cbn [bind]. rewrite (scan_leaf_spec _ _ _ _ _ Hok Hn Hlt He). cbn [bind].
    exists [], (slice b e (_list t)), []. split; [reflexivity|]. split; [constructor|].
    now rewrite app_nil_r.
  - destruct fuel as [|fuel]; [lia|]. cbn [descend].
    replace (IsLeaf t n) with (Ret (A:=bool) false)
      by (symmetry; apply IsLeaf_Ret; eauto).
    cbn [bind].
    pose proof (subtree_bound _ _ _ _ _ Hl) as Hbl.
    pose proof (subtree_bound _ _ _ _ _ Hrt) as Hbr.
    pose proof (tree_fits _ _ Hok) as Hfit.
    destruct (subtree_size _ _ _ _ _ Hl) as [Hsl Hcl].
    destruct (subtree_size _ _ _ _ _ Hrt) as [Hsr Hcr].
    rewrite (Dim_internal _ _ _ _ _ Hn), (Val_internal _ _ _ _ _ Hn),
      (Left_internal _ _ _ _ _ Hn), (Right_internal _ _ _ _ _ Hn) by lia.
    cbn [bind].
    destruct (feature q d <=? Z.of_nat v)%Z.
    + destruct (subtree_bb _ _ _ _ _ Hrt) as [box Hbox].
      unfold BB, at_. rewrite Hbox. cbn [bind].
      destruct (IHl fuel ({| bound := L2DistanceSquared_box q box; tree := ti; node := r |} :: pq)
                    acc) as (new & visited & rest & Hd & Hp & Hperm); [lia|].
      exists (new ++ [{| bound := L2DistanceSquared_box q box; tree := ti; node := r |}]),
        visited, (rest ++ ir).
      split; [now rewrite Hd, <- app_assoc|]. split.
      * replace (cl + cr - 1) with ((cl - 1) + (cr + 0)) by lia.
        apply pend_app; [exact Hp|].
        rewrite <- (app_nil_r ir). econstructor; [exact Ht|exact Hrt|constructor].
      * rewrite Hperm. now rewrite app_assoc.
    + destruct (subtree_bb _ _ _ _ _ Hl) as [box Hbox].
      unfold BB, at_. rewrite Hbox. cbn [bind].
      destruct (IHr fuel ({| bound := L2DistanceSquared_box q box; tree := ti;
                             node := n + 1 |} :: pq)
                    acc) as (new & visited & rest & Hd & Hp & Hperm); [lia|].
      exists (new ++ [{| bound := L2DistanceSquared_box q box; tree := ti; node := n + 1 |}]),
        visited, (rest ++ il).
      split; [now rewrite Hd, <- app_assoc|]. split.
      * replace (cl + cr - 1) with ((cr - 1) + (cl + 0)) by lia.
        apply pend_app; [exact Hp|].
        rewrite <- (app_nil_r il). econstructor; [exact Ht|exact Hl|constructor].
      * rewrite Hperm. rewrite (Permutation_app_comm il). now rewrite app_assoc.
Qed.

Lemma descend_tree_spec ti t n sz items c pq acc :
  F !! ti = Some t -> subtree t n sz items c ->
  exists new visited rest,
    descend_tree q ti t n pq acc = Ret (new ++ pq, scan visited acc)
    /\ pend F new rest (c - 1)
    /\ items ≡ₚ visited ++ rest.
Proof.
  intros Ht Hs. unfold descend_tree. eapply descend_spec; eauto.
  pose proof (subtree_bound _ _ _ _ _ Hs). lia.
Qed.

(** With a budget of at least the number of pending leaves, the best-first
    loop scans every association under the pending subtrees. *)
Lemma best_first_all budget :
  forall pq acc its cs,
    pend F pq its cs -> cs <= budget ->
    exists visited,
      best_first F q budget pq acc = Ret (scan visited acc) /\ visited ≡ₚ its.
Proof.
  induction budget as [|budget IH]; intros pq acc its cs Hp Hle.
  - assert (cs = 0) as -> by lia. pose proof (pend_no_leaves _ _ _ Hp) as ->.
    apply pend_empty in Hp as [-> _]. exists []. now split.
  - cbn [best_first]. destruct (pop_min pq) as [[e pq']|] eqn:Epop.
    + destruct (pop_min_pend F _ _ _ _ _ Epop Hp)
        as (t & sz & it & c & its' & Ht & Hs & Hp' & Hc & Hperm).
      rewrite Ht.
      destruct (descend_tree_spec (tree e) t (node e) sz it c pq' acc Ht Hs)
        as (new & visited & rest & Hd & Hpn & Hpi).
      rewrite Hd. cbn [bind].
      destruct (subtree_size _ _ _ _ _ Hs) as [_ Hc1].
      destruct (IH (new ++ pq') (scan visited acc) (rest ++ its') ((c - 1) + (cs - c)))
        as (visited' & Hb & Hv); [now apply pend_app|lia|].
      exists (visited ++ visited'). split.
      * rewrite Hb. now rewrite scan_app.
      * rewrite Hv, Hperm, Hpi. now rewrite app_assoc.
    + apply pop_min_None in Epop as ->. apply pend_empty in Hp as [-> _].
      exists []. now split.
Qed.

(** The descents from the roots, with a budget that covers the pending
    leaves and the leaves of the trees still to come. *)
Lemma visit_roots_all (ts : list KDTree) :
  forall budget ti pq acc its cs,
    pend F pq its cs ->
    (forall i t, ts !! i = Some t -> F !! (ti + i) = Some t) ->
    cs + total_leaves ts <= budget ->
    exists budget' pq' visited its' cs',
      visit_roots q budget ti ts pq acc = Ret (budget', pq', scan visited acc)
      /\ pend F pq' its' cs' /\ cs' <= budget'
      /\ visited ++ its' ≡ₚ its ++ concat (map _list ts).
Proof.
  induction ts as [|t ts IH]; intros budget ti pq acc its cs Hp Hts Hle.
  - exists budget, pq, [], its, cs. cbn in *. split; [reflexivity|].
    split; [exact Hp|]. split; [lia|]. now rewrite app_nil_r.
  - assert (Ht : F !! ti = Some t).
    { rewrite <- (Nat.add_0_r ti). now apply Hts. }
    assert (Hok : tree_ok descriptors t).
    { rewrite Forall_forall in HF. apply HF. now apply list_elem_of_lookup_2 in Ht. }
    pose proof (tree_root _ _ Hok) as Hroot.
    destruct (subtree_size _ _ _ _ _ Hroot) as [_ Hc1].
    unfold total_leaves in Hle. cbn [sum_list_with] in Hle. fold (total_leaves ts) in Hle.
    destruct budget as [|budget]; [lia|]. cbn [visit_roots].
    destruct (descend_tree_spec ti t (Root t) _ _ _ pq acc Ht Hroot)
      as (new & visited & rest & Hd & Hpn & Hpi).
    rewrite Hd. cbn [bind].
    destruct (IH budget (S ti) (new ++ pq) (scan visited acc) (rest ++ its)
                 ((leaf_count t - 1) + cs))
      as (budget' & pq' & visited' & its' & cs' & Hv & Hp' & Hle' & Hperm).
    + now apply pend_app.
    + intros i t' Hi. replace (S ti + i) with (ti + S i) by lia. now apply Hts.
    + lia.
    + exists budget', pq', (visited ++ visited'), its', cs'.
      split; [rewrite Hv; now rewrite scan_app|].
      split; [exact Hp'|]. split; [exact Hle'|].
      rewrite <- app_assoc, Hperm. cbn [map concat]. rewrite Hpi.
      rewrite !app_assoc. apply Permutation_app_tail.
      rewrite <- (app_assoc its). apply Permutation_app_comm.
Qed.

(** A budget of at least the number of leaves of the forest: every
    association of every tree is scanned, once. *)
Lemma query_all max_candidates :
  total_leaves F <= max_candidates ->
  exists visited,
    query F q max_candidates = Ret (scan visited no_match)
    /\ visited ≡ₚ concat (map _list F).
Proof.
  intros Hle. unfold query.
  destruct (visit_roots_all F max_candidates 0 [] no_match [] 0)
    as (budget' & pq' & visited & its' & cs' & Hv & Hp & Hle' & Hperm);
    [constructor|trivial|lia|].
  rewrite Hv. cbn [bind].
  destruct (best_first_all budget' pq' (scan visited no_match) its' cs' Hp Hle')
    as (visited' & Hb & Hperm').
  exists (visited ++ visited'). split.
  - rewrite Hb. now rewrite scan_app.
  - rewrite Hperm'. exact Hperm.
Qed.

End SearchFacts.

(** ** Facts about a built forest *)

Lemma Query2NN_each (F : list KDTree) (max_candidates : nat) (queries : list U8Descriptor)
      (R : U8Descriptor -> Accumulator -> Prop) :
  (forall q, q ∈ queries -> exists acc, query F q max_candidates = Ret acc /\ R q acc) ->
  forall query_count,
    query_count <= length queries ->
    exists res : list (nat * option DescriptorAssociation * option DescriptorAssociation),
      Query2NN F max_candidates queries query_count = Ret res
      /\ length res = query_count
      /\ forall i q, i < query_count -> queries !! i = Some q ->
                     exists acc, res !! i = Some (i, best acc, second acc) /\ R q acc.
Proof.
  intros Hq. unfold Query2NN.
  induction query_count as [|k IH]; intros Hk.
  - exists []. cbn. repeat split; trivial. intros; lia.
  - destruct IH as (res & Hres & Hlen & Hall); [lia|].
    rewrite seq_S, Nat.add_0_l.
    assert (Hfold : forall {A S} (f : S -> A -> outcome S) l x s,
               foldM f (l ++ [x]) s = do s' <- foldM f l s; f s' x).
    { clear. intros A S f l x. induction l as [|a l IHl]; intros s; cbn.
      - now destruct (f s x).
      - destruct (f s a); cbn; trivial. }
    rewrite Hfold, Hres. cbn [bind].
    destruct (lookup_lt_is_Some_2 queries k) as [qk Hqk]; [lia|].
    rewrite Hqk. destruct (Hq qk) as (acc & Hacc & HR);
      [now apply list_elem_of_lookup_2 in Hqk|].
    rewrite Hacc. cbn [bind].
    exists (res ++ [(k, best acc, second acc)]). split; [reflexivity|].
    split; [rewrite length_app; cbn; lia|].
    intros i q Hi Hiq. destruct (decide (i = k)) as [->|Hne].
    + exists acc. rewrite Hqk in Hiq. injection Hiq as <-.
      split; [|exact HR]. rewrite lookup_app_r by lia.
      now replace (k - length res) with 0 by lia.
    + destruct (Hall i q) as (acc' & Hl & HR'); [lia|trivial|].
      exists acc'. split; [|exact HR']. rewrite lookup_app_l by lia. exact Hl.
Qed.

Section BuiltForest.

Variable descriptors : list U8Descriptor.
Variable image_indexes : list nat.
Variable dcount tree_count leaf_size : nat.
Variable choose_split : nat -> nat -> list DescriptorAssociation -> nat * nat.
Variable degenerate : nat -> nat -> list DescriptorAssociation -> option nat.

Abbreviation store_list := (initial_list image_indexes dcount).
Abbreviation Build_forest :=
  (Build descriptors image_indexes dcount tree_count leaf_size choose_split degenerate).

Lemma Build_trees forest :
  Build_forest = Some forest ->
  length forest = tree_count
  /\ forall t, t ∈ forest ->
               exists tree, KDTree_Build descriptors leaf_size (choose_split tree)
                              (degenerate tree) image_indexes dcount = Some t.
Proof.
  unfold Build. intros H. split.
  - apply length_mapM in H. now rewrite length_seq in H.
  - intros t Ht. apply mapM_Some_1 in H.
    apply list_elem_of_lookup in Ht as [i Hi].
    destruct (Forall2_lookup_r _ _ _ _ _ H Hi) as (tree & _ & Hb). eauto.
Qed.

Lemma built_tree_ok t tree :
  KDTree_Build descriptors leaf_size (choose_split tree) (degenerate tree)
    image_indexes dcount = Some t ->
  dcount <= length descriptors ->
  (Z.of_nat dcount <= 2 ^ 31)%Z ->
  (Z.of_nat (length (_nodes t)) <= 2 ^ 31)%Z ->
  tree_ok descriptors t /\ _list t ≡ₚ store_list.
Proof.
  intros H Hstore Hwd Hwn.
  destruct (KDTree_Build_inv _ _ _ _ _ _ _ H) as (Hd & Hl & Hb & Hdesc & _ & Hls).
  pose proof (built_root _ _ _ _ _ _ _ H Hwd Hwn) as Hroot.
  destruct (built_list _ _ _ _ _ _ _ H) as (Hlen & Hp & Hg).
  split; [|exact Hp]. split; trivial.
  - lia.
  - apply Forall_forall. intros a Ha.
    assert (Hin : global_index a ∈ seq 0 dcount).
    { rewrite <- Hg. apply list_elem_of_fmap. eauto. }
    apply elem_of_seq in Hin. lia.
Qed.

Lemma built_forest_ok forest :
  Build_forest = Some forest ->
  dcount <= length descriptors ->
  (Z.of_nat dcount <= 2 ^ 31)%Z ->
  Forall (fun t => (Z.of_nat (length (_nodes t)) <= 2 ^ 31)%Z) forest ->
  Forall (fun t => tree_ok descriptors t /\ _list t ≡ₚ store_list) forest.
Proof.
  intros H Hs Hwd Hwn. apply Forall_forall. intros t Ht.
  destruct (Build_trees forest H) as [_ Hall]. destruct (Hall t Ht) as [tree Hb].
  rewrite Forall_forall in Hwn. eapply built_tree_ok; eauto.
Qed.

Lemma elem_of_forest_lists forest a :
  Forall (fun t => _list t ≡ₚ store_list) forest -> forest <> [] ->
  a ∈ concat (map _list forest) <-> a ∈ store_list.
Proof.
  intros Hf Hne. rewrite Forall_forall in Hf.
  rewrite !list_elem_of_In, in_concat. split.
  - intros (l & Hl & Ha). apply in_map_iff in Hl as (t & <- & Ht).
    apply list_elem_of_In in Ht. apply list_elem_of_In in Ha.
    apply list_elem_of_In. now rewrite <- (Hf t Ht).
  - intros Ha. destruct forest as [|t forest]; [congruence|].
    exists (_list t). split; [now left|].
    apply list_elem_of_In. rewrite (Hf t); [now apply list_elem_of_In|].
    apply elem_of_cons. now left.
Qed.

Lemma linear_scan_scan q :
  linear_scan descriptors image_indexes dcount q = scan descriptors q store_list no_match.
Proof. reflexivity. Qed.

(* a descriptor of the store is at less than the maximal distance from a
   query of 128 bytes *)
Lemma store_list_near q :
  store_ok descriptors dcount -> is_descriptor q ->
  Forall (fun a => dist_to descriptors q a < UINT_MAX)%Z store_list.
Proof.
  intros Hs Hq. eapply Forall_impl; [exact (initial_list_valid _ _ _ Hs)|].
  intros a Ha. cbn beta in Ha. unfold dist_to.
  destruct (L2DistanceSquared_fits q _ Hq Ha) as [_ Hle]. unfold UINT_MAX. lia.
Qed.

(** What the scan of every association of a built forest leaves, and what
    the linear scan over the store leaves: a nearest and a second nearest of
    the associations of the store. *)
Lemma forest_scan_spec forest q visited :
  store_ok descriptors dcount -> is_descriptor q ->
  Forall (fun t => _list t ≡ₚ store_list) forest -> forest <> [] ->
  visited ≡ₚ concat (map _list forest) ->
  holds_nearest (dist_to descriptors q) store_list (scan descriptors q visited no_match)
  /\ holds_nearest (dist_to descriptors q) store_list
       (linear_scan descriptors image_indexes dcount q).
Proof.
  intros Hs Hq Hlists Hne Hperm.
  pose proof (store_list_near q Hs Hq) as Hnear.
  split.
  - apply (holds_nearest_same_elements _ ([] ++ visited)).
    + intros x. cbn [app]. rewrite Hperm. now apply elem_of_forest_lists.
    + apply holds_nearest_scan; [apply holds_nearest_no_match|].
      apply Forall_forall. intros a Ha. rewrite Forall_forall in Hnear. apply Hnear.
      rewrite Hperm in Ha. now apply (elem_of_forest_lists forest a Hlists Hne).
  - rewrite linear_scan_scan.
    apply (holds_nearest_scan descriptors q store_list [] no_match);
      [apply holds_nearest_no_match|exact Hnear].
Qed.


End BuiltForest.

End kdtree.

(** ** Concrete stores and forests *)

Module kdtreeExample.
Import kdtree.

(* a descriptor from its first components; the others are 0 *)
Definition desc (l : list Z) : U8Descriptor :=
  {| ufeatures := l ++ replicate (128 - length l) 0%Z |}.

(* the split at value 1 on dimension 0, for every node of every tree *)
Definition split01 (tree node_index : nat) (range : list DescriptorAssociation) : nat * nat :=
  (0, 1).

(* the two fall backs for a range that the cut does not divide: the split
   point after the first entry, and the leaf *)
Definition cut_first (tree node_index : nat) (range : list DescriptorAssociation) : option nat :=
  Some 0.

Definition to_leaf (tree node_index : nat) (range : list DescriptorAssociation) : option nat :=
  None.

Definition assoc (i : nat) : DescriptorAssociation :=
  {| global_index := i; image_index := 0; local_index := i |}.

(* the query, at distance 1 from [2; 0; ...] and from [0; 0; ...] *)
Definition q1 : U8Descriptor := desc [1]%Z.

(* two descriptors at the same distance from the query *)
Definition tied : list U8Descriptor := [desc [2]; desc [0]]%Z.

(* three descriptors at the distances 1, 4 and 81 from the query *)
Definition apart : list U8Descriptor := [desc [0]; desc [3]; desc [10]]%Z.

(* two descriptors with the same bytes *)
Definition same : list U8Descriptor := [desc [5]; desc [5]]%Z.

(* the trees over [same] with a threshold of 1, for the two fall backs *)
Definition same_tree_cut : KDTree :=
  {| _descriptors := same;
     _dcount := 2;
     _bb := [point_box (desc [5]%Z); point_box (desc [5]%Z); point_box (desc [5]%Z)];
     _nodes := [Internal 2 0 1; Leaf 0 1; Leaf 1 2];
     _list := [assoc 0; assoc 1];
     _leaf_size := 1 |}.

Definition same_tree_leaf : KDTree :=
  {| _descriptors := same;
     _dcount := 2;
     _bb := [point_box (desc [5]%Z)];
     _nodes := [Leaf 0 2];
     _list := [assoc 0; assoc 1];
     _leaf_size := 1 |}.

Definition tied_tree : KDTree :=
  {| _descriptors := tied;
     _dcount := 2;
     _bb := [ {| min := desc [0]%Z; max := desc [2]%Z |};
              point_box (desc [0]%Z);
              point_box (desc [2]%Z) ];
     _nodes := [Internal 2 0 1; Leaf 0 1; Leaf 1 2];
     _list := [assoc 1; assoc 0];
     _leaf_size := 1 |}.

Definition apart_tree : KDTree :=
  {| _descriptors := apart;
     _dcount := 3;
     _bb := [ {| min := desc [0]%Z; max := desc [10]%Z |};
              point_box (desc [0]%Z);
              {| min := desc [3]%Z; max := desc [10]%Z |};
              point_box (desc [3]%Z);
              point_box (desc [10]%Z) ];
     _nodes := [Internal 2 0 1; Leaf 0 1; Internal 4 0 1; Leaf 1 2; Leaf 2 3];
     _list := [assoc 0; assoc 1; assoc 2];
     _leaf_size := 1 |}.

End kdtreeExample.

Example kdtreeExample_build_tied :
  kdtree.KDTree_Build kdtreeExample.tied 1 (kdtreeExample.split01 0)
    (kdtreeExample.cut_first 0) [0; 0] 2
  = Some kdtreeExample.tied_tree.
Proof. vm_compute. reflexivity. Qed.

Example kdtreeExample_build_apart :
  kdtree.Build kdtreeExample.apart [0; 0; 0] 3 2 1 kdtreeExample.split01
    kdtreeExample.cut_first
  = Some [kdtreeExample.apart_tree; kdtreeExample.apart_tree].
Proof. vm_compute. reflexivity. Qed.

(** A range of equal descriptors, which no cut divides: the fall back to a
    split point ends in leaves of one entry, the fall back to a leaf in one
    leaf of two. *)
Example kdtreeExample_build_same :
  kdtree.KDTree_Build kdtreeExample.same 1 (kdtreeExample.split01 0)
    (kdtreeExample.cut_first 0) [0; 0] 2
  = Some kdtreeExample.same_tree_cut
  /\ kdtree.KDTree_Build kdtreeExample.same 1 (kdtreeExample.split01 0)
       (kdtreeExample.to_leaf 0) [0; 0] 2
     = Some kdtreeExample.same_tree_leaf.
Proof. vm_compute. split; reflexivity. Qed.

(** The members of a node keep the low bits of what is assigned to them. *)
Example kdtreeExample_store_node :
  kdtree.store_node (kdtree.Internal 5 300 256) = kdtree.Internal 5 44 0
  /\ kdtree.store_node (kdtree.Leaf 7 9) = kdtree.Leaf 7 9.
Proof. vm_compute. split; reflexivity. Qed.

Example kdtreeExample_accessors :
  kdtree.Left kdtreeExample.tied_tree 0 = Ret 1
  /\ kdtree.Right kdtreeExample.tied_tree 0 = Ret 2
  /\ kdtree.Left kdtreeExample.tied_tree 1 = Throw KDAssertion
  /\ kdtree.List kdtreeExample.tied_tree 2 = Ret (1, 2)
  /\ kdtree.List kdtreeExample.tied_tree 0 = Throw KDAssertion
  /\ kdtree.BB kdtreeExample.tied_tree 3 = Throw VectorAt.
Proof. vm_compute. repeat split. Qed.

Example kdtreeExample_distances :
  kdtree.L2DistanceSquared kdtreeExample.q1 (kdtreeExample.desc [10; 2]%Z) = 85%Z
  /\ kdtree.L1Distance kdtreeExample.q1 (kdtreeExample.desc [10; 2]%Z) = 11%Z
  /\ kdtree.L2DistanceSquared_box kdtreeExample.q1
       {| kdtree.min := kdtreeExample.desc [3]%Z; kdtree.max := kdtreeExample.desc [10]%Z |}
     = 4%Z
  /\ kdtree.L2DistanceSquared_box kdtreeExample.q1
       {| kdtree.min := kdtreeExample.desc [0]%Z; kdtree.max := kdtreeExample.desc [2]%Z |}
     = 0%Z.
Proof. vm_compute. repeat split. Qed.

(** With a budget of one leaf the search stops after the first descent. *)
Example kdtreeExample_budget :
  kdtree.Query2NN [kdtreeExample.apart_tree] 1 [kdtreeExample.q1] 1
  = Ret [(0, Some (kdtreeExample.assoc 0), None)]
  /\ kdtree.Query2NN [kdtreeExample.apart_tree] 3 [kdtreeExample.q1] 1
     = Ret [(0, Some (kdtreeExample.assoc 0), Some (kdtreeExample.assoc 1))].
Proof. vm_compute. split; reflexivity. Qed.

(** A descriptor that two trees hold is one neighbour: on the store [apart]
    with two trees the nearest descriptor is met once in each tree and the
    second neighbour is the second nearest descriptor. *)
Example kdtreeExample_two_trees :
  kdtree.total_leaves [kdtreeExample.apart_tree; kdtreeExample.apart_tree] = 6
  /\ kdtree.Query2NN [kdtreeExample.apart_tree; kdtreeExample.apart_tree] 6
       [kdtreeExample.q1] 1
     = Ret [(0, Some (kdtreeExample.assoc 0), Some (kdtreeExample.assoc 1))].
Proof. vm_compute. split; reflexivity. Qed.

(** Descriptors at the same distance from the query: on the store [tied]
    the tree holds the two descriptors in the order 1, 0, both at distance 1;
    the search returns them in the order it meets them, and so does the
    linear scan, in the order of the store.  Each of the two is a nearest. *)
Example kdtreeExample_ties :
  kdtree.Query2NN [kdtreeExample.tied_tree] 2 [kdtreeExample.q1] 1
  = Ret [(0, Some (kdtreeExample.assoc 1), Some (kdtreeExample.assoc 0))]
  /\ kdtree.best (kdtree.linear_scan kdtreeExample.tied [0; 0] 2 kdtreeExample.q1)
     = Some (kdtreeExample.assoc 0)
  /\ kdtree.second (kdtree.linear_scan kdtreeExample.tied [0; 0] 2 kdtreeExample.q1)
     = Some (kdtreeExample.assoc 1)
  /\ kdtree.dist_to kdtreeExample.tied kdtreeExample.q1 (kdtreeExample.assoc 0) = 1%Z
  /\ kdtree.dist_to kdtreeExample.tied kdtreeExample.q1 (kdtreeExample.assoc 1) = 1%Z.
Proof. vm_compute. repeat split. Qed.

Lemma kdtreeExample_apart_ok : kdtree.store_ok kdtreeExample.apart 3.
Proof.
  split; [cbn; lia|].
  repeat (apply Forall_cons; split; [now apply kdtree.is_descriptorb_spec|]). constructor.
Qed.


(** C2 fails as stated for an index past the end: on the tree of three
    nodes, Left at index 3 ends in the std::out_of_range of
    std::vector::at, which is not the assertion failure. *)
Lemma out_of_range_is_not_an_assertion :
  kdtree.Left kdtreeExample.tied_tree 3 = Throw VectorAt
  /\ kdtree.IsLeaf kdtreeExample.tied_tree 3 = Throw VectorAt
  /\ VectorAt <> KDAssertion.
Proof. split; [reflexivity|]. split; [reflexivity|discriminate]. Qed.

(** C3 on the tree over the store [tied]. *)
Lemma built_tree_links_witness :
  kdtree.Left kdtreeExample.tied_tree 0 = Ret 1
  /\ exists r, kdtree.Right kdtreeExample.tied_tree 0 = Ret r /\ 0 < r /\ r < 3.
Proof.
  destruct (kdtree.built_tree_links kdtreeExample.tied 1 (kdtreeExample.split01 0)
              (kdtreeExample.cut_first 0) [0; 0] 2 kdtreeExample.tied_tree) as (_ & _ & Hn).
  - vm_compute. reflexivity.
  - vm_compute. discriminate.
  - vm_compute. discriminate.
  - exact (Hn 0 eq_refl).
Defined.



Lemma kdtreeExample_store_ok : kdtree.store_ok kdtreeExample.tied 2.
Proof.
  split; [cbn; lia|].
  apply Forall_cons. split; [now apply kdtree.is_descriptorb_spec|].
  apply Forall_cons. split; [now apply kdtree.is_descriptorb_spec|constructor].
Qed.

(** C5 on the tree over the store [tied]: the box of the root contains the
    boxes of its children. *)
Lemma built_tree_boxes_witness :
  exists r box boxl boxr,
    kdtree.Right kdtreeExample.tied_tree 0 = Ret r
    /\ kdtree.BB kdtreeExample.tied_tree 0 = Ret box
    /\ kdtree.BB kdtreeExample.tied_tree (0 + 1) = Ret boxl
    /\ kdtree.BB kdtreeExample.tied_tree r = Ret boxr
    /\ kdtree.contains box boxl /\ kdtree.contains box boxr.
Proof.
  destruct (kdtree.built_tree_boxes kdtreeExample.tied 1 (kdtreeExample.split01 0)
              (kdtreeExample.cut_first 0) [0; 0] 2 kdtreeExample.tied_tree)
    with (n := 0) as [Hint _].
  - vm_compute. reflexivity.
  - exact kdtreeExample_store_ok.
  - vm_compute. discriminate.
  - vm_compute. discriminate.
  - exact (Hint eq_refl).
Defined.

(** C6 on the query [1; 0; ...], the box from [3; 0; ...] to [10; 0; ...]
    and the descriptor [10; 0; ...] in it: the query clamped into the box is
    [3; 0; ...], which lies in the box, and the distances to the box, 2 and
    4, are below the distances to the descriptor, 9 and 81. *)
Lemma box_distance_lower_bound_witness :
  let B := {| kdtree.min := kdtreeExample.desc [3]%Z; kdtree.max := kdtreeExample.desc [10]%Z |} in
  kdtree.clamp_into kdtreeExample.q1 B = kdtreeExample.desc [3]%Z
  /\ kdtree.inside (kdtree.clamp_into kdtreeExample.q1 B) B
  /\ (kdtree.L1Distance_box kdtreeExample.q1 B
      <= kdtree.L1Distance kdtreeExample.q1 (kdtreeExample.desc [10]%Z))%Z
  /\ (kdtree.L2DistanceSquared_box kdtreeExample.q1 B
      <= kdtree.L2DistanceSquared kdtreeExample.q1 (kdtreeExample.desc [10]%Z))%Z.
Proof.
  intros B.
  destruct (kdtree.box_distance_lower_bound kdtreeExample.q1 B) as (_ & Hin & _ & Hle).
  split; [reflexivity|]. split.
  - apply Hin; [now apply kdtree.is_descriptorb_spec|].
    split; [now apply kdtree.is_descriptorb_spec|].
    split; [now apply kdtree.is_descriptorb_spec|].
    cbn. repeat constructor; lia.
  - apply (Hle (kdtreeExample.desc [10]%Z)).
    + now apply kdtree.is_descriptorb_spec.
    + now apply kdtree.is_descriptorb_spec.
    + split; cbn; repeat constructor; lia.
Defined.
